(** * A shallow embedding of the byte arena (package arena) and of its
      recycling pool (package mempool), with the properties of the
      lease handles, the bump allocator and the swap-and-retry logic.

    Go values are modelled as follows.
    - [int] is a 64-bit signed integer: a [Z] with the wrap-around of every
      addition and subtraction written out ([wrap_int]); [uint] is a [Z]
      reduced modulo 2^64 ([wrap_uint]).
    - A [[]byte] is a [slice]: a view (array, offset, length, capacity) into
      one of the backing arrays of the heap, so that a Writer, the Reader
      made from it and the arena they came from really share their bytes.
    - A [*arena] is an index into the arenas of the heap.  The wait group of
      an arena is a field of the arena, so a [*sync.WaitGroup] held by a
      handle is the index of the arena it points into, or [None] for nil.
    - A method with a pointer receiver returns the updated receiver next to
      its results.
    - A panic and a blocked goroutine are outcomes of their own. *)

From Stdlib Require Import ZArith List Lia Bool.
From Stdlib Require Import Init.Byte.
From stdpp Require Import base list.

Local Open Scope Z_scope.

(** ** Machine integers *)

Definition max_int : Z := 2 ^ 63 - 1.
Definition min_int : Z := - 2 ^ 63.

(** The value of a 64-bit signed integer expression after wrap-around. *)
Definition wrap_int (z : Z) : Z := (z + 2 ^ 63) mod 2 ^ 64 - 2 ^ 63.

(** The value of a 64-bit unsigned integer expression after wrap-around. *)
Definition wrap_uint (z : Z) : Z := z mod 2 ^ 64.

(** The largest allocation the runtime grants on a 64-bit platform
    (runtime.maxAlloc, 48 address bits); [make] panics beyond it. *)
Definition maxAlloc : Z := 2 ^ 48.

(** ** Outcomes and the state monad of the model *)

Inductive error : Type :=
| arenaFullErr        (* var arenaFullErr = fmt.Errorf("arena is full") *)
| errSize             (* fmt.Errorf("size must be greater than 0") *)
| errReasonable       (* fmt.Errorf("reasonable block size is too large for arena") *)
| errPeek             (* errors.New("block is not big enough to peek ahead that far") *)
| ErrShortWrite       (* io.ErrShortWrite *)
| EOF.                (* io.EOF *)

Inductive panic : Type :=
| NilDeref            (* invalid memory address or nil pointer dereference *)
| NegativeCounter     (* sync: negative WaitGroup counter *)
| OutOfRange          (* slice bounds out of range *)
| LenOutOfRange       (* makeslice: len out of range *)
| PanicErr (e : error).

Inductive outcome (A : Type) : Type :=
| Ret (a : A)
| Panic (p : panic)
| Block.
Arguments Ret {A} a.
Arguments Panic {A} p.
Arguments Block {A}.

Definition M (S A : Type) : Type := S -> outcome (A * S).

Definition ret {S A} (a : A) : M S A := fun s => Ret (a, s).

Definition bind {S A B} (m : M S A) (k : A -> M S B) : M S B :=
  fun s => match m s with
           | Ret (a, s') => k a s'
           | Panic p => Panic p
           | Block => Block
           end.

Definition throw {S A} (p : panic) : M S A := fun _ => Panic p.

Notation "'let!' x ':=' m 'in' k" := (bind m (fun x => k))
  (at level 10, x name, m at level 100, k at level 200, only parsing).
Notation "'let!' ' pat ':=' m 'in' k" :=
  (bind m (fun x => match x with pat => k end))
  (at level 10, pat pattern, m at level 100, k at level 200, only parsing).
Notation "'run!' m 'in' k" := (bind m (fun _ => k))
  (at level 10, m at level 100, k at level 200, only parsing).

(** ** Slices and the heap *)

Record slice : Type := Slice {
  s_arr : nat;   (* the backing array *)
  s_off : nat;   (* offset of the first element in the backing array *)
  s_len : nat;   (* len(s) *)
  s_cap : nat    (* cap(s) *)
}.

(** The nil slice. *)
Definition nil_slice : slice := Slice 0 0 0 0.

Definition len (s : slice) : Z := Z.of_nat (s_len s).

(** type arena struct { wg; block; reasonable; next } *)
Record arena : Type := Arena {
  a_wg : Z;             (* the counter of the embedded sync.WaitGroup *)
  a_block : slice;
  a_reasonable : Z;
  a_next : Z
}.

Record heap : Type := Heap {
  arrays : list (list byte);
  arenas : list arena
}.

Definition set_arrays (h : heap) (l : list (list byte)) : heap :=
  Heap l (arenas h).
Definition set_arenas (h : heap) (l : list arena) : heap :=
  Heap (arrays h) l.

(** The bytes a slice denotes. *)
Definition slice_bytes (h : heap) (s : slice) : list byte :=
  take (s_len s) (drop (s_off s) (default [] (arrays h !! s_arr s))).

(** s[lo:hi], which panics unless 0 <= lo <= hi <= cap(s). *)
Definition reslice {S} (s : slice) (lo hi : Z) : M S slice :=
  if (0 <=? lo) && (lo <=? hi) && (hi <=? Z.of_nat (s_cap s))
  then ret (Slice (s_arr s) (s_off s + Z.to_nat lo)
                  (Z.to_nat (hi - lo)) (s_cap s - Z.to_nat lo))
  else throw OutOfRange.

(** Overwrites the elements of [l] from index [o] on with [src]. *)
Definition overwrite (o : nat) (src : list byte) (l : list byte) : list byte :=
  take o l ++ src ++ drop (o + length src) l.

(** copy(dst, src) into a slice of the heap: min(len(dst), len(src)) bytes. *)
Definition copy (dst : slice) (src : list byte) : M heap Z :=
  fun h =>
    let n := Nat.min (s_len dst) (length src) in
    Ret (Z.of_nat n,
         set_arrays h (alter (overwrite (s_off dst) (take n src))
                             (s_arr dst) (arrays h))).

(** copy(dst, src) into a buffer of the caller: the buffer afterwards. *)
Definition copy_out (dst src : list byte) : Z * list byte :=
  let n := Nat.min (length dst) (length src) in
  (Z.of_nat n, take n src ++ drop n dst).

(** make([]byte, n) *)
Definition make_bytes (n : Z) : M heap slice :=
  fun h =>
    if (n <? 0) || (maxAlloc <? n) then Panic LenOutOfRange
    else Ret (Slice (length (arrays h)) 0 (Z.to_nat n) (Z.to_nat n),
              set_arrays h (arrays h ++ [replicate (Z.to_nat n) x00])).

(** ** sync.WaitGroup and sync.Once *)

(** wg.Add(delta) through a *sync.WaitGroup. *)
Definition WaitGroup_Add (wg : option nat) (delta : Z) : M heap unit :=
  fun h =>
    match wg with
    | None => Panic NilDeref
    | Some i =>
        match arenas h !! i with
        | None => Panic NilDeref
        | Some a =>
            if a_wg a + delta <? 0 then Panic NegativeCounter
            else Ret (tt, set_arenas h
                         (<[i := Arena (a_wg a + delta) (a_block a)
                                       (a_reasonable a) (a_next a)]> (arenas h)))
        end
    end.

(** wg.Done() is wg.Add(-1). *)
Definition WaitGroup_Done (wg : option nat) : M heap unit :=
  WaitGroup_Add wg (-1).

(** wg.Wait() returns once the counter is zero. *)
Definition WaitGroup_Wait (wg : option nat) : M heap unit :=
  fun h =>
    match wg with
    | None => Panic NilDeref
    | Some i =>
        match arenas h !! i with
        | None => Panic NilDeref
        | Some a => if a_wg a =? 0 then Ret (tt, h) else Block
        end
    end.

(** ** The lease handles *)

(** type Writer struct { block; at; once; wg } *)
Record Writer : Type := mkWriter {
  w_block : slice;
  w_at : Z;
  w_once : bool;          (* sync.Once: has Do already run *)
  w_wg : option nat
}.

(** type Reader struct { block; at; once; wg } *)
Record Reader : Type := mkReader {
  r_block : slice;
  r_at : Z;
  r_once : bool;
  r_wg : option nat
}.

(** Writer{} *)
Definition Writer_zero : Writer := mkWriter nil_slice 0 false None.

Definition Writer_set_at (w : Writer) (at' : Z) : Writer :=
  mkWriter (w_block w) at' (w_once w) (w_wg w).
Definition Writer_set_once (w : Writer) : Writer :=
  mkWriter (w_block w) (w_at w) true (w_wg w).
Definition Reader_set_at (r : Reader) (at' : Z) : Reader :=
  mkReader (r_block r) at' (r_once r) (r_wg r).
Definition Reader_set_once (r : Reader) : Reader :=
  mkReader (r_block r) (r_at r) true (r_wg r).

(** func (w *Writer) Write(b []byte) (int, error) *)
Definition Writer_Write (w : Writer) (b : list byte)
  : M heap (Z * option error * Writer) :=
  if len (w_block w) <=? w_at w then
    ret (0, Some ErrShortWrite, w)
  else if wrap_int (len (w_block w) - w_at w) <? Z.of_nat (length b) then
    let! dst := reslice (w_block w) (w_at w) (len (w_block w)) in
    run! copy dst (take (Z.to_nat (wrap_int (len (w_block w) - w_at w))) b) in
    ret (wrap_int (len (w_block w) - w_at w), Some ErrShortWrite, w)
  else
    let! dst := reslice (w_block w) (w_at w) (len (w_block w)) in
    let! n := copy dst b in
    ret (n, None, Writer_set_at w (wrap_int (w_at w + n))).

(** func (w *Writer) Len() int *)
Definition Writer_Len (w : Writer) : Z := wrap_int (len (w_block w) - w_at w).

(** func (w *Writer) Cap() int *)
Definition Writer_Cap (w : Writer) : Z := len (w_block w).

(** func (w *Writer) Release() *)
Definition Writer_Release (w : Writer) : M heap Writer :=
  match w_wg w with
  | None => ret w
  | Some _ =>
      if w_once w then ret w
      else run! WaitGroup_Done (w_wg w) in ret (Writer_set_once w)
  end.

(** func (w *Writer) Reader() Reader *)
Definition Writer_Reader (w : Writer) : M heap (Reader * Writer) :=
  run! WaitGroup_Add (w_wg w) 1 in
  let! w' := Writer_Release w in
  ret (mkReader (w_block w') 0 false (w_wg w'), w').

(** func (r *Reader) Read(b []byte) (int, error): the buffer afterwards is
    returned too. *)
Definition Reader_Read (r : Reader) (b : list byte)
  : M heap (Z * option error * list byte * Reader) :=
  if len (r_block r) <=? r_at r then
    ret (0, Some EOF, b, r)
  else
    let! src := reslice (r_block r) (r_at r) (len (r_block r)) in
    fun h =>
      let '(n, b') := copy_out b (slice_bytes h src) in
      let r' := Reader_set_at r (wrap_int (r_at r + n)) in
      if r_at r' =? len (r_block r') then Ret (n, Some EOF, b', r', h)
      else Ret (n, None, b', r', h).

(** func (r *Reader) Release() *)
Definition Reader_Release (r : Reader) : M heap Reader :=
  match r_wg r with
  | None => ret r
  | Some _ =>
      if r_once r then ret r
      else run! WaitGroup_Done (r_wg r) in ret (Reader_set_once r)
  end.

(** func (w *Writer) Block() []byte *)
Definition Writer_Block (w : Writer) : slice := w_block w.

(** func (w *Writer) Reset() *)
Definition Writer_Reset (w : Writer) : Writer := Writer_set_at w 0.

(** func (r *Reader) Len() int *)
Definition Reader_Len (r : Reader) : Z := wrap_int (len (r_block r) - r_at r).

(** func (r *Reader) Cap() int *)
Definition Reader_Cap (r : Reader) : Z := Z.of_nat (s_cap (r_block r)).

(** func (r *Reader) Peek(n int) ([]byte, error) *)
Definition Reader_Peek {S} (r : Reader) (n : Z) : M S (slice * option error) :=
  if len (r_block r) <? wrap_int (r_at r + n) then
    ret (nil_slice, Some errPeek)
  else
    let! s := reslice (r_block r) (r_at r) (wrap_int (r_at r + n)) in
    ret (s, None).

(** func (r *Reader) Bytes() []byte *)
Definition Reader_Bytes {S} (r : Reader) : M S slice :=
  reslice (r_block r) (r_at r) (len (r_block r)).

(** func (r *Reader) Block() []byte *)
Definition Reader_Block (r : Reader) : slice := r_block r.

(** Reading until end-of-data, as io.ReadAll does, with a buffer of [k]
    bytes per call: the bytes read, or [None] when the fuel runs out. *)
Fixpoint read_to_EOF (fuel : nat) (k : nat) (r : Reader) (acc : list byte)
  : M heap (option (list byte) * Reader) :=
  match fuel with
  | O => ret (None, r)
  | S fuel' =>
      let! '(n, err, b, r') := Reader_Read r (replicate k x00) in
      match err with
      | Some EOF => ret (Some (acc ++ take (Z.to_nat n) b), r')
      | Some _ => ret (None, r')
      | None => read_to_EOF fuel' k r' (acc ++ take (Z.to_nat n) b)
      end
  end.

(** ** The arena *)

Definition get_arena (a : nat) : M heap arena :=
  fun h => match arenas h !! a with
           | Some x => Ret (x, h)
           | None => Panic NilDeref
           end.

Definition set_next (a : nat) (n : Z) : M heap unit :=
  fun h => Ret (tt, set_arenas h
    (alter (fun x => Arena (a_wg x) (a_block x) (a_reasonable x) n) a (arenas h))).

(** func newArena(size, reasonable uint): a pointer to the new arena, or an
    error *)
Definition newArena (size reasonable : Z) : M heap (option nat * option error) :=
  if size <? wrap_uint (reasonable * 10) then
    ret (None, Some errReasonable)
  else
    let! blk := make_bytes size in
    fun h => Ret ((Some (length (arenas h)), None),
                  set_arenas h (arenas h ++ [Arena 0 blk (wrap_int reasonable) 0])).

(** func (a *arena) GetWriter(size int) (Writer, error) *)
Definition arena_GetWriter (a : nat) (size : Z) : M heap (Writer * option error) :=
  if size <? 1 then
    ret (Writer_zero, Some errSize)
  else
    let! x := get_arena a in
    if a_reasonable x <? size then
      let! blk := make_bytes size in
      ret (mkWriter blk 0 false None, None)
    else if len (a_block x) <? wrap_int (a_next x + size) then
      ret (Writer_zero, Some arenaFullErr)
    else
      run! WaitGroup_Add (Some a) 1 in
      let! blk := reslice (a_block x) (a_next x) (wrap_int (a_next x + size)) in
      run! set_next a (wrap_int (a_next x + size)) in
      ret (mkWriter blk 0 false (Some a), None).

(** func (a *arena) Wait() *)
Definition arena_Wait (a : nat) : M heap unit := WaitGroup_Wait (Some a).

(** func (a *arena) Reset(ctx context.Context) *)
Definition arena_Reset (a : nat) : M heap unit :=
  run! get_arena a in set_next a 0.

(** ** Package mempool: the generic two-tier object pool *)

Module mempool.
Section generic.
Context {S T : Type}.

(** The factory handed to NewPool, which becomes sync.Pool.New. *)
Variable n : M S T.

(** any(v).(Resetter): the Reset method of [v] when its type has one. *)
Variable Resetter : T -> option (M S unit).

(** type Pool[T any] struct { p sync.Pool; buffer chan T }: the buffer is
    nil or a channel with its capacity and its queue, and the sync.Pool is
    the list of the values it currently keeps. *)
Record Pool : Type := mkPool {
  p : list T;
  buffer : option (nat * list T)
}.

(** func NewPool[T any](ctx, name, n func() T, options ...Option) Pool[T],
    with the option WithBuffer(bufferSize). *)
Definition NewPool (bufferSize : Z) : Pool :=
  mkPool [] (if 0 <? bufferSize then Some (Z.to_nat bufferSize, []) else None).

(** p.p.Get(): the runtime hands back one of the values it kept ([pick]
    says which) or, finding none, calls New. *)
Definition sync_Pool_Get (pick : option nat) (pl : Pool) : M S (T * Pool) :=
  match pick with
  | Some i =>
      match p pl !! i with
      | Some v => ret (v, mkPool (delete i (p pl)) (buffer pl))
      | None => let! v := n in ret (v, pl)
      end
  | None => let! v := n in ret (v, pl)
  end.

(** func (p *Pool[T]) Get(ctx context.Context) T *)
Definition Get (pick : option nat) (pl : Pool) : M S (T * Pool) :=
  match buffer pl with
  | Some (c, v :: q) => ret (v, mkPool (p pl) (Some (c, q)))
  | _ => sync_Pool_Get pick pl
  end.

(** func (p *Pool[T]) Put(ctx context.Context, v T) *)
Definition Put (v : T) (pl : Pool) : M S Pool :=
  run! (match Resetter v with
        | Some Reset => Reset
        | None => ret tt
        end) in
  match buffer pl with
  | Some (c, q) =>
      if (length q <? c)%nat then ret (mkPool (p pl) (Some (c, q ++ [v])))
      else ret (mkPool (v :: p pl) (buffer pl))
  | None => ret (mkPool (v :: p pl) (buffer pl))
  end.
End generic.
Arguments Pool : clear implicits.
End mempool.

(** ** The arena pool *)

(** type Pool struct { size, reasonable uint; mu; current *arena; pool } *)
Record Pool : Type := mkPool {
  size : Z;
  reasonable : Z;
  current : nat;
  pool : mempool.Pool nat
}.

(** The state the pool operations run in: the heap, the pool itself (shared
    by its callers and its goroutines), and the reclamation goroutines that
    handleDepleted has started, each with the arena it waits for. *)
Record sys : Type := Sys {
  sys_heap : heap;
  sys_pool : Pool;
  goroutines : list nat
}.

Definition lift {A} (m : M heap A) : M sys A :=
  fun s => match m (sys_heap s) with
           | Ret (a, h) => Ret (a, Sys h (sys_pool s) (goroutines s))
           | Panic e => Panic e
           | Block => Block
           end.

Definition get_pool : M sys Pool := fun s => Ret (sys_pool s, s).

Definition set_current (a : nat) : M sys unit :=
  fun s => let q := sys_pool s in
           Ret (tt, Sys (sys_heap s) (mkPool (size q) (reasonable q) a (pool q))
                        (goroutines s)).

Definition set_pool (m : mempool.Pool nat) : M sys unit :=
  fun s => let q := sys_pool s in
           Ret (tt, Sys (sys_heap s) (mkPool (size q) (reasonable q) (current q) m)
                        (goroutines s)).

(** go func() { ... }() for the arena [a] *)
Definition spawn (a : nat) : M sys unit :=
  fun s => Ret (tt, Sys (sys_heap s) (sys_pool s) (goroutines s ++ [a])).

(** The factory New hands to mempool.NewPool:
    func() *arena { a, err := newArena(size, reasonable); if err != nil { panic(err) }; return a } *)
Definition factory (size reasonable : Z) : M sys nat :=
  let! '(a, err) := lift (newArena size reasonable) in
  match a, err with
  | Some a, None => ret a
  | _, Some e => throw (PanicErr e)
  | None, None => throw NilDeref
  end.

(** The type *arena has the method Reset(ctx context.Context), so it is a
    mempool.Resetter. *)
Definition arena_Resetter (a : nat) : option (M sys unit) :=
  Some (lift (arena_Reset a)).

(** func New(ctx, name string, size, reasonable uint, buffer int): the new
    pool, or an error *)
Definition New (size reasonable : Z) (buffer : Z)
  : M heap (option Pool * option error) :=
  if size <? wrap_uint (reasonable * 10) then
    ret (None, Some errReasonable)
  else
    let! '(a, err) := newArena size reasonable in
    match a, err with
    | Some a, None =>
        ret (Some (mkPool size reasonable a (mempool.NewPool buffer)), None)
    | _, _ => ret (None, err)
    end.

(** The goroutine of handleDepleted: a.Wait(); p.pool.Put(ctx, a) *)
Definition reclaim (a : nat) : M sys unit :=
  run! lift (arena_Wait a) in
  let! q := get_pool in
  let! m := mempool.Put arena_Resetter a (pool q) in
  set_pool m.

(** func (p *Pool) handleDepleted(ctx context.Context, a *arena) *)
Definition Pool_handleDepleted (a : nat) : M sys unit := spawn a.

(** func (p *Pool) getWriter(ctx context.Context, size int) (Writer, error) *)
Definition Pool_getWriter (sz : Z) (pick : option nat)
  : M sys (Writer * option error) :=
  let! q := get_pool in
  let! '(w, err) := lift (arena_GetWriter (current q) sz) in
  match err with
  | Some arenaFullErr =>
      run! Pool_handleDepleted (current q) in
      let! '(a, m) :=
        mempool.Get (factory (size q) (reasonable q)) pick (pool q) in
      run! set_pool m in
      run! set_current a in
      lift (arena_GetWriter a sz)
  | _ => ret (w, err)
  end.

(** func (p *Pool) GetWriter(ctx context.Context, size int) (Writer, error):
    the lock keeps other calls of GetWriter out for the length of the call.
    The reclamation goroutines do not take it; this is the call during
    which none of them is scheduled, and [Pool_GetWriter_among] below is the
    call with what runs beside it. *)
Definition Pool_GetWriter (sz : Z) (pick : option nat)
  : M sys (Writer * option error) :=
  Pool_getWriter sz pick.

(** * The vocabulary of the properties *)

(** ** Well-formed slices and arenas *)

(** A slice is well formed in a heap when it lies within its backing array,
    which the runtime has granted. *)
Definition slice_ok (h : heap) (s : slice) : Prop :=
  exists l, arrays h !! s_arr s = Some l /\
            (s_off s + s_cap s <= length l)%nat /\
            (s_len s <= s_cap s)%nat /\
            Z.of_nat (length l) <= maxAlloc.

(** The heap after [src] has been copied into the slice [s] from its
    index [i] on. *)
Definition write_heap (h : heap) (s : slice) (i : nat) (src : list byte) : heap :=
  set_arrays h (alter (overwrite (s_off s + i) src) (s_arr s) (arrays h)).

(** The invariants of an arena (of the data model): its block is a granted
    array, the cursor lies within it, the limit is a tenth of the block at
    most, and the counter is not negative. *)
Definition arena_wf (h : heap) (x : arena) : Prop :=
  slice_ok h (a_block x) /\
  0 <= a_next x <= len (a_block x) /\
  0 <= a_reasonable x /\ a_reasonable x * 10 <= len (a_block x) /\
  0 <= a_wg x.

(** The arena after a lease of [sz] bytes has been granted. *)
Definition granted (x : arena) (sz : Z) : arena :=
  Arena (a_wg x + 1) (a_block x) (a_reasonable x) (a_next x + sz).

(** The handle such a lease comes with. *)
Definition lease (a : nat) (x : arena) (sz : Z) : Writer :=
  mkWriter (Slice (s_arr (a_block x)) (s_off (a_block x) + Z.to_nat (a_next x))
                  (Z.to_nat sz) (s_cap (a_block x) - Z.to_nat (a_next x)))
           0 false (Some a).

(** ** Scenarios: writes, round trips, sequences of requests *)

(** A short write on a handle fresh from an arena, followed by a second
    write on the same handle: the two results, each with the cursor and
    with Len() after it, and the bytes of the block at the end. *)
Definition short_write_then_write (b1 b2 : list byte)
  : M heap ((Z * option error * Z * Z) * (Z * option error * Z * Z) * list byte) :=
  run! newArena 40 4 in
  let! '(w, _) := arena_GetWriter 0 4 in
  let! '(n1, e1, w1) := Writer_Write w b1 in
  let! '(n2, e2, w2) := Writer_Write w1 b2 in
  fun h => Ret ((n1, e1, w_at w1, Writer_Len w1,
                 (n2, e2, w_at w2, Writer_Len w2),
                 slice_bytes h (w_block w)), h).

(** Writing [s] into a Writer, converting the Writer into a Reader and
    reading until end-of-data with a buffer of [k] bytes per call: the
    result of the write and the bytes read. *)
Definition round_trip (w : Writer) (s : list byte) (k fuel : nat)
  : M heap (Z * option error * option (list byte)) :=
  let! '(n, err, w1) := Writer_Write w s in
  let! '(r, _) := Writer_Reader w1 in
  let! '(data, _) := read_to_EOF fuel k r [] in
  ret (n, err, data).

(** A sequence of requests against one arena, with no reset in between. *)
Fixpoint requests (a : nat) (sizes : list Z)
  : M heap (list (Writer * option error)) :=
  match sizes with
  | [] => ret []
  | sz :: rest =>
      let! r := arena_GetWriter a sz in
      let! rs := requests a rest in
      ret (r :: rs)
  end.

(** The byte range of [s] lies within the byte range of [blk]. *)
Definition within (blk s : slice) : Prop :=
  s_arr s = s_arr blk /\
  (s_off blk <= s_off s)%nat /\
  (s_off s + s_len s <= s_off blk + s_len blk)%nat.

(** Two byte ranges share no byte. *)
Definition disjoint (s1 s2 : slice) : Prop :=
  s_arr s1 <> s_arr s2 \/
  (s_off s1 + s_len s1 <= s_off s2)%nat \/
  (s_off s2 + s_len s2 <= s_off s1)%nat.

(** ** Tables of handles and what their holders do *)

(** The handles a caller holds on the leases of one arena. *)
Inductive handle : Type :=
| HW (w : Writer)
| HR (r : Reader).

Definition h_once (x : handle) : bool :=
  match x with HW w => w_once w | HR r => r_once r end.

Definition h_wg (x : handle) : option nat :=
  match x with HW w => w_wg w | HR r => r_wg r end.

Definition handle_Release (x : handle) : M heap handle :=
  match x with
  | HW w => let! w' := Writer_Release w in ret (HW w')
  | HR r => let! r' := Reader_Release r in ret (HR r')
  end.

(** What a caller does with the handles in its table: release the [i]-th
    one, or convert the [i]-th one, a Writer, into a Reader, which joins
    the table. *)
Inductive event : Type :=
| Release (i : nat)
| ToReader (i : nat).

Definition do_event (e : event) (hs : list handle) : M heap (list handle) :=
  match e with
  | Release i =>
      match hs !! i with
      | Some x => let! x' := handle_Release x in ret (<[i := x']> hs)
      | None => ret hs
      end
  | ToReader i =>
      match hs !! i with
      | Some (HW w) =>
          let! '(r, w') := Writer_Reader w in
          ret (<[i := HW w']> hs ++ [HR r])
      | _ => ret hs
      end
  end.

Fixpoint run_events (es : list event) (hs : list handle) : M heap (list handle) :=
  match es with
  | [] => ret hs
  | e :: rest => let! hs' := do_event e hs in run_events rest hs'
  end.

(** The number of handles of a table that have not been released. *)
Fixpoint outstanding (hs : list handle) : Z :=
  match hs with
  | [] => 0
  | x :: rest => (if h_once x then 0 else 1) + outstanding rest
  end.

(** The table and the counter of the arena [a] agree: the counter is the
    number of unreleased handles of the table, plus [base] for the leases
    held elsewhere. *)
Definition counted (a : nat) (base : Z) (h : heap) (hs : list handle) : Prop :=
  Forall (fun hd => h_wg hd = Some a) hs /\
  exists x, arenas h !! a = Some x /\ a_wg x = base + outstanding hs.

(** A later table keeps the handles of an earlier one, and those released
    stay released. *)
Definition extends (hs hs' : list handle) : Prop :=
  (length hs <= length hs')%nat /\
  forall i hd, hs !! i = Some hd -> h_once hd = true ->
    exists hd', hs' !! i = Some hd' /\ h_once hd' = true.

(** ** The arena pool as a transition system *)

(** The scheduler lets the [i]-th reclamation goroutine run; it ends when
    its body returns. *)
Definition run_goroutine (i : nat) : M sys unit :=
  fun s =>
    match goroutines s !! i with
    | None => Ret (tt, s)
    | Some a =>
        match reclaim a s with
        | Ret (_, s') =>
            Ret (tt, Sys (sys_heap s') (sys_pool s') (delete i (goroutines s')))
        | Panic e => Panic e
        | Block => Block
        end
    end.

(** What the holders of handles can do to the heap by writing, reading,
    converting and releasing: bytes and counters change (a counter never
    becomes negative), while no array changes its length and no arena its
    block, its limit or its cursor. *)
Definition handles_step (h h' : heap) : Prop :=
  Forall2 (fun l l' : list byte => length l = length l') (arrays h) (arrays h') /\
  Forall2 (fun x x' => a_block x' = a_block x /\
                       a_reasonable x' = a_reasonable x /\
                       a_next x' = a_next x /\ (0 <= a_wg x -> 0 <= a_wg x'))
          (arenas h) (arenas h').

(** The runtime may drop a value kept by the sync.Pool at any time. *)
Definition gc_drop (i : nat) (s : sys) : sys :=
  let q := sys_pool s in
  Sys (sys_heap s)
      (mkPool (size q) (reasonable q) (current q)
              (mempool.mkPool (delete i (mempool.p (pool q)))
                              (mempool.buffer (pool q))))
      (goroutines s).

(** [handles_step] as a test. *)
Fixpoint forall2b {A B} (f : A -> B -> bool) (l : list A) (k : list B) : bool :=
  match l, k with
  | [], [] => true
  | x :: l', y :: k' => f x y && forall2b f l' k'
  | _, _ => false
  end.

Definition slice_eqb (s t : slice) : bool :=
  (s_arr s =? s_arr t)%nat && (s_off s =? s_off t)%nat &&
  (s_len s =? s_len t)%nat && (s_cap s =? s_cap t)%nat.

Definition handles_stepb (h h' : heap) : bool :=
  forall2b (fun l l' : list byte => (length l =? length l')%nat)
           (arrays h) (arrays h') &&
  forall2b (fun x x' => slice_eqb (a_block x') (a_block x) &&
                        (a_reasonable x' =? a_reasonable x) &&
                        (a_next x' =? a_next x) &&
                        ((a_wg x <? 0) || (0 <=? a_wg x')))
           (arenas h) (arenas h').

(** What the rest of the program does while the pool is in use: the
    scheduler lets the [i]-th reclamation goroutine run, the holders of
    handles use them and leave the heap [h'], the runtime drops the [i]-th
    value of the sync.Pool. *)
Inductive move : Type :=
| m_goroutine (i : nat)
| m_handles (h' : heap)
| m_gc (i : nat).

(** A goroutine that has to wait stays where it is, and so does the heap
    when [h'] is not what handles can make of it.  A goroutine touches its
    own arena and the recycler only, and the operations of the recycler (a
    channel and a sync.Pool) are atomic, so it is scheduled as a whole. *)
Definition do_move (mv : move) : M sys unit :=
  fun s =>
    match mv with
    | m_goroutine i =>
        match run_goroutine i s with
        | Block => Ret (tt, s)
        | o => o
        end
    | m_handles h' =>
        if handles_stepb (sys_heap s) h'
        then Ret (tt, Sys h' (sys_pool s) (goroutines s))
        else Ret (tt, s)
    | m_gc i => Ret (tt, gc_drop i s)
    end.

Fixpoint interfere (ms : list move) : M sys unit :=
  match ms with
  | [] => ret tt
  | mv :: ms' => run! do_move mv in interfere ms'
  end.

(** getWriter with what runs beside it.  The lock of GetWriter is not taken
    by anything else, so the rest of the program moves on between the
    statements of getWriter: [ms1] before handleDepleted starts the
    goroutine, [ms2] between handleDepleted and p.pool.Get (where the
    goroutine just started may already run), [ms3] before the request is
    repeated. *)
Definition Pool_getWriter_among (ms1 ms2 ms3 : list move) (sz : Z)
    (pick : option nat) : M sys (Writer * option error) :=
  let! q := get_pool in
  let! '(w, err) := lift (arena_GetWriter (current q) sz) in
  match err with
  | Some arenaFullErr =>
      run! interfere ms1 in
      run! Pool_handleDepleted (current q) in
      run! interfere ms2 in
      let! q' := get_pool in
      let! '(a, m) :=
        mempool.Get (factory (size q) (reasonable q)) pick (pool q') in
      run! set_pool m in
      run! set_current a in
      run! interfere ms3 in
      lift (arena_GetWriter a sz)
  | _ => ret (w, err)
  end.

Definition Pool_GetWriter_among (ms1 ms2 ms3 : list move) (sz : Z)
    (pick : option nat) : M sys (Writer * option error) :=
  Pool_getWriter_among ms1 ms2 ms3 sz pick.

(** What can happen to a pool: a call of GetWriter with what runs beside
    it, and between two calls a goroutine, the holders of handles, the
    runtime. *)
Inductive step : sys -> sys -> Prop :=
| step_GetWriter sz pick ms1 ms2 ms3 s r s' :
    Pool_GetWriter_among ms1 ms2 ms3 sz pick s = Ret (r, s') -> step s s'
| step_goroutine i s s' :
    run_goroutine i s = Ret (tt, s') -> step s s'
| step_handles s h' :
    handles_step (sys_heap s) h' ->
    step s (Sys h' (sys_pool s) (goroutines s))
| step_gc i s :
    step s (gc_drop i s).

(** The states of a pool made by New(ctx, name, sz, r, buf). *)
Inductive reachable (sz r buf : Z) : sys -> Prop :=
| reachable_New h0 q h :
    New sz r buf h0 = Ret ((Some q, None), h) ->
    reachable sz r buf (Sys h q [])
| reachable_step s s' :
    reachable sz r buf s -> step s s' -> reachable sz r buf s'.

(** ** The invariant of the arena pool *)

(** The arenas the recycler holds: the queue of the buffer, then the values
    kept by the sync.Pool. *)
Definition pooled (m : mempool.Pool nat) : list nat :=
  match mempool.buffer m with
  | Some (_, q) => q
  | None => []
  end ++ mempool.p m.

(** An arena of a pool of arenas of [sz] bytes with the limit [r]. *)
Definition shaped (sz r : Z) (h : heap) (a : nat) : Prop :=
  exists x, arenas h !! a = Some x /\
            slice_ok h (a_block x) /\ len (a_block x) = sz /\
            a_reasonable x = r /\ 0 <= a_next x <= sz /\ 0 <= a_wg x.

(** An arena whose cursor is at 0. *)
Definition rewound (h : heap) (a : nat) : Prop :=
  exists x, arenas h !! a = Some x /\ a_next x = 0.

(** The invariant of the pool: its current arena, the arenas of the
    recycler and the arenas waiting to be reclaimed are distinct arenas of
    the pool's size and limit, and those of the recycler are rewound. *)
Definition pool_inv (sz r : Z) (s : sys) : Prop :=
  let q := sys_pool s in
  let ids := current q :: pooled (pool q) ++ goroutines s in
  size q = sz /\ reasonable q = r /\
  NoDup ids /\
  Forall (shaped sz r (sys_heap s)) ids /\
  Forall (rewound (sys_heap s)) (pooled (pool q)).

(** What holds of the recycler and the goroutines at any time, also while
    getWriter swaps the current arena. *)
Definition recycler_inv (sz r : Z) (s : sys) : Prop :=
  let q := sys_pool s in
  let ids := pooled (pool q) ++ goroutines s in
  size q = sz /\ reasonable q = r /\
  NoDup ids /\
  Forall (shaped sz r (sys_heap s)) ids /\
  Forall (rewound (sys_heap s)) (pooled (pool q)).

(** Every slice of [h] is a slice of [h']. *)
Definition grows (h h' : heap) : Prop :=
  forall s, slice_ok h s -> slice_ok h' s.

(** The arena [a] of [h] is in [h'] with its block, its limit and its
    cursor, and with a counter that is not negative. *)
Definition keeps (h h' : heap) (a : nat) : Prop :=
  forall x, arenas h !! a = Some x ->
    exists x', arenas h' !! a = Some x' /\ a_block x' = a_block x /\
               a_reasonable x' = a_reasonable x /\ a_next x' = a_next x /\
               (0 <= a_wg x -> 0 <= a_wg x').

(** What Get hands out: an arena taken from the recycler, the heap being
    as it was, or a new arena, the recycler being as it was. *)
Definition taken (sz r : Z) (h : heap) (m : mempool.Pool nat)
    (v : nat) (m' : mempool.Pool nat) (h' : heap) : Prop :=
  (h' = h /\ pooled m ≡ₚ v :: pooled m') \/
  (pooled m' = pooled m /\ v = length (arenas h) /\
   grows h h' /\ (forall a, keeps h h' a) /\
   shaped sz r h' v /\ rewound h' v).

(** The recycler after Put has stored [v]: at the back of the buffer when
    there is room, in the sync.Pool otherwise. *)
Definition stored (v : nat) (m : mempool.Pool nat) : mempool.Pool nat :=
  match mempool.buffer m with
  | Some (c, k) =>
      if (length k <? c)%nat
      then mempool.mkPool (mempool.p m) (Some (c, k ++ [v]))
      else mempool.mkPool (v :: mempool.p m) (mempool.buffer m)
  | None => mempool.mkPool (v :: mempool.p m) (mempool.buffer m)
  end.

(** ** Scenarios for the further properties *)

(** What the holder of a Writer does with it: write some bytes, or reset
    it. *)
Inductive wop : Type :=
| WWrite (b : list byte)
| WReset.

(** A sequence of calls on one Writer: the result of each Write ([None]
    stands for a Reset, which returns nothing) and the Writer at the end. *)
Fixpoint writer_ops (ops : list wop) (w : Writer)
  : M heap (list (option (Z * option error)) * Writer) :=
  match ops with
  | [] => ret ([], w)
  | WWrite b :: rest =>
      let! '(n, e, w1) := Writer_Write w b in
      let! '(rs, w2) := writer_ops rest w1 in
      ret (Some (n, e) :: rs, w2)
  | WReset :: rest =>
      let! '(rs, w2) := writer_ops rest (Writer_Reset w) in
      ret (None :: rs, w2)
  end.

(** The bytes accepted without error since the last Reset, starting from
    [acc]. *)
Fixpoint accepted (acc : Z) (rs : list (option (Z * option error))) : Z :=
  match rs with
  | [] => acc
  | None :: rest => accepted 0 rest
  | Some (n, None) :: rest => accepted (acc + n) rest
  | Some (_, Some _) :: rest => accepted acc rest
  end.

(** One round of TestPool on a handle: the producer writes the content and
    tries to write it once more, then converts the Writer; the consumer
    looks at r.Bytes() and releases the Reader.  The results of the two
    writes and the bytes the consumer sees. *)
Definition test_round (content : list byte) (w : Writer)
  : M heap ((Z * option error) * (Z * option error) * list byte) :=
  let! '(written, err, w1) := Writer_Write w content in
  let! '(written2, err2, w2) := Writer_Write w1 content in
  let! '(r, _) := Writer_Reader w2 in
  let! bs := Reader_Bytes r in
  let! data := (fun h => Ret (slice_bytes h bs, h)) in
  run! Reader_Release r in
  ret ((written, err), (written2, err2), data).

(** A lease is used and given back, the arena is drained and reset, and the
    first lease of the next generation is read without having been written:
    the bytes read. *)
Definition recycle_and_read (a : nat) (n : Z) (b : list byte) (k fuel : nat)
  : M heap (option (list byte)) :=
  let! '(w, _) := arena_GetWriter a n in
  let! '(_, _, w1) := Writer_Write w b in
  run! Writer_Release w1 in
  run! arena_Wait a in
  run! arena_Reset a in
  let! '(w2, _) := arena_GetWriter a n in
  let! '(r, _) := Writer_Reader w2 in
  let! '(data, _) := read_to_EOF fuel k r [] in
  ret data.

(** The values a mempool.Pool holds: the queue of its buffer, then the
    values kept by its sync.Pool. *)
Definition mempool_contents {T} (pl : mempool.Pool T) : list T :=
  match mempool.buffer pl with
  | Some (_, q) => q
  | None => []
  end ++ mempool.p pl.

(** The queue of the buffer is within the capacity of the channel. *)
Definition buffer_bounded {T} (pl : mempool.Pool T) : Prop :=
  match mempool.buffer pl with
  | Some (c, q) => (length q <= c)%nat
  | None => True
  end.

(** The capacity of the buffer, if there is one. *)
Definition buffer_cap {T} (pl : mempool.Pool T) : option nat :=
  match mempool.buffer pl with
  | Some (c, _) => Some c
  | None => None
  end.

(** Put for each of [vs] in turn. *)
Fixpoint Put_all {S T} (Resetter : T -> option (M S unit)) (vs : list T)
    (pl : mempool.Pool T) : M S (mempool.Pool T) :=
  match vs with
  | [] => ret pl
  | v :: rest =>
      let! pl1 := mempool.Put Resetter v pl in
      Put_all Resetter rest pl1
  end.

(** One Get for each element of [picks], which says what the sync.Pool
    would hand back at that call: the values obtained, in order. *)
Fixpoint Get_all {S T} (n : M S T) (picks : list (option nat))
    (pl : mempool.Pool T) : M S (list T * mempool.Pool T) :=
  match picks with
  | [] => ret ([], pl)
  | pk :: rest =>
      let! '(v, pl1) := mempool.Get n pk pl in
      let! '(vs, pl2) := Get_all n rest pl1 in
      ret (v :: vs, pl2)
  end.

(** One pass through the body of the loop of allocateMemoryArena: get a
    Writer of [n] bytes from the pool, write the bytes [b] into it, release
    it; an error from GetWriter or from Write is a panic. *)
Definition arena_iteration (n : Z) (b : list byte) (pick : option nat)
  : M sys unit :=
  let! '(w, err) := Pool_GetWriter n pick in
  match err with
  | Some e => throw (PanicErr e)
  | None =>
      let! '(_, err', w1) := lift (Writer_Write w b) in
      match err' with
      | Some e => throw (PanicErr e)
      | None => run! lift (Writer_Release w1) in ret tt
      end
  end.

(** The loop of allocateMemoryArena for [k] passes, the [x]-th writing the
    bytes [b x], with the scheduler letting the reclamation goroutine
    started by a pass run right after the pass. *)
Fixpoint allocateMemoryArena (k : nat) (n : Z) (b : nat -> list byte)
    (picks : nat -> option nat) : M sys unit :=
  match k with
  | O => ret tt
  | S k' =>
      run! allocateMemoryArena k' n b picks in
      run! arena_iteration n (b k') (picks k') in
      run_goroutine 0
  end.

(** The pool between two passes of that loop: the invariant of the pool
    holds, no goroutine is pending, no lease is out on the current arena or
    on an arena of the recycler, the sync.Pool is empty, and either the pool
    has made one arena and the buffer is empty, or it has made two and the
    buffer holds the one that is not current. *)
Definition steady (sz r : Z) (A0 R0 : nat) (s : sys) : Prop :=
  let q := sys_pool s in
  let h := sys_heap s in
  pool_inv sz r s /\ goroutines s = [] /\ mempool.p (pool q) = [] /\
  Forall (fun a => exists x, arenas h !! a = Some x /\ a_wg x = 0)
         (current q :: pooled (pool q)) /\
  exists c, (1 <= c)%nat /\
    ((mempool.buffer (pool q) = Some (c, []) /\
      length (arenas h) = (A0 + 1)%nat /\ length (arrays h) = (R0 + 1)%nat) \/
     (exists o, mempool.buffer (pool q) = Some (c, [o]) /\
      length (arenas h) = (A0 + 2)%nat /\ length (arrays h) = (R0 + 2)%nat)).

(** * Properties *)

(** ** Integers, slices and copies *)

Lemma wrap_int_small (z : Z) : min_int <= z <= max_int -> wrap_int z = z.
Proof.
  unfold min_int, max_int, wrap_int. intros Hz.
  rewrite Z.mod_small by lia. lia.
Qed.

Lemma wrap_uint_small (z : Z) : 0 <= z < 2 ^ 64 -> wrap_uint z = z.
Proof. intros Hz. unfold wrap_uint. now rewrite Z.mod_small. Qed.

Lemma maxAlloc_lt_max_int : maxAlloc < max_int.
Proof. reflexivity. Qed.

Lemma int_bounds : min_int < 0 /\ 0 < maxAlloc /\ 2 * maxAlloc < max_int.
Proof. repeat split. Qed.

Lemma slice_ok_len h s : slice_ok h s -> 0 <= len s <= maxAlloc.
Proof. intros (l & _ & ? & ? & ?). unfold len. lia. Qed.

Lemma length_slice_bytes h s :
  slice_ok h s -> length (slice_bytes h s) = s_len s.
Proof.
  intros (l & Hl & Ho & Hc & _). unfold slice_bytes. rewrite Hl. simpl.
  rewrite length_take, length_drop. lia.
Qed.

Lemma reslice_tail {S} (s : slice) (i : Z) (st : S) :
  0 <= i <= len s -> (s_len s <= s_cap s)%nat ->
  reslice s i (len s) st =
    Ret (Slice (s_arr s) (s_off s + Z.to_nat i) (s_len s - Z.to_nat i)
               (s_cap s - Z.to_nat i), st).
Proof.
  unfold len, reslice. intros Hi Hc.
  replace (0 <=? i) with true by (symmetry; apply Z.leb_le; lia).
  replace (i <=? Z.of_nat (s_len s)) with true by (symmetry; apply Z.leb_le; lia).
  replace (Z.of_nat (s_len s) <=? Z.of_nat (s_cap s)) with true
    by (symmetry; apply Z.leb_le; lia).
  simpl. unfold ret. do 3 f_equal. lia.
Qed.

Lemma slice_bytes_tail h s (i : nat) :
  slice_bytes h (Slice (s_arr s) (s_off s + i) (s_len s - i) (s_cap s - i))
  = drop i (slice_bytes h s).
Proof.
  unfold slice_bytes. simpl.
  destruct (decide (i <= s_len s)%nat) as [Hi|Hi].
  - rewrite <- drop_drop, take_drop_commute. do 2 f_equal. lia.
  - replace (s_len s - i)%nat with 0%nat by lia. rewrite take_0.
    symmetry. apply drop_ge. rewrite length_take. lia.
Qed.

Lemma slice_bytes_overwrite (l : list byte) (o n i : nat) (src : list byte) :
  (i + length src <= n)%nat -> (o + n <= length l)%nat ->
  take n (drop o (overwrite (o + i) src l))
  = take i (take n (drop o l)) ++ src ++ drop (i + length src) (take n (drop o l)).
Proof.
  intros Hi Hn. unfold overwrite.
  rewrite drop_app_le by (rewrite length_take; lia).
  rewrite <- (take_drop_commute l i o) by idtac.
  rewrite take_app_ge by (rewrite length_take, length_drop; lia).
  rewrite length_take, length_drop.
  replace (i `min` (length l - o))%nat with i by lia.
  rewrite take_app_ge by lia.
  rewrite take_take. replace (i `min` n)%nat with i by lia.
  f_equal. f_equal.
  replace n with ((i + length src) + (n - i - length src))%nat at 2 by lia.
  rewrite <- take_drop_commute, drop_drop. do 2 f_equal. lia.
Qed.

Lemma slice_bytes_write_heap h s i src :
  slice_ok h s -> (i + length src <= s_len s)%nat ->
  slice_bytes (write_heap h s i src) s
  = take i (slice_bytes h s) ++ src ++ drop (i + length src) (slice_bytes h s).
Proof.
  intros (l & Hl & Ho & Hc & _) Hi. unfold slice_bytes, write_heap. simpl.
  rewrite list_lookup_alter_eq, Hl. simpl.
  apply slice_bytes_overwrite; lia.
Qed.

Lemma slice_ok_write_heap h s s' i src :
  slice_ok h s -> (i + length src <= s_len s)%nat ->
  slice_ok h s' -> slice_ok (write_heap h s i src) s'.
Proof.
  intros (l & Hl & Ho & Hc & Hm) Hi (l' & Hl' & Ho' & Hc' & Hm').
  unfold slice_ok, write_heap. simpl.
  destruct (decide (s_arr s = s_arr s')) as [E|E].
  - rewrite <- E in *. rewrite list_lookup_alter_eq, Hl. simpl.
    eexists. split; [reflexivity|].
    assert (l' = l) by congruence. subst l'.
    unfold overwrite. rewrite !length_app, length_take, length_drop.
    repeat split; lia.
  - rewrite list_lookup_alter_ne by done. eauto 6.
Qed.

(** A write that fits is copied whole, and the cursor moves past it. *)
Lemma Writer_Write_fits h w b :
  slice_ok h (w_block w) ->
  0 <= w_at w < len (w_block w) ->
  Z.of_nat (length b) <= len (w_block w) - w_at w ->
  Writer_Write w b h =
    Ret ((Z.of_nat (length b), None,
          Writer_set_at w (w_at w + Z.of_nat (length b))),
         write_heap h (w_block w) (Z.to_nat (w_at w)) b).
Proof.
  intros Hok Hat Hb. pose proof (slice_ok_len _ _ Hok) as Hlen.
  pose proof maxAlloc_lt_max_int as Hmax.
  destruct Hok as (l & Hl & Ho & Hc & Hm).
  unfold Writer_Write.
  replace (len (w_block w) <=? w_at w) with false by (symmetry; apply Z.leb_gt; lia).
  rewrite wrap_int_small by (unfold min_int; lia).
  replace (len (w_block w) - w_at w <? Z.of_nat (length b)) with false
    by (symmetry; apply Z.ltb_ge; lia).
  unfold bind. rewrite reslice_tail by lia.
  unfold copy, ret, write_heap. simpl.
  replace (Nat.min (s_len (w_block w) - Z.to_nat (w_at w)) (length b))
    with (length b) by (unfold len in *; lia).
  rewrite firstn_all.
  rewrite wrap_int_small by (unfold min_int; lia). reflexivity.
Qed.

(** A write that does not fit copies the prefix that fits and reports it
    with io.ErrShortWrite; the Writer itself is left as it was. *)
Lemma Writer_Write_short h w b :
  slice_ok h (w_block w) ->
  0 <= w_at w < len (w_block w) ->
  len (w_block w) - w_at w < Z.of_nat (length b) ->
  Writer_Write w b h =
    Ret ((len (w_block w) - w_at w, Some ErrShortWrite, w),
         write_heap h (w_block w) (Z.to_nat (w_at w))
                    (take (Z.to_nat (len (w_block w) - w_at w)) b)).
Proof.
  intros Hok Hat Hb. pose proof (slice_ok_len _ _ Hok) as Hlen.
  pose proof maxAlloc_lt_max_int as Hmax.
  destruct Hok as (l & Hl & Ho & Hc & Hm).
  unfold Writer_Write.
  replace (len (w_block w) <=? w_at w) with false by (symmetry; apply Z.leb_gt; lia).
  rewrite wrap_int_small by (unfold min_int; lia).
  replace (len (w_block w) - w_at w <? Z.of_nat (length b)) with true
    by (symmetry; apply Z.ltb_lt; lia).
  unfold bind. rewrite reslice_tail by lia.
  unfold copy, ret, write_heap. simpl.
  rewrite take_take.
  replace (Nat.min (s_len (w_block w) - Z.to_nat (w_at w))
                   (length (take (Z.to_nat (len (w_block w) - w_at w)) b)))
    with (Z.to_nat (len (w_block w) - w_at w))
    by (rewrite length_take; unfold len in *; lia).
  rewrite Nat.min_id. reflexivity.
Qed.

Lemma set_arenas_id h : set_arenas h (arenas h) = h.
Proof. now destruct h. Qed.

Lemma arena_eta a : Arena (a_wg a) (a_block a) (a_reasonable a) (a_next a) = a.
Proof. now destruct a. Qed.

(** Converting an unreleased arena-backed Writer hands its lease to the
    Reader: the counter goes up by one and down by one. *)
Lemma Writer_Reader_leased h w i a :
  w_wg w = Some i -> w_once w = false ->
  arenas h !! i = Some a -> 0 <= a_wg a ->
  Writer_Reader w h =
    Ret ((mkReader (w_block w) 0 false (Some i), Writer_set_once w), h).
Proof.
  intros Hwg Honce Ha Hc.
  unfold Writer_Reader, Writer_Release, WaitGroup_Done, bind, WaitGroup_Add, ret.
  rewrite Hwg, Ha, Honce.
  replace (a_wg a + 1 <? 0) with false by (symmetry; apply Z.ltb_ge; lia).
  simpl. rewrite list_lookup_insert_eq by (eapply lookup_lt_Some; eauto).
  simpl. replace (a_wg a + 1 + -1 <? 0) with false by (symmetry; apply Z.ltb_ge; lia).
  simpl. rewrite Hwg. do 2 f_equal.
  rewrite list_insert_insert_eq.
  replace (a_wg a + 1 + -1) with (a_wg a) by lia.
  rewrite arena_eta. rewrite (list_insert_id _ _ _ Ha). now destruct h.
Qed.

(** Reading with a buffer of at least one byte reaches end-of-data within
    as many calls as there are unread bytes (one more when there are none),
    and returns the unread part of the block. *)
Lemma read_to_EOF_block h k fuel r acc :
  slice_ok h (r_block r) -> (0 < k)%nat ->
  0 <= r_at r <= len (r_block r) ->
  (s_len (r_block r) - Z.to_nat (r_at r) < fuel)%nat ->
  read_to_EOF fuel k r acc h =
    Ret ((Some (acc ++ drop (Z.to_nat (r_at r)) (slice_bytes h (r_block r))),
          Reader_set_at r (len (r_block r))), h).
Proof.
  intros Hok Hk. pose proof (slice_ok_len _ _ Hok) as Hlen.
  pose proof (length_slice_bytes _ _ Hok) as Hbytes.
  pose proof maxAlloc_lt_max_int as Hmax.
  assert (Hcap : (s_len (r_block r) <= s_cap (r_block r))%nat)
    by (destruct Hok as (? & ? & ? & ? & ?); lia).
  revert r acc Hok Hlen Hbytes Hcap.
  induction fuel as [|fuel IH]; intros r acc Hok Hlen Hbytes Hcap Hat Hfuel; [lia|].
  simpl. unfold bind at 1. unfold Reader_Read.
  destruct (len (r_block r) <=? r_at r) eqn:E.
  - apply Z.leb_le in E. unfold ret. simpl. rewrite app_nil_r.
    rewrite drop_ge by (rewrite Hbytes; unfold len in *; lia). rewrite app_nil_r.
    do 3 f_equal. destruct r; unfold Reader_set_at; simpl in *; f_equal; lia.
  - apply Z.leb_gt in E. unfold bind. rewrite reslice_tail by lia.
    rewrite slice_bytes_tail. unfold copy_out.
    rewrite length_replicate, length_drop, Hbytes.
    set (n := Nat.min k (s_len (r_block r) - Z.to_nat (r_at r))).
    assert (Hn : (0 < n <= s_len (r_block r) - Z.to_nat (r_at r))%nat)
      by (unfold n, len in *; lia).
    rewrite wrap_int_small by (unfold min_int, len in *; lia).
    simpl.
    destruct (r_at r + Z.of_nat n =? len (r_block r)) eqn:E2; simpl;
      rewrite Nat2Z.id;
      rewrite take_app_le by (rewrite length_take, length_drop, Hbytes; lia);
      rewrite take_idemp.
    + apply Z.eqb_eq in E2. unfold ret.
      rewrite take_ge by (rewrite length_drop, Hbytes; unfold len in *; lia).
      do 3 f_equal. unfold Reader_set_at. simpl. f_equal. lia.
    + apply Z.eqb_neq in E2.
      rewrite IH; simpl; try assumption; try (unfold len in *; lia).
      rewrite <- app_assoc.
      replace (Z.to_nat (r_at r + Z.of_nat n)) with (Z.to_nat (r_at r) + n)%nat by lia.
      rewrite <- drop_drop, take_drop. reflexivity.
Qed.

(** ** The arena: what a request does *)

Lemma list_alter_insert_eq {A} (f : A -> A) (l : list A) i y :
  alter f i (<[i:=y]> l) = <[i:=f y]> l.
Proof. rewrite !list_insert_alter, list_alter_alter_eq. reflexivity. Qed.

Lemma GetWriter_invalid a sz h :
  sz < 1 -> arena_GetWriter a sz h = Ret ((Writer_zero, Some errSize), h).
Proof.
  intros Hsz. unfold arena_GetWriter.
  replace (sz <? 1) with true by (symmetry; apply Z.ltb_lt; lia). reflexivity.
Qed.

Lemma GetWriter_oversize a x sz h :
  arenas h !! a = Some x -> 1 <= sz -> a_reasonable x < sz -> sz <= maxAlloc ->
  arena_GetWriter a sz h =
    Ret ((mkWriter (Slice (length (arrays h)) 0 (Z.to_nat sz) (Z.to_nat sz))
                   0 false None, None),
         set_arrays h (arrays h ++ [replicate (Z.to_nat sz) x00])).
Proof.
  intros Ha H1 Hr Hm. unfold arena_GetWriter, bind, get_arena, make_bytes.
  replace (sz <? 1) with false by (symmetry; apply Z.ltb_ge; lia).
  rewrite Ha.
  replace (a_reasonable x <? sz) with true by (symmetry; apply Z.ltb_lt; lia).
  replace (sz <? 0) with false by (symmetry; apply Z.ltb_ge; lia).
  replace (maxAlloc <? sz) with false by (symmetry; apply Z.ltb_ge; lia).
  reflexivity.
Qed.

Lemma GetWriter_full a x sz h :
  arenas h !! a = Some x -> arena_wf h x ->
  1 <= sz <= a_reasonable x -> len (a_block x) < a_next x + sz ->
  arena_GetWriter a sz h = Ret ((Writer_zero, Some arenaFullErr), h).
Proof.
  intros Ha (Hok & Hn & Hr0 & Hr & Hc) Hsz Hfull.
  pose proof (slice_ok_len _ _ Hok) as Hlen. pose proof int_bounds.
  unfold arena_GetWriter, bind, get_arena.
  replace (sz <? 1) with false by (symmetry; apply Z.ltb_ge; lia).
  rewrite Ha.
  replace (a_reasonable x <? sz) with false by (symmetry; apply Z.ltb_ge; lia).
  rewrite wrap_int_small by lia.
  replace (len (a_block x) <? a_next x + sz) with true
    by (symmetry; apply Z.ltb_lt; lia).
  reflexivity.
Qed.

Lemma GetWriter_granted a x sz h :
  arenas h !! a = Some x -> arena_wf h x ->
  1 <= sz <= a_reasonable x -> a_next x + sz <= len (a_block x) ->
  arena_GetWriter a sz h =
    Ret ((lease a x sz, None), set_arenas h (<[a := granted x sz]> (arenas h))).
Proof.
  intros Ha (Hok & Hn & Hr0 & Hr & Hc) Hsz Hfit.
  pose proof (slice_ok_len _ _ Hok) as Hlen. pose proof int_bounds.
  destruct Hok as (l & Hl & Ho & Hcap & Hm).
  unfold arena_GetWriter, bind, get_arena.
  replace (sz <? 1) with false by (symmetry; apply Z.ltb_ge; lia).
  rewrite Ha.
  replace (a_reasonable x <? sz) with false by (symmetry; apply Z.ltb_ge; lia).
  rewrite wrap_int_small by lia.
  replace (len (a_block x) <? a_next x + sz) with false
    by (symmetry; apply Z.ltb_ge; lia).
  unfold WaitGroup_Add. rewrite Ha.
  replace (a_wg x + 1 <? 0) with false by (symmetry; apply Z.ltb_ge; lia).
  unfold reslice.
  replace (0 <=? a_next x) with true by (symmetry; apply Z.leb_le; lia).
  replace (a_next x <=? a_next x + sz) with true by (symmetry; apply Z.leb_le; lia).
  replace (a_next x + sz <=? Z.of_nat (s_cap (a_block x))) with true
    by (symmetry; apply Z.leb_le; unfold len in *; lia).
  simpl. unfold ret, set_next, lease, granted, set_arenas. simpl.
  rewrite list_alter_insert_eq. simpl.
  replace (a_next x + sz - a_next x) with sz by lia. reflexivity.
Qed.

(** ** The lease handles: writing, converting, reading *)

(** C1 (the code departs from the claim): on a handle of capacity 4, writing
    5 bytes copies the 4 that fit and returns 4 with io.ErrShortWrite, but
    the cursor stays at 0 instead of moving to the capacity, and Len() still
    reports 4 bytes as unwritten; a following write of one byte is therefore
    accepted (1, nil) and overwrites the first byte of the prefix committed
    before. *)
Theorem C1_short_write_keeps_cursor :
  exists h,
    short_write_then_write [x01; x02; x03; x04; x05] [x09] (Heap [] []) =
      Ret ((4, Some ErrShortWrite, 0, 4, (1, None, 1, 3),
            [x09; x02; x03; x04]), h).
Proof. eexists. vm_compute. reflexivity. Qed.

(** C2, as stated, fails: two bytes written into a fresh handle of capacity
    4 are read back as four bytes, the two written and the two the block
    held behind them. *)
Lemma C2_round_trip_counterexample :
  let s := [x01; x02] in
  exists h,
    (run! newArena 40 4 in
     let! '(w, _) := arena_GetWriter 0 4 in
     round_trip w s 1 10) (Heap [] []) =
      Ret ((2, None, Some [x01; x02; x00; x00]), h) /\
    [x01; x02; x00; x00] <> s.
Proof. eexists. split; [vm_compute; reflexivity | discriminate]. Qed.

(** C2 (amended): for a fresh arena-backed handle of capacity N >= 1 and a
    byte sequence [s] of at most N bytes, writing [s], converting to a Reader
    and reading until end-of-data (any buffer of at least one byte, more
    than N calls allowed) accepts all of [s] and yields the N bytes of the
    block: [s] followed by the bytes the block already held behind it.  It
    yields exactly [s] when [s] fills the handle. *)
Theorem C2_round_trip_reads_whole_block h w s k fuel i a :
  slice_ok h (w_block w) ->
  w_at w = 0 -> w_once w = false -> w_wg w = Some i ->
  arenas h !! i = Some a -> 0 <= a_wg a ->
  (0 < s_len (w_block w))%nat ->
  (length s <= s_len (w_block w))%nat ->
  (0 < k)%nat -> (s_len (w_block w) < fuel)%nat ->
  round_trip w s k fuel h =
    Ret ((Z.of_nat (length s), None,
          Some (s ++ drop (length s) (slice_bytes h (w_block w)))),
         write_heap h (w_block w) 0 s) /\
  (length s = s_len (w_block w) ->
   s ++ drop (length s) (slice_bytes h (w_block w)) = s).
Proof.
  intros Hok Hat Honce Hwg Ha Hc HN Hs Hk Hfuel. split.
  - unfold round_trip, bind.
    rewrite Writer_Write_fits by (rewrite ?Hat; unfold len; auto; lia).
    rewrite Hat. simpl Z.to_nat.
    set (h1 := write_heap h (w_block w) 0 s).
    assert (Hok1 : slice_ok h1 (w_block w))
      by (apply slice_ok_write_heap; auto).
    rewrite (Writer_Reader_leased h1 _ i a); auto.
    rewrite read_to_EOF_block; simpl; auto; try (unfold len; lia).
    unfold ret. do 4 f_equal.
    unfold h1. rewrite slice_bytes_write_heap by (auto; simpl; lia).
    simpl. rewrite drop_0. reflexivity.
  - intros E. rewrite drop_ge by (rewrite length_slice_bytes by auto; lia).
    apply app_nil_r.
Qed.

Lemma C2_round_trip_reads_whole_block_witness :
  exists h',
    round_trip (mkWriter (Slice 0 1 3 3) 0 false (Some 0%nat)) [x07; x08] 2 4
               (Heap [[x01; x02; x03; x04]]
                     [Arena 1 (Slice 0 0 4 4) 0 4]) =
    Ret ((2, None, Some [x07; x08; x04]), h').
Proof.
  eexists.
  refine (proj1 (C2_round_trip_reads_whole_block
    (Heap [[x01; x02; x03; x04]] [Arena 1 (Slice 0 0 4 4) 0 4])
    (mkWriter (Slice 0 1 3 3) 0 false (Some 0%nat)) [x07; x08] 2 4 0
    (Arena 1 (Slice 0 0 4 4) 0 4) _ _ _ _ _ _ _ _ _ _)); simpl;
    try reflexivity; try lia.
  exists [x01; x02; x03; x04]. simpl. repeat split; try lia.
  vm_compute. discriminate.
Defined.

(** ** The arena: oversized requests, the full signal, reset *)

(** C6: a request above the reasonable limit is served whatever the cursor
    is (as long as the runtime grants the allocation): the handle is backed
    by a new array of exactly [sz] bytes that no slice of the heap referred
    to, every arena (cursor and counter included) and every older array is
    as before, the handle carries no wait group, and releasing it changes
    nothing in any heap. *)
Theorem C6_oversize_bypass h a x sz :
  arenas h !! a = Some x ->
  0 <= a_reasonable x -> a_reasonable x < sz -> sz <= maxAlloc ->
  exists w h',
    arena_GetWriter a sz h = Ret ((w, None), h') /\
    w_block w = Slice (length (arrays h)) 0 (Z.to_nat sz) (Z.to_nat sz) /\
    len (w_block w) = sz /\ w_at w = 0 /\
    arrays h !! length (arrays h) = None /\
    arrays h' = arrays h ++ [replicate (Z.to_nat sz) x00] /\
    arenas h' = arenas h /\
    w_wg w = None /\
    forall h'', Writer_Release w h'' = Ret (w, h'').
Proof.
  intros Ha Hr0 Hr Hm. do 2 eexists.
  split; [apply (GetWriter_oversize a x); auto; lia|].
  simpl. repeat split; auto.
  - unfold len. simpl. lia.
  - apply lookup_ge_None. lia.
Qed.

Lemma C6_oversize_bypass_witness :
  exists w h',
    arena_GetWriter 0 5 (Heap [replicate 40 x00] [Arena 3 (Slice 0 0 40 40) 4 40])
      = Ret ((w, None), h') /\
    w_block w = Slice 1 0 5 5.
Proof.
  destruct (C6_oversize_bypass
              (Heap [replicate 40 x00] [Arena 3 (Slice 0 0 40 40) 4 40])
              0 (Arena 3 (Slice 0 0 40 40) 4 40) 5)
    as (w & h' & H1 & H2 & _); simpl; try reflexivity; try lia.
  - vm_compute. discriminate.
  - exists w, h'. split; [exact H1 | exact H2].
Defined.

(** C7: a request of a size between 1 and the reasonable limit fails with
    the arena-full signal exactly when cursor + size exceeds the length of
    the block, and then the heap (cursor and counter included) is as it was
    before the call. *)
Theorem C7_arena_full_iff h a x sz :
  arenas h !! a = Some x -> arena_wf h x ->
  0 < sz <= a_reasonable x ->
  ((exists w h', arena_GetWriter a sz h = Ret ((w, Some arenaFullErr), h'))
     <-> len (a_block x) < a_next x + sz) /\
  (forall w h', arena_GetWriter a sz h = Ret ((w, Some arenaFullErr), h') ->
                h' = h).
Proof.
  intros Ha Hwf Hsz.
  destruct (Z_lt_le_dec (len (a_block x)) (a_next x + sz)) as [Hfull|Hfit].
  - rewrite (GetWriter_full a x) by (auto; lia). split.
    + split; [auto | intros _; eauto].
    + intros w h' E. congruence.
  - rewrite (GetWriter_granted a x) by (auto; lia). split.
    + split; [intros (w & h' & E); discriminate | lia].
    + intros w h' E. discriminate.
Qed.

Lemma C7_arena_full_iff_witness :
  arena_GetWriter 0 4 (Heap [replicate 40 x00] [Arena 3 (Slice 0 0 40 40) 4 38])
  = Ret ((Writer_zero, Some arenaFullErr),
         Heap [replicate 40 x00] [Arena 3 (Slice 0 0 40 40) 4 38]).
Proof.
  pose (h := Heap [replicate 40 x00] [Arena 3 (Slice 0 0 40 40) 4 38]).
  assert (Hwf : arena_wf h (Arena 3 (Slice 0 0 40 40) 4 38)).
  { unfold arena_wf, slice_ok, len. simpl. repeat split; try lia.
    exists (replicate 40 x00). simpl. repeat split; try lia.
    vm_compute. discriminate. }
  destruct (C7_arena_full_iff h 0 (Arena 3 (Slice 0 0 40 40) 4 38) 4
              eq_refl Hwf ltac:(simpl; lia)) as [[_ Hfull] Hsame].
  destruct Hfull as (w & h' & E); [unfold len; simpl; lia|].
  fold h. rewrite E. vm_compute in E. injection E as <- <-. reflexivity.
Defined.

(** C8: Reset sets the cursor of the arena to 0 and changes nothing else:
    every array of the heap, so every byte of the block, is as before (not
    zeroed), and so are the counter, the block and the limit of the arena
    and all other arenas. *)
Theorem C8_reset_only_cursor h a x :
  arenas h !! a = Some x ->
  exists h',
    arena_Reset a h = Ret (tt, h') /\
    arenas h' !! a = Some (Arena (a_wg x) (a_block x) (a_reasonable x) 0) /\
    (forall b, b <> a -> arenas h' !! b = arenas h !! b) /\
    arrays h' = arrays h /\
    slice_bytes h' (a_block x) = slice_bytes h (a_block x).
Proof.
  intros Ha. eexists. split.
  - unfold arena_Reset, bind, get_arena, set_next. rewrite Ha. reflexivity.
  - simpl. rewrite list_lookup_alter_eq, Ha. repeat split.
    intros b Hb. now rewrite list_lookup_alter_ne.
Qed.

Lemma C8_reset_only_cursor_witness :
  exists h',
    arena_Reset 0 (Heap [[x01; x02; x03; x04]] [Arena 0 (Slice 0 0 4 4) 0 3])
      = Ret (tt, h') /\
    slice_bytes h' (Slice 0 0 4 4) = [x01; x02; x03; x04].
Proof.
  destruct (C8_reset_only_cursor
              (Heap [[x01; x02; x03; x04]] [Arena 0 (Slice 0 0 4 4) 0 3])
              0 (Arena 0 (Slice 0 0 4 4) 0 3) eq_refl)
    as (h' & H1 & _ & _ & _ & H2).
  exists h'. split; [exact H1 | exact H2].
Defined.

(** C10: the handle of an oversized request has a nil wait group, so
    converting it to a Reader panics on the nil pointer at the Add for the
    new Reader, while releasing it returns without any effect. *)
Theorem C10_oversize_reader_panics h a x sz :
  arenas h !! a = Some x ->
  1 <= sz -> a_reasonable x < sz -> sz <= maxAlloc ->
  exists w h',
    arena_GetWriter a sz h = Ret ((w, None), h') /\
    w_wg w = None /\
    Writer_Reader w h' = Panic NilDeref /\
    Writer_Release w h' = Ret (w, h').
Proof.
  intros Ha H1 Hr Hm. do 2 eexists.
  split; [apply (GetWriter_oversize a x); auto|].
  repeat split.
Qed.

Lemma C10_oversize_reader_panics_witness :
  exists w h',
    arena_GetWriter 0 5 (Heap [replicate 40 x00] [Arena 0 (Slice 0 0 40 40) 4 0])
      = Ret ((w, None), h') /\
    Writer_Reader w h' = Panic NilDeref.
Proof.
  destruct (C10_oversize_reader_panics
              (Heap [replicate 40 x00] [Arena 0 (Slice 0 0 40 40) 4 0])
              0 (Arena 0 (Slice 0 0 40 40) 4 0) 5)
    as (w & h' & H1 & _ & H2 & _); simpl; try reflexivity; try lia.
  - vm_compute. discriminate.
  - exists w, h'. split; [exact H1 | exact H2].
Defined.

(** ** Disjointness of the leases of one arena generation *)

Lemma slice_ok_set_arenas h l s : slice_ok (set_arenas h l) s <-> slice_ok h s.
Proof. reflexivity. Qed.

Lemma arena_wf_granted h l x sz :
  arena_wf h x -> 0 <= sz -> a_next x + sz <= len (a_block x) ->
  arena_wf (set_arenas h l) (granted x sz).
Proof.
  intros (Hok & Hn & Hr0 & Hr & Hc) Hsz Hfit.
  unfold arena_wf, granted. simpl. rewrite slice_ok_set_arenas.
  repeat split; auto; lia.
Qed.

(** The leases granted by a sequence of requests are laid out one after the
    other from the cursor on, inside the block. *)
Lemma requests_laid_out a sizes :
  forall h x,
    arenas h !! a = Some x -> arena_wf h x ->
    Forall (fun sz => 0 < sz <= a_reasonable x) sizes ->
    exists rs h',
      requests a sizes h = Ret (rs, h') /\
      (forall i w, rs !! i = Some (w, None) ->
         within (a_block x) (w_block w) /\
         (s_off (a_block x) + Z.to_nat (a_next x) <= s_off (w_block w))%nat /\
         sizes !! i = Some (len (w_block w))) /\
      (forall i j wi wj, (i < j)%nat ->
         rs !! i = Some (wi, None) -> rs !! j = Some (wj, None) ->
         (s_off (w_block wi) + s_len (w_block wi) <= s_off (w_block wj))%nat).
Proof.
  induction sizes as [|sz sizes IH]; intros h x Ha Hwf Hall.
  - exists [], h. repeat split; intros; simplify_eq.
  - apply Forall_cons in Hall as [Hsz Hall].
    pose proof Hwf as (Hok & Hn & Hr0 & Hr & Hc).
    pose proof (slice_ok_len _ _ Hok) as Hlen.
    destruct (Z_lt_le_dec (len (a_block x)) (a_next x + sz)) as [Hfull|Hfit].
    + destruct (IH h x Ha Hwf Hall) as (rs & h' & E & Hin & Hord).
      exists ((Writer_zero, Some arenaFullErr) :: rs), h'. split; [|split].
      * simpl. unfold bind. rewrite (GetWriter_full a x) by (auto; lia).
        rewrite E. reflexivity.
      * intros [|i] w Hi; simpl in Hi; [discriminate|]. apply (Hin i w Hi).
      * intros [|i] [|j] wi wj Hij Hi Hj; simpl in Hi, Hj; try discriminate; try lia.
        apply (Hord i j wi wj); auto; lia.
    + set (h1 := set_arenas h (<[a := granted x sz]> (arenas h))).
      assert (Ha1 : arenas h1 !! a = Some (granted x sz)).
      { simpl. apply list_lookup_insert_eq. eapply lookup_lt_Some; eauto. }
      assert (Hwf1 : arena_wf h1 (granted x sz))
        by (apply arena_wf_granted; auto; lia).
      destruct (IH h1 (granted x sz) Ha1 Hwf1 Hall) as (rs & h' & E & Hin & Hord).
      exists ((lease a x sz, None) :: rs), h'. split; [|split].
      * simpl. unfold bind. rewrite (GetWriter_granted a x) by (auto; lia).
        fold h1. rewrite E. reflexivity.
      * intros [|i] w Hi; simpl in Hi.
        -- injection Hi as <-. unfold within, lease, len in *. simpl.
           repeat split; try lia. f_equal. lia.
        -- destruct (Hin i w Hi) as ((Harr & Hlo & Hhi) & Hfrom & Hsize).
           simpl in *. unfold within. repeat split; auto; lia.
      * intros [|i] [|j] wi wj Hij Hi Hj; simpl in Hi, Hj; try lia.
        -- injection Hi as <-. destruct (Hin j wj Hj) as (_ & Hfrom & _).
           simpl in *. lia.
        -- apply (Hord i j wi wj); auto; lia.
Qed.

(** C4: for requests of sizes between 1 and the reasonable limit against
    one arena with no reset in between, the whole sequence runs, every lease
    granted has the size asked for and lies within the block of the arena,
    and the leases granted are pairwise disjoint. *)
Theorem C4_leases_disjoint h a x sizes :
  arenas h !! a = Some x -> arena_wf h x ->
  Forall (fun sz => 0 < sz <= a_reasonable x) sizes ->
  exists rs h',
    requests a sizes h = Ret (rs, h') /\
    (forall i w, rs !! i = Some (w, None) ->
       within (a_block x) (w_block w) /\ sizes !! i = Some (len (w_block w))) /\
    (forall i j wi wj, i <> j ->
       rs !! i = Some (wi, None) -> rs !! j = Some (wj, None) ->
       disjoint (w_block wi) (w_block wj)).
Proof.
  intros Ha Hwf Hall.
  destruct (requests_laid_out a sizes h x Ha Hwf Hall) as (rs & h' & E & Hin & Hord).
  exists rs, h'. split; [exact E|]. split.
  - intros i w Hi. destruct (Hin i w Hi) as (? & _ & ?). auto.
  - intros i j wi wj Hij Hi Hj. unfold disjoint.
    destruct (Nat.lt_total i j) as [Hlt|[Heq|Hgt]]; [|contradiction|].
    + right; left. eapply Hord; eauto.
    + right; right. eapply Hord; eauto.
Qed.

Lemma C4_leases_disjoint_witness :
  exists rs h',
    requests 0 [4; 3; 4; 2]
             (Heap [replicate 40 x00] [Arena 0 (Slice 0 0 40 40) 4 31])
      = Ret (rs, h') /\
    forall i j wi wj, i <> j ->
      rs !! i = Some (wi, None) -> rs !! j = Some (wj, None) ->
      disjoint (w_block wi) (w_block wj).
Proof.
  destruct (C4_leases_disjoint
              (Heap [replicate 40 x00] [Arena 0 (Slice 0 0 40 40) 4 31])
              0 (Arena 0 (Slice 0 0 40 40) 4 31) [4; 3; 4; 2])
    as (rs & h' & E & _ & Hdis).
  - reflexivity.
  - unfold arena_wf, slice_ok, len. simpl. repeat split; try lia.
    exists (replicate 40 x00). simpl. repeat split; try lia.
    vm_compute. discriminate.
  - repeat constructor; simpl; lia.
  - exists rs, h'. split; [exact E | exact Hdis].
Defined.

(** ** Releasing handles *)

Lemma outstanding_nonneg hs : 0 <= outstanding hs.
Proof. induction hs as [|x hs IH]; simpl; [lia | destruct (h_once x); lia]. Qed.

Lemma outstanding_app hs1 hs2 :
  outstanding (hs1 ++ hs2) = outstanding hs1 + outstanding hs2.
Proof. induction hs1 as [|x hs1 IH]; simpl; lia. Qed.

Lemma outstanding_insert hs i x y :
  hs !! i = Some x ->
  outstanding (<[i := y]> hs)
  = outstanding hs - (if h_once x then 0 else 1) + (if h_once y then 0 else 1).
Proof.
  revert i. induction hs as [|z hs IH]; intros [|i] Hi; simpl in *; try discriminate.
  - injection Hi as ->. lia.
  - rewrite (IH i Hi). lia.
Qed.

Lemma outstanding_released hs :
  Forall (fun x => h_once x = true) hs -> outstanding hs = 0.
Proof. induction 1 as [|x hs Hx _ IH]; simpl; [|rewrite Hx]; lia. Qed.

(** What one Release does to a handle of the arena [a]. *)
Lemma handle_Release_step h a x hd :
  arenas h !! a = Some x -> h_wg hd = Some a ->
  (h_once hd = false -> 1 <= a_wg x) ->
  exists hd' h' x',
    handle_Release hd h = Ret (hd', h') /\
    arenas h' !! a = Some x' /\ h_wg hd' = Some a /\ h_once hd' = true /\
    a_wg x' = a_wg x - (if h_once hd then 0 else 1).
Proof.
  intros Ha Hwg Hc.
  destruct hd as [w|r]; simpl in *;
    unfold Writer_Release, Reader_Release, WaitGroup_Done, WaitGroup_Add, bind, ret;
    rewrite Hwg.
  - destruct (w_once w) eqn:E.
    + exists (HW w), h, x. simpl. repeat split; auto. lia.
    + rewrite Ha.
      replace (a_wg x + -1 <? 0) with false by (symmetry; apply Z.ltb_ge; lia).
      do 3 eexists. split; [reflexivity|]. simpl.
      rewrite list_lookup_insert_eq by (eapply lookup_lt_Some; eauto).
      repeat split; auto.
  - destruct (r_once r) eqn:E.
    + exists (HR r), h, x. simpl. repeat split; auto. lia.
    + rewrite Ha.
      replace (a_wg x + -1 <? 0) with false by (symmetry; apply Z.ltb_ge; lia).
      do 3 eexists. split; [reflexivity|]. simpl.
      rewrite list_lookup_insert_eq by (eapply lookup_lt_Some; eauto).
      repeat split; auto.
Qed.

(** What Reader() does to a Writer of the arena [a], released or not. *)
Lemma Writer_Reader_step h a x w :
  arenas h !! a = Some x -> w_wg w = Some a -> 0 <= a_wg x ->
  exists r w' h' x',
    Writer_Reader w h = Ret ((r, w'), h') /\
    arenas h' !! a = Some x' /\
    w_wg w' = Some a /\ w_once w' = true /\ r_wg r = Some a /\ r_once r = false /\
    a_wg x' = a_wg x + (if w_once w then 1 else 0).
Proof.
  intros Ha Hwg Hc.
  unfold Writer_Reader, Writer_Release, WaitGroup_Done, bind, WaitGroup_Add, ret.
  rewrite Hwg, Ha.
  replace (a_wg x + 1 <? 0) with false by (symmetry; apply Z.ltb_ge; lia).
  destruct (w_once w) eqn:E.
  - do 4 eexists. split; [reflexivity|]. simpl.
    rewrite list_lookup_insert_eq by (eapply lookup_lt_Some; eauto).
    repeat split; auto.
  - simpl. rewrite list_lookup_insert_eq by (eapply lookup_lt_Some; eauto).
    simpl. replace (a_wg x + 1 + -1 <? 0) with false by (symmetry; apply Z.ltb_ge; lia).
    do 4 eexists. split; [reflexivity|]. simpl.
    rewrite list_lookup_insert_eq
      by (rewrite length_insert; eapply lookup_lt_Some; eauto).
    repeat split; auto. simpl. lia.
Qed.

Lemma outstanding_lookup hs i hd :
  hs !! i = Some hd -> h_once hd = false -> 1 <= outstanding hs.
Proof.
  revert i. induction hs as [|z hs IH]; intros [|i] Hi Ho; simpl in *; try discriminate.
  - injection Hi as ->. rewrite Ho. pose proof (outstanding_nonneg hs). lia.
  - pose proof (IH i Hi Ho). destruct (h_once z); lia.
Qed.

Lemma extends_refl hs : extends hs hs.
Proof. split; [lia | eauto]. Qed.

Lemma extends_trans hs1 hs2 hs3 : extends hs1 hs2 -> extends hs2 hs3 -> extends hs1 hs3.
Proof.
  intros [L1 H1] [L2 H2]. split; [lia|].
  intros i hd Hi Ho. destruct (H1 i hd Hi Ho) as (hd' & Hi' & Ho'). eauto.
Qed.

Lemma do_event_counted a base e hs h :
  0 <= base -> counted a base h hs ->
  exists hs' h',
    do_event e hs h = Ret (hs', h') /\ counted a base h' hs' /\ extends hs hs' /\
    forall i, e = Release i -> (i < length hs)%nat ->
      exists hd', hs' !! i = Some hd' /\ h_once hd' = true.
Proof.
  intros Hb (Hall & x & Ha & Hc). pose proof (outstanding_nonneg hs) as Hnn.
  destruct e as [i|i]; simpl.
  - destruct (hs !! i) as [hd|] eqn:Hi.
    + assert (Hwg : h_wg hd = Some a)
        by (eapply (proj1 (Forall_lookup _ _) Hall); eauto).
      destruct (handle_Release_step h a x hd Ha Hwg)
        as (hd' & h' & x' & E & Ha' & Hwg' & Ho' & Hc').
      { intros Ho. pose proof (outstanding_lookup hs i hd Hi Ho). lia. }
      exists (<[i := hd']> hs), h'. unfold bind. rewrite E.
      assert (Hlt : (i < length hs)%nat) by (eapply lookup_lt_Some; eauto).
      split; [reflexivity|]. split; [|split].
      * split; [apply Forall_insert; auto|].
        exists x'. split; [auto|].
        rewrite (outstanding_insert hs i hd hd' Hi), Ho'. lia.
      * split; [rewrite length_insert; lia|].
        intros j hdj Hj Hoj. destruct (decide (i = j)) as [->|Hne].
        -- exists hd'. rewrite list_lookup_insert_eq by auto. auto.
        -- exists hdj. rewrite list_lookup_insert_ne by auto. auto.
      * intros j Ej _. injection Ej as <-.
        exists hd'. rewrite list_lookup_insert_eq by auto. auto.
    + exists hs, h. split; [reflexivity|]. split; [|split].
      * split; eauto.
      * apply extends_refl.
      * intros j Ej Hj. injection Ej as <-.
        apply lookup_ge_None in Hi. lia.
  - destruct (hs !! i) as [[w|r]|] eqn:Hi;
      try (exists hs, h; split; [reflexivity|]; split; [split; eauto|];
           split; [apply extends_refl | intros ? ?; discriminate]).
    assert (Hwg : w_wg w = Some a)
      by (apply (proj1 (Forall_lookup _ _) Hall i (HW w) Hi)).
    destruct (Writer_Reader_step h a x w Ha Hwg)
      as (r & w' & h' & x' & E & Ha' & Hwg' & Ho' & Hrwg & Hro & Hc'); [lia|].
    assert (Hlt : (i < length hs)%nat) by (eapply lookup_lt_Some; eauto).
    exists (<[i := HW w']> hs ++ [HR r]), h'. unfold bind. rewrite E.
    split; [reflexivity|]. split; [|split].
    + split.
      * apply Forall_app. split; [apply Forall_insert; auto|].
        constructor; auto.
      * exists x'. split; [auto|].
        rewrite outstanding_app, (outstanding_insert hs i (HW w) (HW w') Hi).
        simpl. rewrite Ho', Hro. destruct (w_once w); lia.
    + split; [rewrite length_app, length_insert; lia|].
      intros j hdj Hj Hoj.
      assert (Hjlt : (j < length hs)%nat) by (eapply lookup_lt_Some; eauto).
      rewrite lookup_app_l by (rewrite length_insert; auto).
      destruct (decide (i = j)) as [->|Hne].
      * exists (HW w'). rewrite list_lookup_insert_eq by auto. auto.
      * exists hdj. rewrite list_lookup_insert_ne by auto. auto.
    + intros ? ?; discriminate.
Qed.

Lemma run_events_counted a base es :
  forall hs h,
    0 <= base -> counted a base h hs ->
    exists hs' h',
      run_events es hs h = Ret (hs', h') /\ counted a base h' hs' /\
      extends hs hs' /\
      forall i, In (Release i) es -> (i < length hs)%nat ->
        exists hd', hs' !! i = Some hd' /\ h_once hd' = true.
Proof.
  induction es as [|e es IH]; intros hs h Hb Hc.
  - exists hs, h. split; [reflexivity|]. split; [auto|].
    split; [apply extends_refl | intros i []].
  - destruct (do_event_counted a base e hs h Hb Hc)
      as (hs1 & h1 & E1 & Hc1 & Hext1 & Hrel1).
    destruct (IH hs1 h1 Hb Hc1) as (hs2 & h2 & E2 & Hc2 & Hext2 & Hrel2).
    exists hs2, h2. simpl. unfold bind. rewrite E1.
    split; [exact E2|]. split; [auto|].
    split; [eapply extends_trans; eauto|].
    intros i [->|Hin] Hi.
    + destruct (Hrel1 i eq_refl Hi) as (hd1 & Hl1 & Ho1).
      apply (proj2 Hext2 i hd1 Hl1 Ho1).
    + apply Hrel2; auto. destruct Hext1. lia.
Qed.

Lemma handle_Release_again hd h hd1 h1 :
  handle_Release hd h = Ret (hd1, h1) ->
  forall h2, handle_Release hd1 h2 = Ret (hd1, h2).
Proof.
  destruct hd as [w|r]; simpl;
    unfold Writer_Release, Reader_Release, bind, ret.
  - destruct (w_wg w) eqn:Hwg; [destruct (w_once w) eqn:Ho|];
      [ | destruct (WaitGroup_Done (Some n) h) as [[[] h']| |]; try discriminate | ];
      intros [= <- <-] h2; simpl;
      unfold Writer_Release, bind, ret; simpl; rewrite Hwg, ?Ho; reflexivity.
  - destruct (r_wg r) eqn:Hwg; [destruct (r_once r) eqn:Ho|];
      [ | destruct (WaitGroup_Done (Some n) h) as [[[] h']| |]; try discriminate | ];
      intros [= <- <-] h2; simpl;
      unfold Reader_Release, bind, ret; simpl; rewrite Hwg, ?Ho; reflexivity.
Qed.

(** C5: releasing a handle again, whether a Writer or a Reader, returns
    without error and changes neither the handle nor the heap.  For the
    handles held on the leases of an arena, any sequence of releases and
    conversions runs without a panic (the counter never goes below zero) and
    leaves the counter at the number of handles not yet released, plus the
    leases held elsewhere: each handle is counted down once however often it
    is released, every handle released in the sequence ends up released, and
    once all handles are released the counter is back at the leases held
    elsewhere, which is exactly zero when there are none. *)
Theorem C5_release_idempotent a base es hs h :
  0 <= base -> counted a base h hs ->
  (forall hd h0 hd1 h1, handle_Release hd h0 = Ret (hd1, h1) ->
     forall h2, handle_Release hd1 h2 = Ret (hd1, h2)) /\
  exists hs' h' x',
    run_events es hs h = Ret (hs', h') /\
    arenas h' !! a = Some x' /\
    a_wg x' = base + outstanding hs' /\ 0 <= outstanding hs' /\
    (forall i, In (Release i) es -> (i < length hs)%nat ->
       exists hd, hs' !! i = Some hd /\ h_once hd = true) /\
    (Forall (fun hd => h_once hd = true) hs' -> a_wg x' = base).
Proof.
  intros Hb Hc. split; [exact handle_Release_again|].
  destruct (run_events_counted a base es hs h Hb Hc)
    as (hs' & h' & E & (Hall & x' & Ha' & Hc') & _ & Hrel).
  exists hs', h', x'. repeat split; auto.
  - apply outstanding_nonneg.
  - intros Hdone. rewrite Hc', (outstanding_released hs' Hdone). lia.
Qed.

Lemma C5_release_idempotent_witness :
  exists hs' h',
    run_events [Release 0%nat; Release 0%nat; ToReader 1%nat; Release 1%nat;
                Release 2%nat; Release 2%nat; Release 0%nat]
               [HW (mkWriter (Slice 0 0 4 40) 0 false (Some 0%nat));
                HW (mkWriter (Slice 0 4 4 36) 0 false (Some 0%nat))]
               (Heap [replicate 40 x00] [Arena 2 (Slice 0 0 40 40) 4 8])
      = Ret (hs', h') /\
    arenas h' !! 0%nat = Some (Arena 0 (Slice 0 0 40 40) 4 8).
Proof.
  destruct (C5_release_idempotent 0 0
              [Release 0%nat; Release 0%nat; ToReader 1%nat; Release 1%nat;
               Release 2%nat; Release 2%nat; Release 0%nat]
              [HW (mkWriter (Slice 0 0 4 40) 0 false (Some 0%nat));
               HW (mkWriter (Slice 0 4 4 36) 0 false (Some 0%nat))]
              (Heap [replicate 40 x00] [Arena 2 (Slice 0 0 40 40) 4 8]))
    as (_ & hs' & h' & x' & E & Ha & _).
  - lia.
  - split; [repeat constructor|].
    exists (Arena 2 (Slice 0 0 40 40) 4 8). split; reflexivity.
  - exists hs', h'. split; [exact E|].
    vm_compute in E. injection E as <- <-. reflexivity.
Defined.

(** ** Reclaiming a depleted arena *)

(** C9, as stated, fails.  Take a depleted arena (cursor 40 of 40, no lease
    outstanding) waiting in its goroutine.  When Wait returns, that is when
    the goroutine hands the arena to Put, the arena is not rewound; Put
    rewinds it, through the Reset that *arena offers as a mempool.Resetter;
    and the same Put for a type without Reset would leave it as it is. *)
Lemma C9_reset_counterexample :
  let s := Sys (Heap [replicate 40 x00; replicate 40 x00]
                     [Arena 0 (Slice 0 0 40 40) 4 40;
                      Arena 0 (Slice 1 0 40 40) 4 0])
               (mkPool 40 4 1 (mempool.NewPool 1)) [0%nat] in
  (exists s1, lift (arena_Wait 0) s = Ret (tt, s1) /\ ~ rewound (sys_heap s1) 0) /\
  (exists m s2, mempool.Put arena_Resetter 0%nat (pool (sys_pool s)) s = Ret (m, s2) /\
                rewound (sys_heap s2) 0) /\
  (exists m s2, mempool.Put (fun _ => None) 0%nat (pool (sys_pool s)) s = Ret (m, s2) /\
                ~ rewound (sys_heap s2) 0).
Proof.
  split; [|split].
  - eexists. split; [vm_compute; reflexivity|].
    intros (x & Hx & Hn). simpl in Hx. injection Hx as <-. discriminate.
  - do 2 eexists. split; [vm_compute; reflexivity|].
    eexists. split; reflexivity.
  - do 2 eexists. split; [vm_compute; reflexivity|].
    intros (x & Hx & Hn). simpl in Hx. injection Hx as <-. discriminate.
Qed.

(** C9 (amended): the goroutine started for a depleted arena waits for its
    leases and then only puts the arena back: when Wait returns nothing has
    changed, and it is Put that rewinds the arena, by calling the Reset that
    *arena offers as a mempool.Resetter, before it stores the arena in the
    buffer or in the sync.Pool.  Afterwards the cursor is 0, the rest of the
    arena and all arrays are as before, and the arena is in the recycler.
    The same Put for a type without Reset stores the value in the same place
    and leaves the heap as it is. *)
Theorem C9_reclaim_resets_in_Put s a x :
  arenas (sys_heap s) !! a = Some x -> a_wg x = 0 ->
  exists s',
    reclaim a s = Ret (tt, s') /\
    lift (arena_Wait a) s = Ret (tt, s) /\
    mempool.Put arena_Resetter a (pool (sys_pool s)) s =
      Ret (pool (sys_pool s'), Sys (sys_heap s') (sys_pool s) (goroutines s)) /\
    mempool.Put (fun _ => None) a (pool (sys_pool s)) s =
      Ret (pool (sys_pool s'), s) /\
    arenas (sys_heap s') !! a =
      Some (Arena (a_wg x) (a_block x) (a_reasonable x) 0) /\
    arrays (sys_heap s') = arrays (sys_heap s) /\
    a ∈ pooled (pool (sys_pool s')).
Proof.
  intros Ha Hc. destruct s as [h [sz r c m] gs]. simpl in *.
  assert (EW : lift (arena_Wait a) (Sys h (mkPool sz r c m) gs)
               = Ret (tt, Sys h (mkPool sz r c m) gs)).
  { unfold lift, arena_Wait, WaitGroup_Wait. simpl. rewrite Ha, Hc. reflexivity. }
  assert (ER : lift (arena_Reset a) (Sys h (mkPool sz r c m) gs)
               = Ret (tt, Sys (set_arenas h (alter (fun x => Arena (a_wg x) (a_block x)
                                   (a_reasonable x) 0) a (arenas h)))
                              (mkPool sz r c m) gs)).
  { unfold lift, arena_Reset, bind, get_arena, set_next. simpl. rewrite Ha. reflexivity. }
  unfold reclaim, mempool.Put, bind, get_pool, set_pool, arena_Resetter, ret.
  rewrite EW, ER. simpl.
  destruct m as [p [[cap q]|]]; simpl; [destruct (length q <? cap)%nat|];
    (eexists; split; [reflexivity|]; simpl;
     rewrite list_lookup_alter_eq, Ha; repeat split;
     unfold pooled; simpl;
     rewrite ?elem_of_app, ?elem_of_cons, ?list_elem_of_singleton; auto).
Qed.

Lemma C9_reclaim_resets_in_Put_witness :
  exists s',
    reclaim 0 (Sys (Heap [replicate 40 x00; replicate 40 x00]
                         [Arena 0 (Slice 0 0 40 40) 4 40;
                          Arena 0 (Slice 1 0 40 40) 4 0])
                   (mkPool 40 4 1 (mempool.NewPool 1)) [0%nat])
      = Ret (tt, s') /\
    arenas (sys_heap s') !! 0%nat = Some (Arena 0 (Slice 0 0 40 40) 4 0).
Proof.
  destruct (C9_reclaim_resets_in_Put
              (Sys (Heap [replicate 40 x00; replicate 40 x00]
                         [Arena 0 (Slice 0 0 40 40) 4 40;
                          Arena 0 (Slice 1 0 40 40) 4 0])
                   (mkPool 40 4 1 (mempool.NewPool 1)) [0%nat])
              0 (Arena 0 (Slice 0 0 40 40) 4 40) eq_refl eq_refl)
    as (s' & E & _ & _ & _ & Ha & _).
  exists s'. split; [exact E | exact Ha].
Defined.

(** ** The invariant of the arena pool *)

Lemma shaped_transfer sz r h h' a :
  grows h h' -> keeps h h' a -> shaped sz r h a -> shaped sz r h' a.
Proof.
  intros Hg Hk (x & Ha & Hok & Hlen & Hr & Hn & Hc).
  destruct (Hk x Ha) as (x' & Ha' & Hb & Hr' & Hn' & Hc').
  exists x'. rewrite Hb, Hr', Hn'. repeat split; auto; lia.
Qed.

Lemma rewound_transfer h h' a : keeps h h' a -> rewound h a -> rewound h' a.
Proof.
  intros Hk (x & Ha & Hn). destruct (Hk x Ha) as (x' & Ha' & _ & _ & Hn' & _).
  exists x'. split; [auto | lia].
Qed.

Lemma grows_refl h : grows h h.
Proof. intros s Hs. exact Hs. Qed.

Lemma grows_set_arenas h l : grows h (set_arenas h l).
Proof. intros s Hs. exact Hs. Qed.

Lemma grows_new_array h l arenas' :
  grows h (Heap (arrays h ++ l) arenas').
Proof.
  intros s (k & Hk & Ho & Hc & Hm). exists k. simpl.
  rewrite lookup_app_l by (eapply lookup_lt_Some; eauto). auto.
Qed.

Lemma keeps_insert_ne h a v y :
  a <> v -> keeps h (set_arenas h (<[v := y]> (arenas h))) a.
Proof.
  intros Hne x Ha. exists x. simpl. rewrite list_lookup_insert_ne by auto. auto.
Qed.

Lemma keeps_new_arena h arrays' l a :
  keeps h (Heap arrays' (arenas h ++ l)) a.
Proof.
  intros x Ha. exists x. simpl.
  rewrite lookup_app_l by (eapply lookup_lt_Some; eauto). auto.
Qed.

Lemma keeps_same_arenas h arrays' a : keeps h (Heap arrays' (arenas h)) a.
Proof. intros x Ha. exists x. auto. Qed.

Lemma handles_step_grows h h' : handles_step h h' -> grows h h'.
Proof.
  intros [Harr _] s (k & Hk & Ho & Hc & Hm).
  destruct (Forall2_lookup_l _ _ _ _ _ Harr Hk) as (k' & Hk' & Hlen).
  exists k'. rewrite <- Hlen. auto.
Qed.

Lemma handles_step_keeps h h' a : handles_step h h' -> keeps h h' a.
Proof.
  intros [_ Har] x Ha.
  destruct (Forall2_lookup_l _ _ _ _ _ Har Ha) as (x' & Ha' & Hb & Hr & Hn & Hc).
  exists x'. auto.
Qed.

Lemma shaped_arena_wf sz r h a x :
  0 <= r -> r * 10 <= sz ->
  shaped sz r h a -> arenas h !! a = Some x -> arena_wf h x.
Proof.
  intros Hr0 Hr (x' & Ha' & Hok & Hlen & Hr' & Hn & Hc) Ha.
  assert (x' = x) by congruence. subst x'.
  unfold arena_wf. rewrite Hlen, Hr'. auto.
Qed.

Lemma GetWriter_too_large a x sz h :
  arenas h !! a = Some x -> 1 <= sz -> a_reasonable x < sz -> maxAlloc < sz ->
  arena_GetWriter a sz h = Panic LenOutOfRange.
Proof.
  intros Ha H1 Hr Hm. unfold arena_GetWriter, bind, get_arena, make_bytes.
  replace (sz <? 1) with false by (symmetry; apply Z.ltb_ge; lia).
  rewrite Ha.
  replace (a_reasonable x <? sz) with true by (symmetry; apply Z.ltb_lt; lia).
  replace (maxAlloc <? sz) with true by (symmetry; apply Z.ltb_lt; lia).
  rewrite orb_true_r. reflexivity.
Qed.

(** A new arena, as New and the factory of the recycler make it. *)
Lemma newArena_shaped sz r h :
  0 <= r -> r * 10 <= sz -> sz <= maxAlloc ->
  exists h',
    newArena sz r h = Ret ((Some (length (arenas h)), None), h') /\
    grows h h' /\ (forall a, keeps h h' a) /\
    shaped sz r h' (length (arenas h)) /\ rewound h' (length (arenas h)).
Proof.
  intros Hr0 Hr Hm. pose proof int_bounds as Hb.
  unfold newArena, bind, make_bytes.
  rewrite wrap_uint_small by (unfold maxAlloc in *; lia).
  replace (sz <? r * 10) with false by (symmetry; apply Z.ltb_ge; lia).
  replace (sz <? 0) with false by (symmetry; apply Z.ltb_ge; lia).
  replace (maxAlloc <? sz) with false by (symmetry; apply Z.ltb_ge; lia).
  simpl. rewrite wrap_int_small by lia.
  eexists. split; [reflexivity|]. split; [|split; [|split]].
  - apply grows_new_array.
  - intros a. apply keeps_new_arena.
  - eexists. simpl. split; [apply list_lookup_middle; reflexivity|].
    simpl. unfold slice_ok, len. simpl. repeat split; try lia.
    eexists. split; [apply list_lookup_middle; reflexivity|].
    rewrite length_replicate. repeat split; lia.
  - eexists. simpl. split; [apply list_lookup_middle; reflexivity|]. reflexivity.
Qed.

Lemma factory_new sz r h q gs :
  0 <= r -> r * 10 <= sz -> sz <= maxAlloc ->
  exists h',
    factory sz r (Sys h q gs) = Ret (length (arenas h), Sys h' q gs) /\
    grows h h' /\ (forall a, keeps h h' a) /\
    shaped sz r h' (length (arenas h)) /\ rewound h' (length (arenas h)).
Proof.
  intros Hr0 Hr Hm.
  destruct (newArena_shaped sz r h Hr0 Hr Hm) as (h' & E & Hg & Hk & Hs & Hw).
  exists h'. split; [|auto].
  unfold factory, bind, lift. simpl. rewrite E. reflexivity.
Qed.

Lemma sync_Pool_Get_taken sz r h q gs m pick :
  0 <= r -> r * 10 <= sz -> sz <= maxAlloc ->
  exists v m' h',
    mempool.sync_Pool_Get (factory sz r) pick m (Sys h q gs)
      = Ret ((v, m'), Sys h' q gs) /\
    taken sz r h m v m' h'.
Proof.
  intros Hr0 Hr Hm.
  destruct (factory_new sz r h q gs Hr0 Hr Hm) as (h' & E & Hg & Hk & Hs & Hw).
  assert (Hnew : exists v m' h',
    bind (factory sz r) (fun v => ret (v, m)) (Sys h q gs)
      = Ret ((v, m'), Sys h' q gs) /\ taken sz r h m v m' h').
  { exists (length (arenas h)), m, h'. unfold bind. rewrite E.
    split; [reflexivity|]. right. auto 10. }
  unfold mempool.sync_Pool_Get.
  destruct pick as [i|]; [|exact Hnew].
  destruct (mempool.p m !! i) as [v|] eqn:Hi; [|exact Hnew].
  exists v, (mempool.mkPool (delete i (mempool.p m)) (mempool.buffer m)), h.
  split; [reflexivity|]. left. split; [reflexivity|].
  unfold pooled. simpl.
  rewrite (delete_Permutation _ _ _ Hi) at 1.
  symmetry. apply Permutation_middle.
Qed.

Lemma Get_taken sz r h q gs m pick :
  0 <= r -> r * 10 <= sz -> sz <= maxAlloc ->
  exists v m' h',
    mempool.Get (factory sz r) pick m (Sys h q gs)
      = Ret ((v, m'), Sys h' q gs) /\
    taken sz r h m v m' h'.
Proof.
  intros Hr0 Hr Hm. unfold mempool.Get.
  destruct (mempool.buffer m) as [[c [|v k]]|] eqn:Hb.
  - apply sync_Pool_Get_taken; auto.
  - exists v, (mempool.mkPool (mempool.p m) (Some (c, k))), h.
    split; [reflexivity|]. left. split; [reflexivity|].
    unfold pooled. rewrite Hb. reflexivity.
  - apply sync_Pool_Get_taken; auto.
Qed.

Lemma shaped_lt sz r h a : shaped sz r h a -> (a < length (arenas h))%nat.
Proof. intros (x & Ha & _). eapply lookup_lt_Some; eauto. Qed.

(** After the swap: the arena taken, the rest of the recycler, and the
    arenas to reclaim with the old current arena among them. *)
Lemma taken_inv sz r h c m gs v m' h' :
  taken sz r h m v m' h' ->
  NoDup (c :: pooled m ++ gs) ->
  Forall (shaped sz r h) (c :: pooled m ++ gs) ->
  Forall (rewound h) (pooled m) ->
  NoDup (v :: pooled m' ++ gs ++ [c]) /\
  Forall (shaped sz r h') (v :: pooled m' ++ gs ++ [c]) /\
  Forall (rewound h') (v :: pooled m').
Proof.
  intros [[-> Hp]|(Hp & -> & Hg & Hk & Hs & Hw)] Hnd Hsh Hrw.
  - assert (Hperm : c :: pooled m ++ gs ≡ₚ v :: pooled m' ++ gs ++ [c]).
    { rewrite Hp. simpl. rewrite perm_swap. constructor.
      rewrite app_assoc. apply Permutation_cons_append. }
    rewrite <- Hperm. rewrite <- Hp. auto.
  - rewrite Hp.
    assert (Hperm : c :: pooled m ++ gs ≡ₚ pooled m ++ gs ++ [c]).
    { rewrite app_assoc. apply Permutation_cons_append. }
    split; [|split].
    + apply NoDup_cons. split; [|rewrite <- Hperm; auto].
      rewrite <- Hperm. intros Hin.
      apply (proj1 (Forall_forall _ _) Hsh), shaped_lt in Hin. lia.
    + constructor; [auto|]. rewrite <- Hperm.
      eapply Forall_impl; [exact Hsh|].
      intros a Ha. eapply shaped_transfer; eauto.
    + constructor; [auto|].
      eapply Forall_impl; [exact Hrw|].
      intros a Ha. eapply rewound_transfer; eauto.
Qed.

Lemma pool_inv_bounds sz r s : pool_inv sz r s -> 0 <= sz <= maxAlloc.
Proof.
  intros (_ & _ & _ & Hsh & _). apply Forall_cons in Hsh as [(x & _ & Hok & Hlen & _) _].
  rewrite <- Hlen. eapply slice_ok_len; eauto.
Qed.

Lemma pool_inv_intro sz r h c m gs :
  NoDup (c :: pooled m ++ gs) ->
  Forall (shaped sz r h) (c :: pooled m ++ gs) ->
  Forall (rewound h) (pooled m) ->
  pool_inv sz r (Sys h (mkPool sz r c m) gs).
Proof. intros. repeat split; auto. Qed.

(** A request on a shaped arena whose size is within the limit, when it
    fits: the lease is granted and the arena stays shaped. *)
Lemma GetWriter_shaped_granted sz r h a x n :
  0 <= r -> r * 10 <= sz -> shaped sz r h a -> arenas h !! a = Some x ->
  1 <= n <= r -> a_next x + n <= sz ->
  arena_GetWriter a n h =
    Ret ((lease a x n, None), set_arenas h (<[a := granted x n]> (arenas h))) /\
  shaped sz r (set_arenas h (<[a := granted x n]> (arenas h))) a.
Proof.
  intros Hr0 Hr Hs Ha Hn Hfit.
  pose proof (shaped_arena_wf sz r h a x Hr0 Hr Hs Ha) as Hwf.
  destruct Hs as (x' & Ha' & Hok & Hlen & Hr' & Hnx & Hc).
  assert (x' = x) by congruence. subst x'.
  split.
  - apply GetWriter_granted; auto; lia.
  - exists (granted x n). simpl.
    rewrite list_lookup_insert_eq by (eapply lookup_lt_Some; eauto).
    repeat split; auto; lia.
Qed.

(** One call of GetWriter on a pool that satisfies the invariant: it
    returns, the invariant still holds, and the error is never the full
    signal; for a size above zero there is no error at all.  The call can
    only panic when the runtime refuses an oversized allocation. *)
Lemma Pool_GetWriter_inv sz r s n pick :
  0 <= r -> r * 10 <= sz -> pool_inv sz r s ->
  match Pool_GetWriter n pick s with
  | Ret ((w, err), s') =>
      pool_inv sz r s' /\ err <> Some arenaFullErr /\ (0 < n -> err = None)
  | Panic _ => maxAlloc < n
  | Block => False
  end.
Proof.
  intros Hr0 Hr Hinv. pose proof (pool_inv_bounds _ _ _ Hinv) as Hsz.
  destruct s as [h [sz' r' c m] gs].
  destruct Hinv as (Esz & Er & Hnd & Hsh & Hrw). simpl in *. subst sz' r'.
  pose proof Hsh as Hsh0. apply Forall_cons in Hsh0 as [Hc _].
  pose proof Hc as (x & Ha & Hok & Hlen & Hrx & Hnx & Hwg).
  unfold Pool_GetWriter, Pool_getWriter, bind, get_pool, lift. simpl.
  destruct (Z_lt_le_dec n 1) as [Hn|Hn].
  { rewrite GetWriter_invalid by auto. simpl.
    split; [apply pool_inv_intro; auto|]. split; [discriminate | lia]. }
  destruct (Z_lt_le_dec r n) as [Hbig|Hsmall].
  { destruct (Z_lt_le_dec maxAlloc n) as [Hm|Hm].
    - rewrite (GetWriter_too_large c x) by (auto; lia). exact Hm.
    - rewrite (GetWriter_oversize c x) by (auto; lia). simpl.
      split; [|split; [discriminate | auto]].
      apply pool_inv_intro; [exact Hnd | | ].
      + eapply Forall_impl; [exact Hsh|]. intros a Hs.
        eapply shaped_transfer; [apply grows_new_array | apply keeps_same_arenas | exact Hs].
      + eapply Forall_impl; [exact Hrw|]. intros a Hs.
        eapply rewound_transfer; [apply keeps_same_arenas | exact Hs]. }
  destruct (Z_lt_le_dec sz (a_next x + n)) as [Hfull|Hfit].
  - rewrite (GetWriter_full c x)
      by (eauto using shaped_arena_wf; lia).
    simpl. unfold Pool_handleDepleted, spawn. simpl.
    destruct (Get_taken sz r h (mkPool sz r c m) (gs ++ [c]) m pick Hr0 Hr)
      as (v & m' & h' & E & Htaken); [lia|].
    rewrite E. simpl.
    destruct (taken_inv sz r h c m gs v m' h' Htaken Hnd Hsh Hrw)
      as (Hnd' & Hsh' & Hrw').
    pose proof Hsh' as Hv. apply Forall_cons in Hv as [Hv _].
    pose proof Hrw' as Hw. apply Forall_cons in Hw as [(xv & Hav & Hn0) Hrw''].
    destruct (GetWriter_shaped_granted sz r h' v xv n Hr0 Hr Hv Hav) as [E' Hv'];
      [lia | lia |].
    rewrite E'. simpl.
    split; [|split; [discriminate | auto]].
    apply NoDup_cons in Hnd' as Hnd''. destruct Hnd'' as [Hnotin _].
    apply pool_inv_intro; [exact Hnd' | | ].
    + constructor; [exact Hv'|].
      apply Forall_cons in Hsh' as [_ Hrest].
      apply Forall_forall. intros a Hin.
      eapply shaped_transfer;
        [apply grows_set_arenas | apply keeps_insert_ne
        | exact (proj1 (Forall_forall _ _) Hrest a Hin)].
      intros ->. contradiction.
    + apply Forall_forall. intros a Hin.
      eapply rewound_transfer;
        [apply keeps_insert_ne | exact (proj1 (Forall_forall _ _) Hrw'' a Hin)].
      intros ->. apply Hnotin. apply elem_of_app. auto.
  - destruct (GetWriter_shaped_granted sz r h c x n Hr0 Hr Hc Ha) as [E' Hc'];
      [lia | lia |].
    rewrite E'. simpl.
    split; [|split; [discriminate | auto]].
    apply NoDup_cons in Hnd as Hnd''. destruct Hnd'' as [Hnotin _].
    apply pool_inv_intro; [exact Hnd | | ].
    + constructor; [exact Hc'|].
      apply Forall_cons in Hsh as [_ Hrest].
      apply Forall_forall. intros a Hin.
      eapply shaped_transfer;
        [apply grows_set_arenas | apply keeps_insert_ne
        | exact (proj1 (Forall_forall _ _) Hrest a Hin)].
      intros ->. contradiction.
    + apply Forall_forall. intros a Hin.
      eapply rewound_transfer;
        [apply keeps_insert_ne | exact (proj1 (Forall_forall _ _) Hrw a Hin)].
      intros ->. apply Hnotin. apply elem_of_app. auto.
Qed.

Lemma pooled_stored v m : pooled (stored v m) ≡ₚ v :: pooled m.
Proof.
  unfold stored, pooled.
  destruct (mempool.buffer m) as [[c k]|] eqn:Hb; simpl;
    [destruct (length k <? c)%nat; simpl; rewrite ?Hb|]; simpl.
  - rewrite <- app_assoc. simpl. symmetry. apply Permutation_middle.
  - symmetry. apply Permutation_middle.
  - reflexivity.
Qed.

(** The goroutine of a depleted arena returns only when no lease is
    outstanding, and then the arena is rewound and stored. *)
Lemma reclaim_returns a h q gs s' :
  reclaim a (Sys h q gs) = Ret (tt, s') ->
  exists x,
    arenas h !! a = Some x /\ a_wg x = 0 /\
    s' = Sys (set_arenas h (alter (fun y => Arena (a_wg y) (a_block y)
                                               (a_reasonable y) 0) a (arenas h)))
             (mkPool (size q) (reasonable q) (current q) (stored a (pool q)))
             gs.
Proof.
  unfold reclaim, bind, lift, arena_Wait, WaitGroup_Wait. simpl.
  destruct (arenas h !! a) as [x|] eqn:Ha; [|discriminate].
  destruct (a_wg x =? 0) eqn:Hc; [|discriminate].
  apply Z.eqb_eq in Hc. simpl.
  unfold mempool.Put, arena_Resetter, bind, lift, arena_Reset, get_arena, set_next.
  simpl. unfold bind. rewrite Ha. simpl. unfold stored.
  destruct (mempool.buffer (pool q)) as [[c k]|];
    [destruct (length k <? c)%nat|]; simpl; intros [= <-]; eauto.
Qed.

Lemma keeps_rewind h a b :
  keeps h (set_arenas h (alter (fun y => Arena (a_wg y) (a_block y)
                                           (a_reasonable y) 0) a (arenas h))) b
  \/ a = b.
Proof.
  destruct (decide (a = b)) as [->|Hne]; [auto|]. left.
  intros x Hx. exists x. simpl. rewrite list_lookup_alter_ne by auto. auto.
Qed.

Lemma shaped_rewind sz r h a b :
  shaped sz r h b ->
  shaped sz r (set_arenas h (alter (fun y => Arena (a_wg y) (a_block y)
                                             (a_reasonable y) 0) a (arenas h))) b.
Proof.
  intros Hs. destruct (keeps_rewind h a b) as [Hk| ->].
  - eapply shaped_transfer; [apply grows_set_arenas | exact Hk | exact Hs].
  - destruct Hs as (x & Ha & Hok & Hlen & Hr & Hn & Hc).
    eexists. simpl. rewrite list_lookup_alter_eq, Ha. simpl.
    split; [reflexivity|]. simpl. repeat split; auto; lia.
Qed.

Lemma rewound_rewind h a b :
  (a = b -> is_Some (arenas h !! a)) -> (a <> b -> rewound h b) ->
  rewound (set_arenas h (alter (fun y => Arena (a_wg y) (a_block y)
                                            (a_reasonable y) 0) a (arenas h))) b.
Proof.
  intros Heq Hne. destruct (decide (a = b)) as [->|Hab].
  - destruct (Heq eq_refl) as [x Hx]. eexists. simpl.
    rewrite list_lookup_alter_eq, Hx. simpl. split; reflexivity.
  - destruct (Hne Hab) as (x & Hx & Hn). exists x. simpl.
    rewrite list_lookup_alter_ne by auto. auto.
Qed.

Lemma delete_None {A} (l : list A) i : l !! i = None -> delete i l = l.
Proof.
  revert i. induction l as [|y l IH]; intros [|i] Hi; simpl in *;
    try discriminate; try reflexivity.
  f_equal. auto.
Qed.

Lemma run_goroutine_inv sz r i s s' :
  pool_inv sz r s -> run_goroutine i s = Ret (tt, s') -> pool_inv sz r s'.
Proof.
  intros Hinv. destruct s as [h [sz' r' c m] gs].
  destruct Hinv as (Esz & Er & Hnd & Hsh & Hrw). simpl in *. subst sz' r'.
  unfold run_goroutine. simpl.
  destruct (gs !! i) as [a|] eqn:Hi.
  2:{ intros [= <-]. repeat split; auto. }
  destruct (reclaim a (Sys h (mkPool sz r c m) gs)) as [[[] s1]| |] eqn:E;
    try discriminate.
  apply reclaim_returns in E as (x & Ha & Hc & ->). simpl. intros [= <-].
  assert (Hperm : c :: pooled m ++ gs
                  ≡ₚ c :: pooled (stored a m) ++ delete i gs).
  { constructor. rewrite pooled_stored, (delete_Permutation gs i a Hi) at 1.
    simpl. symmetry. apply Permutation_middle. }
  apply pool_inv_intro.
  - rewrite <- Hperm. exact Hnd.
  - rewrite <- Hperm. eapply Forall_impl; [exact Hsh|].
    intros b Hb. apply shaped_rewind, Hb.
  - rewrite pooled_stored. constructor.
    + apply rewound_rewind; [eauto | contradiction].
    + eapply Forall_impl; [exact Hrw|]. intros b Hb.
      apply rewound_rewind; [|auto].
      intros ->. destruct Hb as (y & Hy & _). eauto.
Qed.

Lemma handles_step_inv sz r s h' :
  pool_inv sz r s -> handles_step (sys_heap s) h' ->
  pool_inv sz r (Sys h' (sys_pool s) (goroutines s)).
Proof.
  intros Hinv Hst. destruct s as [h [sz' r' c m] gs].
  destruct Hinv as (Esz & Er & Hnd & Hsh & Hrw). simpl in *. subst sz' r'.
  apply pool_inv_intro; [exact Hnd | |].
  - eapply Forall_impl; [exact Hsh|]. intros a Ha.
    eapply shaped_transfer;
      [apply handles_step_grows | apply handles_step_keeps | exact Ha]; eauto.
  - eapply Forall_impl; [exact Hrw|]. intros a Ha.
    eapply rewound_transfer; [apply handles_step_keeps | exact Ha]; eauto.
Qed.

Lemma gc_drop_inv sz r i s : pool_inv sz r s -> pool_inv sz r (gc_drop i s).
Proof.
  intros Hinv. destruct s as [h [sz' r' c [p buf]] gs].
  destruct Hinv as (Esz & Er & Hnd & Hsh & Hrw). simpl in *. subst sz' r'.
  unfold gc_drop. simpl.
  destruct (p !! i) as [v|] eqn:Hi.
  2:{ rewrite (delete_None p i Hi). apply pool_inv_intro; auto. }
  set (m' := mempool.mkPool (delete i p) buf).
  assert (Hp : pooled (mempool.mkPool p buf) ≡ₚ v :: pooled m').
  { unfold pooled. simpl. rewrite (delete_Permutation p i v Hi) at 1.
    symmetry. apply Permutation_middle. }
  assert (Hperm : c :: pooled (mempool.mkPool p buf) ++ gs
                  ≡ₚ v :: c :: pooled m' ++ gs).
  { rewrite Hp. simpl. apply perm_swap. }
  rewrite Hperm in Hnd, Hsh. rewrite Hp in Hrw.
  apply NoDup_cons in Hnd as [_ Hnd].
  apply Forall_cons in Hsh as [_ Hsh].
  apply Forall_cons in Hrw as [_ Hrw].
  apply pool_inv_intro; auto.
Qed.

(** New establishes the invariant. *)
Lemma New_inv sz r buf h0 q h :
  0 <= r -> r * 10 <= sz ->
  New sz r buf h0 = Ret ((Some q, None), h) ->
  pool_inv sz r (Sys h q []).
Proof.
  intros Hr0 Hr. unfold New.
  destruct (sz <? wrap_uint (r * 10)) eqn:E0; [discriminate|].
  unfold bind.
  destruct (Z_lt_le_dec maxAlloc sz) as [Hbig|Hm].
  { unfold newArena, bind, make_bytes. rewrite E0.
    replace (maxAlloc <? sz) with true by (symmetry; apply Z.ltb_lt; lia).
    rewrite orb_true_r. discriminate. }
  destruct (newArena_shaped sz r h0 Hr0 Hr Hm) as (h' & E & Hg & Hk & Hs & Hw).
  rewrite E. intros [= <- <-].
  apply pool_inv_intro.
  - unfold pooled, mempool.NewPool. simpl.
    destruct (0 <? buf); simpl; apply NoDup_singleton.
  - unfold pooled, mempool.NewPool. simpl.
    destruct (0 <? buf); simpl; constructor; auto.
  - unfold pooled, mempool.NewPool. simpl.
    destruct (0 <? buf); simpl; constructor.
Qed.

(** ** What runs beside a call *)

Lemma forall2b_Forall2 {A B} (f : A -> B -> bool) (R : A -> B -> Prop) l k :
  (forall x y, f x y = true <-> R x y) ->
  forall2b f l k = true <-> Forall2 R l k.
Proof.
  intros Hf. revert k. induction l as [|x l IH]; intros [|y k]; simpl.
  - split; [constructor | reflexivity].
  - split; [discriminate | inversion 1].
  - split; [discriminate | inversion 1].
  - rewrite andb_true_iff, Hf, IH. split.
    + intros [Hx Hl]. constructor; auto.
    + intros H. apply Forall2_cons in H. exact H.
Qed.

Lemma slice_eqb_eq s t : slice_eqb s t = true <-> s = t.
Proof.
  unfold slice_eqb. rewrite !andb_true_iff, !Nat.eqb_eq.
  destruct s, t; simpl. split.
  - intros [[[-> ->] ->] ->]. reflexivity.
  - intros [= -> -> -> ->]. auto.
Qed.

Lemma handles_stepb_spec h h' : handles_stepb h h' = true <-> handles_step h h'.
Proof.
  unfold handles_stepb, handles_step. rewrite andb_true_iff.
  rewrite (forall2b_Forall2 _ (fun l l' : list byte => length l = length l'))
    by (intros; apply Nat.eqb_eq).
  rewrite (forall2b_Forall2 _
    (fun x x' => a_block x' = a_block x /\ a_reasonable x' = a_reasonable x /\
                 a_next x' = a_next x /\ (0 <= a_wg x -> 0 <= a_wg x'))).
  - reflexivity.
  - intros x x'.
    rewrite !andb_true_iff, orb_true_iff, slice_eqb_eq, !Z.eqb_eq, Z.ltb_lt, Z.leb_le.
    split.
    + intros (((Hb & Hr) & Hn) & Hc). repeat split; auto. lia.
    + intros (Hb & Hr & Hn & Hc). repeat split; auto. lia.
Qed.

(** A goroutine whose arena exists waits or returns; it does not panic. *)
Lemma reclaim_cases a x s :
  arenas (sys_heap s) !! a = Some x ->
  reclaim a s = Block \/ exists s', reclaim a s = Ret (tt, s').
Proof.
  intros Ha. destruct s as [h q gs].
  unfold reclaim, bind, lift, arena_Wait, WaitGroup_Wait. simpl in *.
  rewrite Ha. destruct (a_wg x =? 0); [right | left; reflexivity]. simpl.
  unfold mempool.Put, arena_Resetter, bind, lift, arena_Reset, get_arena, set_next.
  simpl. unfold bind. rewrite Ha. simpl.
  destruct (mempool.buffer (pool q)) as [[c k]|];
    [destruct (length k <? c)%nat|]; simpl; eauto.
Qed.

Lemma recycler_inv_intro sz r h c m gs :
  NoDup (pooled m ++ gs) ->
  Forall (shaped sz r h) (pooled m ++ gs) ->
  Forall (rewound h) (pooled m) ->
  recycler_inv sz r (Sys h (mkPool sz r c m) gs).
Proof. intros. repeat split; auto. Qed.

Lemma pool_inv_recycler sz r s : pool_inv sz r s -> recycler_inv sz r s.
Proof.
  intros (Hsz & Hr & Hnd & Hsh & Hrw).
  apply NoDup_cons in Hnd as [_ Hnd]. apply Forall_cons in Hsh as [_ Hsh].
  split; [exact Hsz|]. split; [exact Hr|]. split; [exact Hnd|].
  split; [exact Hsh | exact Hrw].
Qed.

Lemma run_goroutine_recycler sz r i s s' :
  recycler_inv sz r s -> run_goroutine i s = Ret (tt, s') -> recycler_inv sz r s'.
Proof.
  intros Hinv. destruct s as [h [sz' r' c m] gs].
  destruct Hinv as (Esz & Er & Hnd & Hsh & Hrw). simpl in *. subst sz' r'.
  unfold run_goroutine. simpl.
  destruct (gs !! i) as [a|] eqn:Hi.
  2:{ intros [= <-]. apply recycler_inv_intro; auto. }
  destruct (reclaim a (Sys h (mkPool sz r c m) gs)) as [[[] s1]| |] eqn:E;
    try discriminate.
  apply reclaim_returns in E as (x & Ha & Hc & ->). simpl. intros [= <-].
  assert (Hperm : pooled m ++ gs ≡ₚ pooled (stored a m) ++ delete i gs).
  { rewrite pooled_stored, (delete_Permutation gs i a Hi) at 1.
    simpl. symmetry. apply Permutation_middle. }
  apply recycler_inv_intro.
  - rewrite <- Hperm. exact Hnd.
  - rewrite <- Hperm. eapply Forall_impl; [exact Hsh|].
    intros b Hb. apply shaped_rewind, Hb.
  - rewrite pooled_stored. constructor.
    + apply rewound_rewind; [eauto | contradiction].
    + eapply Forall_impl; [exact Hrw|]. intros b Hb.
      apply rewound_rewind; [|auto].
      intros ->. destruct Hb as (y & Hy & _). eauto.
Qed.

Lemma handles_step_recycler sz r s h' :
  recycler_inv sz r s -> handles_step (sys_heap s) h' ->
  recycler_inv sz r (Sys h' (sys_pool s) (goroutines s)).
Proof.
  intros Hinv Hst. destruct s as [h [sz' r' c m] gs].
  destruct Hinv as (Esz & Er & Hnd & Hsh & Hrw). simpl in *. subst sz' r'.
  apply recycler_inv_intro; [exact Hnd | |].
  - eapply Forall_impl; [exact Hsh|]. intros a Ha.
    eapply shaped_transfer;
      [apply handles_step_grows | apply handles_step_keeps | exact Ha]; eauto.
  - eapply Forall_impl; [exact Hrw|]. intros a Ha.
    eapply rewound_transfer; [apply handles_step_keeps | exact Ha]; eauto.
Qed.

Lemma gc_drop_recycler sz r i s :
  recycler_inv sz r s -> recycler_inv sz r (gc_drop i s).
Proof.
  intros Hinv. destruct s as [h [sz' r' c [p buf]] gs].
  destruct Hinv as (Esz & Er & Hnd & Hsh & Hrw). simpl in *. subst sz' r'.
  unfold gc_drop. simpl.
  destruct (p !! i) as [v|] eqn:Hi.
  2:{ rewrite (delete_None p i Hi). apply recycler_inv_intro; auto. }
  set (m' := mempool.mkPool (delete i p) buf).
  assert (Hp : pooled (mempool.mkPool p buf) ≡ₚ v :: pooled m').
  { unfold pooled. simpl. rewrite (delete_Permutation p i v Hi) at 1.
    symmetry. apply Permutation_middle. }
  rewrite Hp in Hnd, Hsh, Hrw. simpl in Hnd, Hsh.
  apply NoDup_cons in Hnd as [_ Hnd].
  apply Forall_cons in Hsh as [_ Hsh].
  apply Forall_cons in Hrw as [_ Hrw].
  apply recycler_inv_intro; auto.
Qed.

(** A move of the rest of the program always returns; it keeps what holds
    of the recycler, the invariant of the pool when it holds, the current
    arena, and every rewound arena rewound. *)
Lemma do_move_inv sz r mv s :
  recycler_inv sz r s ->
  exists s',
    do_move mv s = Ret (tt, s') /\ recycler_inv sz r s' /\
    (pool_inv sz r s -> pool_inv sz r s') /\
    current (sys_pool s') = current (sys_pool s) /\
    (forall a, rewound (sys_heap s) a -> rewound (sys_heap s') a).
Proof.
  intros Hinv.
  assert (Hstay : exists s', Ret (tt, s) = Ret (tt, s') /\ recycler_inv sz r s' /\
    (pool_inv sz r s -> pool_inv sz r s') /\
    current (sys_pool s') = current (sys_pool s) /\
    (forall a, rewound (sys_heap s) a -> rewound (sys_heap s') a))
    by (exists s; auto).
  destruct mv as [i|h'|i]; unfold do_move.
  - destruct (goroutines s !! i) as [a|] eqn:Hi.
    2:{ unfold run_goroutine. rewrite Hi. exact Hstay. }
    assert (Ha : shaped sz r (sys_heap s) a).
    { destruct Hinv as (_ & _ & _ & Hsh & _).
      apply (proj1 (Forall_forall _ _) Hsh). apply elem_of_app. right.
      eapply list_elem_of_lookup_2; eauto. }
    destruct Ha as (x & Hx & _).
    destruct (reclaim_cases a x s Hx) as [E|(s1 & E)].
    { unfold run_goroutine. rewrite Hi, E. exact Hstay. }
    assert (ER : run_goroutine i s =
                 Ret (tt, Sys (sys_heap s1) (sys_pool s1) (delete i (goroutines s1))))
      by (unfold run_goroutine; rewrite Hi, E; reflexivity).
    rewrite ER. eexists. split; [reflexivity|].
    split; [eapply run_goroutine_recycler; eauto|].
    split; [intros Hp; eapply run_goroutine_inv; eauto|].
    destruct s as [h q gs].
    apply reclaim_returns in E as (y & Hy & _ & ->). simpl.
    split; [reflexivity|].
    intros b Hb. apply rewound_rewind; eauto.
  - destruct (handles_stepb (sys_heap s) h') eqn:Hb; [|exact Hstay].
    apply handles_stepb_spec in Hb. eexists. split; [reflexivity|].
    split; [apply handles_step_recycler; auto|].
    split; [intros Hp; apply handles_step_inv; auto|].
    split; [reflexivity|]. simpl. intros a Ha.
    eapply rewound_transfer; [apply handles_step_keeps; exact Hb | exact Ha].
  - eexists. split; [reflexivity|].
    split; [apply gc_drop_recycler; auto|].
    split; [intros Hp; apply gc_drop_inv; auto|].
    split; [reflexivity|]. simpl. auto.
Qed.

Lemma interfere_inv sz r ms s :
  recycler_inv sz r s ->
  exists s',
    interfere ms s = Ret (tt, s') /\ recycler_inv sz r s' /\
    (pool_inv sz r s -> pool_inv sz r s') /\
    current (sys_pool s') = current (sys_pool s) /\
    (forall a, rewound (sys_heap s) a -> rewound (sys_heap s') a).
Proof.
  revert s. induction ms as [|mv ms IH]; intros s Hinv.
  - exists s. simpl. auto.
  - destruct (do_move_inv sz r mv s Hinv) as (s1 & E1 & H1 & Hp1 & Hc1 & Hw1).
    destruct (IH s1 H1) as (s2 & E2 & H2 & Hp2 & Hc2 & Hw2).
    exists s2. split; [simpl; unfold bind; rewrite E1; exact E2|].
    split; [exact H2|]. split; [auto|]. split; [congruence | auto].
Qed.

(** What Get hands out during a swap is an arena that neither the recycler
    nor a goroutine holds any more. *)
Lemma taken_recycler sz r h m gs v m' h' :
  taken sz r h m v m' h' ->
  NoDup (pooled m ++ gs) ->
  Forall (shaped sz r h) (pooled m ++ gs) ->
  Forall (rewound h) (pooled m) ->
  NoDup (v :: pooled m' ++ gs) /\
  Forall (shaped sz r h') (v :: pooled m' ++ gs) /\
  Forall (rewound h') (v :: pooled m').
Proof.
  intros [[-> Hp]|(Hp & -> & Hg & Hk & Hs & Hw)] Hnd Hsh Hrw.
  - assert (Hperm : pooled m ++ gs ≡ₚ v :: pooled m' ++ gs)
      by (rewrite Hp; reflexivity).
    rewrite <- Hperm, <- Hp. auto.
  - rewrite Hp. split; [|split].
    + apply NoDup_cons. split; [|exact Hnd].
      intros Hin. apply (proj1 (Forall_forall _ _) Hsh), shaped_lt in Hin. lia.
    + constructor; [auto|].
      eapply Forall_impl; [exact Hsh|].
      intros a Ha. eapply shaped_transfer; eauto.
    + constructor; [auto|].
      eapply Forall_impl; [exact Hrw|].
      intros a Ha. eapply rewound_transfer; eauto.
Qed.

(** A lease granted by the current arena keeps the invariant. *)
Lemma granted_inv sz r h c m gs x n :
  0 <= r -> r * 10 <= sz ->
  pool_inv sz r (Sys h (mkPool sz r c m) gs) ->
  arenas h !! c = Some x -> 1 <= n <= r -> a_next x + n <= sz ->
  arena_GetWriter c n h =
    Ret ((lease c x n, None), set_arenas h (<[c := granted x n]> (arenas h))) /\
  pool_inv sz r (Sys (set_arenas h (<[c := granted x n]> (arenas h)))
                     (mkPool sz r c m) gs).
Proof.
  intros Hr0 Hr (_ & _ & Hnd & Hsh & Hrw) Ha Hn Hfit. simpl in *.
  pose proof Hsh as Hsh0. apply Forall_cons in Hsh0 as [Hc Hrest].
  destruct (GetWriter_shaped_granted sz r h c x n Hr0 Hr Hc Ha Hn Hfit) as [E' Hc'].
  split; [exact E'|].
  pose proof Hnd as Hnd0. apply NoDup_cons in Hnd0 as [Hnotin _].
  apply pool_inv_intro; [exact Hnd | | ].
  - constructor; [exact Hc'|].
    apply Forall_forall. intros a Hin.
    eapply shaped_transfer;
      [apply grows_set_arenas | apply keeps_insert_ne
      | exact (proj1 (Forall_forall _ _) Hrest a Hin)].
    intros ->. contradiction.
  - apply Forall_forall. intros a Hin.
    eapply rewound_transfer;
      [apply keeps_insert_ne | exact (proj1 (Forall_forall _ _) Hrw a Hin)].
    intros ->. apply Hnotin. apply elem_of_app. auto.
Qed.

(** ** A call of GetWriter with what runs beside it *)

(** Nothing runs beside a call that does not swap the current arena. *)
Lemma Pool_GetWriter_among_pass ms1 ms2 ms3 n pick s :
  (forall w h1,
     arena_GetWriter (current (sys_pool s)) n (sys_heap s)
       <> Ret ((w, Some arenaFullErr), h1)) ->
  Pool_GetWriter_among ms1 ms2 ms3 n pick s = Pool_GetWriter n pick s.
Proof.
  intros Hne.
  unfold Pool_GetWriter_among, Pool_getWriter_among, Pool_GetWriter, Pool_getWriter,
    bind, get_pool, lift.
  destruct (arena_GetWriter (current (sys_pool s)) n (sys_heap s))
    as [[[w err] h1]|p|] eqn:E; try reflexivity.
  destruct err as [[]|]; try reflexivity.
  exfalso. eapply Hne. reflexivity.
Qed.

Lemma Pool_GetWriter_among_nil n pick s :
  Pool_GetWriter_among [] [] [] n pick s = Pool_GetWriter n pick s.
Proof.
  unfold Pool_GetWriter_among, Pool_getWriter_among, Pool_GetWriter, Pool_getWriter,
    bind, get_pool, lift.
  destruct (arena_GetWriter (current (sys_pool s)) n (sys_heap s))
    as [[[w err] h1]|p|] eqn:E; try reflexivity.
  destruct err as [[]|]; reflexivity.
Qed.

(** The arena signals that it is full only for a request within the limit
    that does not fit. *)
Lemma GetWriter_full_inv sz r h a x n w h1 :
  0 <= r -> r * 10 <= sz -> shaped sz r h a -> arenas h !! a = Some x ->
  arena_GetWriter a n h = Ret ((w, Some arenaFullErr), h1) ->
  1 <= n <= r /\ sz < a_next x + n.
Proof.
  intros Hr0 Hr Hs Ha E.
  pose proof (shaped_arena_wf sz r h a x Hr0 Hr Hs Ha) as Hwf.
  destruct Hs as (x' & Ha' & Hok & Hlen & Hrx & Hnx & Hwg).
  rewrite Ha in Ha'. injection Ha' as <-.
  pose proof (slice_ok_len h _ Hok) as Hm.
  destruct (Z_lt_le_dec n 1) as [Hn|Hn];
    [rewrite GetWriter_invalid in E by auto; discriminate|].
  destruct (Z_lt_le_dec r n) as [Hbig|Hsmall].
  { destruct (Z_lt_le_dec maxAlloc n) as [Hb|Hb].
    - rewrite (GetWriter_too_large a x) in E by (auto; lia). discriminate.
    - rewrite (GetWriter_oversize a x) in E by (auto; lia). discriminate. }
  destruct (Z_lt_le_dec sz (a_next x + n)) as [Hfull|Hfit]; [lia|].
  rewrite (GetWriter_granted a x) in E by (auto; lia). discriminate.
Qed.

(** When the current arena is full for a request, the pool hands it to a
    reclamation goroutine and serves the request from the start of the
    arena that Get hands out, whatever runs beside the call; that arena is
    another one when nothing runs between handleDepleted and Get. *)
Lemma Pool_GetWriter_among_full sz r s n pick ms1 ms2 ms3 x :
  0 <= r -> r * 10 <= sz -> pool_inv sz r s ->
  arenas (sys_heap s) !! current (sys_pool s) = Some x ->
  1 <= n <= r -> sz < a_next x + n ->
  exists w s' x',
    Pool_GetWriter_among ms1 ms2 ms3 n pick s = Ret ((w, None), s') /\
    pool_inv sz r s' /\
    w_wg w = Some (current (sys_pool s')) /\ len (w_block w) = n /\
    arenas (sys_heap s') !! current (sys_pool s') = Some x' /\ a_next x' = n /\
    (ms2 = [] -> current (sys_pool s') <> current (sys_pool s)).
Proof.
  intros Hr0 Hr Hinv Hx Hn Hfull. pose proof (pool_inv_bounds _ _ _ Hinv) as Hsz.
  destruct s as [h [sz' r' c m] gs].
  pose proof Hinv as (Esz & Er & Hnd & Hsh & Hrw). simpl in *. subst sz' r'.
  pose proof Hsh as Hsh0. apply Forall_cons in Hsh0 as [Hc _].
  pose proof (shaped_arena_wf sz r h c x Hr0 Hr Hc Hx) as Hwf.
  assert (Hlen : len (a_block x) = sz).
  { destruct Hc as (x' & Hx' & _ & Hlen & _). congruence. }
  assert (Hxr : a_reasonable x = r).
  { destruct Hc as (x' & Hx' & _ & _ & Hxr & _). congruence. }
  pose proof (GetWriter_full c x n h Hx Hwf ltac:(lia) ltac:(lia)) as E1.
  (* before handleDepleted *)
  destruct (interfere_inv sz r ms1 _ (pool_inv_recycler _ _ _ Hinv))
    as ([h1 [sz1 r1 c1 m1] gs1] & I1 & _ & Hp1 & Hc1 & _).
  specialize (Hp1 Hinv). simpl in Hc1. subst c1.
  pose proof Hp1 as (Esz1 & Er1 & Hnd1 & Hsh1 & Hrw1). simpl in *. subst sz1 r1.
  (* the goroutine is started *)
  assert (Hperm : c :: pooled m1 ++ gs1 ≡ₚ pooled m1 ++ gs1 ++ [c]).
  { rewrite app_assoc. apply Permutation_cons_append. }
  assert (H2 : recycler_inv sz r (Sys h1 (mkPool sz r c m1) (gs1 ++ [c]))).
  { apply recycler_inv_intro; [rewrite <- Hperm | rewrite <- Hperm |]; auto. }
  destruct (interfere_inv sz r ms2 _ H2)
    as ([h3 [sz3 r3 c3 m3] gs3] & I2 & H3 & _ & Hc3 & _).
  simpl in Hc3. subst c3.
  pose proof H3 as (Esz3 & Er3 & Hnd3 & Hsh3 & Hrw3). simpl in *. subst sz3 r3.
  (* Get *)
  destruct (Get_taken sz r h3 (mkPool sz r c m3) gs3 m3 pick Hr0 Hr)
    as (v & m' & h' & EG & Htaken); [lia|].
  destruct (taken_recycler sz r h3 m3 gs3 v m' h' Htaken Hnd3 Hsh3 Hrw3)
    as (Hnd' & Hsh' & Hrw').
  apply Forall_cons in Hrw' as [Hv0 Hrw'].
  assert (H4 : pool_inv sz r (Sys h' (mkPool sz r v m') gs3))
    by (apply pool_inv_intro; auto).
  (* before the request is repeated *)
  destruct (interfere_inv sz r ms3 _ (pool_inv_recycler _ _ _ H4))
    as ([h5 [sz5 r5 c5 m5] gs5] & I3 & _ & Hp5 & Hc5 & Hw5).
  specialize (Hp5 H4). simpl in Hc5. subst c5.
  pose proof Hp5 as (Esz5 & Er5 & _). simpl in *. subst sz5 r5.
  destruct (Hw5 v Hv0) as (xv & Hxv & Hnv).
  destruct (granted_inv sz r h5 v m5 gs5 xv n Hr0 Hr Hp5 Hxv Hn ltac:(lia))
    as (E5 & Hp6).
  exists (lease v xv n), (Sys (set_arenas h5 (<[v := granted xv n]> (arenas h5)))
                               (mkPool sz r v m5) gs5), (granted xv n).
  split.
  { unfold Pool_GetWriter_among, Pool_getWriter_among, bind, get_pool, lift.
    cbn [sys_heap sys_pool goroutines size reasonable current pool].
    rewrite E1. rewrite I1. unfold Pool_handleDepleted, spawn.
    cbn [sys_heap sys_pool goroutines size reasonable current pool].
    rewrite I2.
    cbn [sys_heap sys_pool goroutines size reasonable current pool].
    rewrite EG. unfold set_pool, set_current.
    cbn [sys_heap sys_pool goroutines size reasonable current pool].
    rewrite I3.
    cbn [sys_heap sys_pool goroutines size reasonable current pool].
    rewrite E5. reflexivity. }
  split; [exact Hp6|]. split; [reflexivity|].
  split; [unfold len; simpl; lia|].
  split; [simpl; apply list_lookup_insert_eq; eapply lookup_lt_Some; eauto|].
  split; [simpl; lia|].
  simpl. intros ->. simpl in I2. injection I2 as <- <- <-.
  apply NoDup_cons in Hnd' as [Hnotin _].
  intros ->. apply Hnotin. rewrite !elem_of_app, list_elem_of_singleton. auto.
Qed.

(** One call of GetWriter on a pool that satisfies the invariant, with
    whatever runs beside it: it returns, the invariant still holds, and the
    error is never the full signal; for a size above zero there is no
    error at all.  The call can only panic when the runtime refuses an
    oversized allocation. *)
Lemma Pool_GetWriter_among_inv sz r s n pick ms1 ms2 ms3 :
  0 <= r -> r * 10 <= sz -> pool_inv sz r s ->
  match Pool_GetWriter_among ms1 ms2 ms3 n pick s with
  | Ret ((w, err), s') =>
      pool_inv sz r s' /\ err <> Some arenaFullErr /\ (0 < n -> err = None)
  | Panic _ => maxAlloc < n
  | Block => False
  end.
Proof.
  intros Hr0 Hr Hinv.
  pose proof Hinv as (_ & _ & _ & Hsh & _).
  apply Forall_cons in Hsh as [Hc _]. pose proof Hc as (x & Hx & _).
  destruct (decide (1 <= n <= r /\ sz < a_next x + n)) as [[Hn Hfull]|Hno].
  - destruct (Pool_GetWriter_among_full sz r s n pick ms1 ms2 ms3 x
                Hr0 Hr Hinv Hx Hn Hfull) as (w & s' & x' & E & Hinv' & _).
    rewrite E. split; [exact Hinv'|]. split; [discriminate | reflexivity].
  - rewrite Pool_GetWriter_among_pass.
    + apply Pool_GetWriter_inv; auto.
    + intros w h1 E. apply Hno.
      eapply GetWriter_full_inv; eauto.
Qed.

Lemma step_inv sz r s s' :
  0 <= r -> r * 10 <= sz -> pool_inv sz r s -> step s s' -> pool_inv sz r s'.
Proof.
  intros Hr0 Hr Hinv Hstep.
  destruct Hstep as [n pick ms1 ms2 ms3 s [w err] s' E|i s s' E|s h' Hh|i s].
  - pose proof (Pool_GetWriter_among_inv sz r s n pick ms1 ms2 ms3 Hr0 Hr Hinv) as H.
    rewrite E in H. tauto.
  - eapply run_goroutine_inv; eauto.
  - apply handles_step_inv; auto.
  - apply gc_drop_inv; auto.
Qed.

Lemma reachable_inv sz r buf s :
  0 <= r -> r * 10 <= sz -> reachable sz r buf s -> pool_inv sz r s.
Proof.
  intros Hr0 Hr Hreach. induction Hreach as [h0 q h E|s s' _ IH Hstep].
  - eapply New_inv; eauto.
  - eapply step_inv; eauto.
Qed.

(** ** What the handles can do to the heap *)

Lemma Forall2_diag {A} (R : A -> A -> Prop) (l : list A) :
  (forall x, R x x) -> Forall2 R l l.
Proof. intros HR. induction l; constructor; auto. Qed.

Lemma handles_step_refl h : handles_step h h.
Proof. split; apply Forall2_diag; auto. Qed.

Lemma handles_step_trans h1 h2 h3 :
  handles_step h1 h2 -> handles_step h2 h3 -> handles_step h1 h3.
Proof.
  intros [A1 B1] [A2 B2]. split.
  - eapply Forall2_trans; [|exact A1|exact A2]. simpl. intros; congruence.
  - eapply Forall2_trans; [|exact B1|exact B2]. simpl.
    intros x y z (? & ? & ? & ?) (? & ? & ? & ?). repeat split; try congruence; auto.
Qed.

Lemma WaitGroup_Add_handles_step wg d h h' :
  WaitGroup_Add wg d h = Ret (tt, h') -> handles_step h h'.
Proof.
  unfold WaitGroup_Add. destruct wg as [i|]; [|discriminate].
  destruct (arenas h !! i) as [x|] eqn:Hi; [|discriminate].
  destruct (a_wg x + d <? 0) eqn:E; [discriminate|]. apply Z.ltb_ge in E.
  intros [= <-]. split; simpl.
  - apply Forall2_diag. auto.
  - rewrite <- (list_insert_id _ _ _ Hi) at 1.
    apply Forall2_insert; [apply Forall2_diag; auto|]. simpl. auto.
Qed.

Lemma Writer_Release_handles_step w h w' h' :
  Writer_Release w h = Ret (w', h') -> handles_step h h'.
Proof.
  unfold Writer_Release, WaitGroup_Done, bind, ret.
  destruct (w_wg w); [destruct (w_once w)|];
    try (intros [= <- <-]; apply handles_step_refl).
  destruct (WaitGroup_Add (Some n) (-1) h) as [[[] h1]| |] eqn:E; try discriminate.
  intros [= <- <-]. eapply WaitGroup_Add_handles_step; eauto.
Qed.

Lemma Reader_Release_handles_step r h r' h' :
  Reader_Release r h = Ret (r', h') -> handles_step h h'.
Proof.
  unfold Reader_Release, WaitGroup_Done, bind, ret.
  destruct (r_wg r); [destruct (r_once r)|];
    try (intros [= <- <-]; apply handles_step_refl).
  destruct (WaitGroup_Add (Some n) (-1) h) as [[[] h1]| |] eqn:E; try discriminate.
  intros [= <- <-]. eapply WaitGroup_Add_handles_step; eauto.
Qed.

Lemma Writer_Reader_handles_step w h res h' :
  Writer_Reader w h = Ret (res, h') -> handles_step h h'.
Proof.
  unfold Writer_Reader, bind at 1.
  destruct (WaitGroup_Add (w_wg w) 1 h) as [[[] h1]| |] eqn:E1; try discriminate.
  unfold bind, ret.
  destruct (Writer_Release w h1) as [[w1 h2]| |] eqn:E2; try discriminate.
  intros [= <- <-].
  eapply handles_step_trans;
    [eapply WaitGroup_Add_handles_step | eapply Writer_Release_handles_step]; eauto.
Qed.

Lemma Reader_Read_heap r b h res h' :
  Reader_Read r b h = Ret (res, h') -> h' = h.
Proof.
  unfold Reader_Read, bind, reslice, ret, throw.
  destruct (len (r_block r) <=? r_at r); [intros [= <- <-]; reflexivity|].
  destruct ((0 <=? r_at r) && (r_at r <=? len (r_block r))
            && (len (r_block r) <=? Z.of_nat (s_cap (r_block r))));
    [|discriminate].
  destruct (copy_out _ _) as [n b'].
  destruct (_ =? _); intros [= <- <-]; reflexivity.
Qed.

Lemma length_overwrite o src l :
  (o + length src <= length l)%nat -> length (overwrite o src l) = length l.
Proof.
  intros H. unfold overwrite. rewrite !length_app, length_take, length_drop. lia.
Qed.

Lemma write_heap_handles_step h s i src :
  slice_ok h s -> (i + length src <= s_len s)%nat ->
  handles_step h (write_heap h s i src).
Proof.
  intros (l & Hl & Ho & Hc & _) Hi. split; simpl.
  - apply Forall2_alter_r; [apply Forall2_diag; auto|].
    intros x y Hx Hy ->. rewrite length_overwrite; [reflexivity|].
    assert (y = l) by congruence. subst y. lia.
  - apply Forall2_diag. auto.
Qed.

(** Writing through a handle changes bytes only. *)
Lemma Writer_Write_handles_step w b h res h' :
  slice_ok h (w_block w) -> 0 <= w_at w ->
  Writer_Write w b h = Ret (res, h') -> handles_step h h'.
Proof.
  intros Hok Hat. pose proof (slice_ok_len _ _ Hok) as Hlen.
  destruct (Z_le_gt_dec (len (w_block w)) (w_at w)) as [Hfull|Hroom].
  - unfold Writer_Write.
    replace (len (w_block w) <=? w_at w) with true by (symmetry; apply Z.leb_le; lia).
    intros [= <- <-]. apply handles_step_refl.
  - destruct (Z_le_gt_dec (Z.of_nat (length b)) (len (w_block w) - w_at w)) as [Hfit|Hshort].
    + rewrite Writer_Write_fits by (auto; lia). intros [= <- <-].
      apply write_heap_handles_step; [auto | unfold len in *; lia].
    + rewrite Writer_Write_short by (auto; lia). intros [= <- <-].
      apply write_heap_handles_step; [auto|].
      rewrite length_take. unfold len in *. lia.
Qed.

(** ** The pool never reports a full arena *)

(** C3: in every state of a pool made by New with limit*10 <= size, a
    request of a size above zero never comes back with the arena-full
    error, whatever the recycler holds and hands out and whatever the
    reclamation goroutines, the holders of handles and the runtime do
    beside the call: the call returns a handle with no error (short of the
    runtime refusing an oversized allocation), and when the current arena
    signals that it is full the handle is a lease of the requested size
    from the start of the arena that is current afterwards, the one that
    Get handed out; that arena is another one than the depleted arena when
    nothing runs between handleDepleted and Get. *)
Theorem C3_pool_never_arena_full sz r buf s n pick ms1 ms2 ms3 :
  0 <= r -> r * 10 <= sz -> reachable sz r buf s -> 0 < n ->
  (forall w s',
     Pool_GetWriter_among ms1 ms2 ms3 n pick s
       <> Ret ((w, Some arenaFullErr), s')) /\
  (n <= maxAlloc ->
   exists w s', Pool_GetWriter_among ms1 ms2 ms3 n pick s = Ret ((w, None), s')) /\
  (forall w0,
     arena_GetWriter (current (sys_pool s)) n (sys_heap s)
       = Ret ((w0, Some arenaFullErr), sys_heap s) ->
     exists w s' x',
       Pool_GetWriter_among ms1 ms2 ms3 n pick s = Ret ((w, None), s') /\
       w_wg w = Some (current (sys_pool s')) /\ len (w_block w) = n /\
       arenas (sys_heap s') !! current (sys_pool s') = Some x' /\
       a_next x' = n /\
       (ms2 = [] -> current (sys_pool s') <> current (sys_pool s))).
Proof.
  intros Hr0 Hr Hreach Hn.
  pose proof (reachable_inv sz r buf s Hr0 Hr Hreach) as Hinv.
  pose proof (Pool_GetWriter_among_inv sz r s n pick ms1 ms2 ms3 Hr0 Hr Hinv) as H.
  split; [|split].
  - intros w s' E. rewrite E in H. destruct H as (_ & Hne & _). congruence.
  - intros Hm.
    destruct (Pool_GetWriter_among ms1 ms2 ms3 n pick s) as [[[w err] s']|p|].
    + destruct H as (_ & _ & Hnone). rewrite (Hnone Hn). eauto.
    + lia.
    + contradiction.
  - intros w0 Hfull.
    pose proof Hinv as (_ & _ & _ & Hsh & _).
    apply Forall_cons in Hsh as [Hc _]. pose proof Hc as (x & Hx & _).
    destruct (GetWriter_full_inv sz r _ _ x n w0 _ Hr0 Hr Hc Hx Hfull) as [Hnr Hf].
    destruct (Pool_GetWriter_among_full sz r s n pick ms1 ms2 ms3 x
                Hr0 Hr Hinv Hx Hnr Hf)
      as (w & s' & x' & E & _ & Hw & Hl & Hx' & Hn' & Hne).
    exists w, s', x'. auto 10.
Qed.

Ltac advance R n :=
  match type of R with
  | reachable ?sz ?r ?buf ?s =>
      let o := eval vm_compute in (Pool_GetWriter n None s) in
      match o with
      | Ret (?res, ?s') =>
          let R' := fresh "R" in
          assert (R' : reachable sz r buf s')
            by (apply (reachable_step sz r buf s s' R);
                apply (step_GetWriter n None [] [] [] s res s');
                vm_compute; reflexivity);
          clear R; rename R' into R
      end
  end.

Ltac released R h' :=
  match type of R with
  | reachable ?sz ?r ?buf ?s =>
      let R' := fresh "R" in
      assert (R' : reachable sz r buf (Sys h' (sys_pool s) (goroutines s)))
        by (apply (reachable_step sz r buf s _ R);
            apply (step_handles s h');
            apply handles_stepb_spec; vm_compute; reflexivity);
      clear R; rename R' into R; cbn [sys_pool goroutines] in R
  end.

Lemma C3_pool_never_arena_full_witness :
  exists s w s',
    reachable 40 4 1 s /\
    arena_GetWriter (current (sys_pool s)) 4 (sys_heap s)
      = Ret ((Writer_zero, Some arenaFullErr), sys_heap s) /\
    Pool_GetWriter_among [] [m_goroutine 0] [] 4 None s = Ret ((w, None), s') /\
    w_wg w = Some (current (sys_pool s')) /\
    current (sys_pool s') = current (sys_pool s).
Proof.
  assert (R : reachable 40 4 1
                (Sys (Heap [replicate 40 x00] [Arena 0 (Slice 0 0 40 40) 4 0])
                     (mkPool 40 4 0 (mempool.NewPool 1)) []))
    by (apply (reachable_New 40 4 1 (Heap [] [])); vm_compute; reflexivity).
  do 10 (advance R 4).
  released R (Heap [replicate 40 x00] [Arena 0 (Slice 0 0 40 40) 4 40]).
  match type of R with reachable _ _ _ ?s => exists s end.
  destruct (C3_pool_never_arena_full 40 4 1 _ 4 None [] [m_goroutine 0] []
              ltac:(lia) ltac:(lia) R ltac:(lia))
    as (_ & _ & Hswap).
  destruct (Hswap Writer_zero) as (w & s' & x' & E & Hwg & _);
    [vm_compute; reflexivity|].
  exists w, s'. split; [exact R|]. split; [vm_compute; reflexivity|].
  split; [exact E|]. split; [exact Hwg|].
  vm_compute in E. injection E as <- <-. reflexivity.
Defined.

(** * Further properties of the code *)

(** ** Writing through a handle *)

Ltac concrete_arith :=
  repeat split; first [lia | vm_compute; first [reflexivity | discriminate]].

Ltac concrete_slice_ok :=
  eexists; split; [reflexivity|]; simpl; repeat split; try lia;
  vm_compute; discriminate.

Lemma Writer_Write_full h w b :
  len (w_block w) <= w_at w ->
  Writer_Write w b h = Ret ((0, Some ErrShortWrite, w), h).
Proof.
  intros H. unfold Writer_Write.
  replace (len (w_block w) <=? w_at w) with true by (symmetry; apply Z.leb_le; lia).
  reflexivity.
Qed.

Lemma overwrite_app o b1 b2 l :
  (o + length b1 + length b2 <= length l)%nat ->
  overwrite (o + length b1) b2 (overwrite o b1 l) = overwrite o (b1 ++ b2) l.
Proof.
  intros H. unfold overwrite at 1 3.
  assert (E1 : take (o + length b1) (overwrite o b1 l) = take o l ++ b1).
  { unfold overwrite. rewrite app_assoc. apply take_app_length'.
    rewrite length_app, length_take. lia. }
  assert (E2 : drop (o + length b1 + length b2) (overwrite o b1 l)
               = drop (o + length (b1 ++ b2)) l).
  { unfold overwrite. rewrite app_assoc.
    rewrite drop_app_ge by (rewrite length_app, length_take; lia).
    rewrite length_app, length_take, drop_drop, length_app. f_equal. lia. }
  rewrite E1, E2, <- !app_assoc. reflexivity.
Qed.

Lemma write_heap_app h s i b1 b2 :
  slice_ok h s -> (i + length b1 + length b2 <= s_len s)%nat ->
  write_heap (write_heap h s i b1) s (i + length b1) b2
  = write_heap h s i (b1 ++ b2).
Proof.
  intros (l & Hl & Ho & Hc & _) Hi. unfold write_heap, set_arrays. simpl.
  f_equal. rewrite list_alter_alter_eq.
  apply list_alter_ext; [|reflexivity].
  intros x Hx. assert (x = l) by congruence. subst x. simpl.
  rewrite Nat.add_assoc. apply overwrite_app. lia.
Qed.

(** X1: two writes that fit one after the other do what one write of the
    concatenation does: same bytes in the block, same cursor, and the two
    counts add up to the count of the single write, all without error. *)
Theorem Writer_Write_append h w b1 b2 :
  slice_ok h (w_block w) -> 0 <= w_at w -> (0 < length b2)%nat ->
  w_at w + Z.of_nat (length b1) + Z.of_nat (length b2) <= len (w_block w) ->
  exists w' h',
    Writer_Write w (b1 ++ b2) h =
      Ret ((Z.of_nat (length b1) + Z.of_nat (length b2), None, w'), h') /\
    (let! '(n1, e1, w1) := Writer_Write w b1 in
     let! '(n2, e2, w2) := Writer_Write w1 b2 in
     ret (n1, e1, (n2, e2), w2)) h =
      Ret ((Z.of_nat (length b1), None, (Z.of_nat (length b2), None), w'), h').
Proof.
  intros Hok Hat Hb2 Hfit.
  assert (Hok1 : slice_ok (write_heap h (w_block w) (Z.to_nat (w_at w)) b1) (w_block w))
    by (apply slice_ok_write_heap; auto; unfold len in *; lia).
  do 2 eexists. split.
  - rewrite Writer_Write_fits by (auto; rewrite ?length_app; lia).
    rewrite length_app, Nat2Z.inj_add. reflexivity.
  - unfold bind. rewrite Writer_Write_fits by (auto; lia).
    rewrite Writer_Write_fits by (auto; simpl; lia).
    unfold ret. simpl.
    replace (Z.to_nat (w_at w + Z.of_nat (length b1)))
      with (Z.to_nat (w_at w) + length b1)%nat by lia.
    rewrite write_heap_app by (auto; unfold len in *; lia).
    unfold Writer_set_at. simpl. rewrite Z.add_assoc. reflexivity.
Qed.

Lemma Writer_Write_append_witness :
  exists w' h',
    (let! '(n1, e1, w1) :=
       Writer_Write (mkWriter (Slice 0 1 4 4) 1 false None) [x07] in
     let! '(n2, e2, w2) := Writer_Write w1 [x08; x09] in
     ret (n1, e1, (n2, e2), w2)) (Heap [[x01; x02; x03; x04; x05]] []) =
      Ret ((1, None, (2, None), w'), h') /\
    slice_bytes h' (Slice 0 1 4 4) = [x02; x07; x08; x09].
Proof.
  destruct (Writer_Write_append (Heap [[x01; x02; x03; x04; x05]] [])
              (mkWriter (Slice 0 1 4 4) 1 false None) [x07] [x08; x09])
    as (w' & h' & E1 & E2); simpl; try lia.
  - concrete_slice_ok.
  - unfold len; simpl; lia.
  - exists w', h'. split; [exact E2|].
    vm_compute in E1. injection E1 as <- <-. reflexivity.
Defined.

Lemma overwrite_lookup_outside o src l j :
  (o + length src <= length l)%nat ->
  (j < o \/ o + length src <= j)%nat ->
  overwrite o src l !! j = l !! j.
Proof.
  intros Hl Hj. unfold overwrite. destruct Hj as [Hj|Hj].
  - rewrite lookup_app_l by (rewrite length_take; lia).
    apply lookup_take_lt. lia.
  - rewrite lookup_app_r by (rewrite length_take; lia).
    rewrite length_take.
    rewrite lookup_app_r by lia.
    rewrite lookup_drop. f_equal. lia.
Qed.

Lemma slice_bytes_write_heap_frame h s i src s' :
  slice_ok h s -> (i + length src <= s_len s)%nat ->
  disjoint s s' ->
  slice_bytes (write_heap h s i src) s' = slice_bytes h s'.
Proof.
  intros (l & Hl & Ho & Hc & _) Hi Hd. unfold slice_bytes, write_heap. simpl.
  destruct (decide (s_arr s = s_arr s')) as [E|E].
  2:{ rewrite list_lookup_alter_ne by auto. reflexivity. }
  rewrite <- E, list_lookup_alter_eq, Hl. simpl.
  destruct Hd as [Hd|Hd]; [congruence|].
  apply list_eq. intros j. rewrite !lookup_take. case_decide; [|reflexivity].
  rewrite !lookup_drop. apply overwrite_lookup_outside; lia.
Qed.

(** X2: a Write through a handle, whatever the bytes given and whether it
    fits, is refused or is cut short, changes no byte of a slice that is
    disjoint from the block of the handle (another lease of the same arena,
    or a slice of another array), and changes no arena. *)
Theorem Writer_Write_isolated h w b s' res h' :
  slice_ok h (w_block w) -> 0 <= w_at w ->
  disjoint (w_block w) s' ->
  Writer_Write w b h = Ret (res, h') ->
  slice_bytes h' s' = slice_bytes h s' /\ arenas h' = arenas h.
Proof.
  intros Hok Hat Hd. pose proof (slice_ok_len _ _ Hok) as Hlen.
  destruct (Z_le_gt_dec (len (w_block w)) (w_at w)) as [Hfull|Hroom].
  - rewrite Writer_Write_full by auto. intros [= <- <-]. auto.
  - destruct (Z_le_gt_dec (Z.of_nat (length b)) (len (w_block w) - w_at w))
      as [Hfit|Hshort].
    + rewrite Writer_Write_fits by (auto; lia). intros [= <- <-].
      split; [|reflexivity].
      apply slice_bytes_write_heap_frame; auto. unfold len in *. lia.
    + rewrite Writer_Write_short by (auto; lia). intros [= <- <-].
      split; [|reflexivity].
      apply slice_bytes_write_heap_frame; auto.
      rewrite length_take. unfold len in *. lia.
Qed.

Lemma Writer_Write_isolated_witness :
  exists res h',
    Writer_Write (mkWriter (Slice 0 0 2 6) 0 false None) [x07; x08; x09]
                 (Heap [[x01; x02; x03; x04; x05; x06]] []) = Ret (res, h') /\
    slice_bytes h' (Slice 0 2 4 4) = [x03; x04; x05; x06].
Proof.
  do 2 eexists. split; [vm_compute; reflexivity|].
  refine (proj1 (Writer_Write_isolated
    (Heap [[x01; x02; x03; x04; x05; x06]] [])
    (mkWriter (Slice 0 0 2 6) 0 false None) [x07; x08; x09] (Slice 0 2 4 4)
    _ _ _ _ _ _)); simpl; try lia.
  - concrete_slice_ok.
  - right; left. simpl. lia.
  - vm_compute. reflexivity.
Defined.

Lemma Writer_Len_Cap w :
  0 <= w_at w <= len (w_block w) -> len (w_block w) <= maxAlloc ->
  Writer_Len w = Writer_Cap w - w_at w.
Proof.
  intros Hat Hm. pose proof int_bounds. unfold Writer_Len, Writer_Cap.
  apply wrap_int_small. lia.
Qed.

Lemma writer_ops_cursor ops :
  forall h w,
    slice_ok h (w_block w) -> 0 <= w_at w <= len (w_block w) ->
    exists rs w' h',
      writer_ops ops w h = Ret ((rs, w'), h') /\
      w_block w' = w_block w /\
      0 <= w_at w' <= len (w_block w) /\
      w_at w' = accepted (w_at w) rs /\
      handles_step h h'.
Proof.
  induction ops as [|[b|] ops IH]; intros h w Hok Hat.
  - exists [], w, h.
    split; [reflexivity|]. split; [reflexivity|]. split; [lia|].
    split; [reflexivity | apply handles_step_refl].
  - pose proof (slice_ok_len _ _ Hok) as Hlen. simpl. unfold bind at 1.
    destruct (Z_le_gt_dec (len (w_block w)) (w_at w)) as [Hfull|Hroom];
      [|destruct (Z_le_gt_dec (Z.of_nat (length b)) (len (w_block w) - w_at w))
          as [Hfit|Hshort]].
    + rewrite Writer_Write_full by auto.
      destruct (IH h w Hok Hat) as (rs & w' & h' & E & Hb & Hc & Ha & Hs).
      unfold bind. rewrite E. exists (Some (0, Some ErrShortWrite) :: rs), w', h'.
      split; [reflexivity|]. split; [exact Hb|]. split; [exact Hc|].
      split; [exact Ha | exact Hs].
    + rewrite Writer_Write_fits by (auto; lia).
      set (h1 := write_heap h (w_block w) (Z.to_nat (w_at w)) b).
      set (w1 := Writer_set_at w (w_at w + Z.of_nat (length b))).
      assert (Hi : (Z.to_nat (w_at w) + length b <= s_len (w_block w))%nat)
        by (unfold len in *; lia).
      destruct (IH h1 w1) as (rs & w' & h' & E & Hb & Hc & Ha & Hs).
      { apply slice_ok_write_heap; auto. }
      { simpl. lia. }
      unfold bind. rewrite E.
      exists (Some (Z.of_nat (length b), None) :: rs), w', h'.
      split; [reflexivity|]. split; [exact Hb|]. split; [exact Hc|].
      split; [exact Ha|].
      eapply handles_step_trans; [|exact Hs].
      apply write_heap_handles_step; auto.
    + rewrite Writer_Write_short by (auto; lia).
      set (h1 := write_heap h (w_block w) (Z.to_nat (w_at w))
                            (take (Z.to_nat (len (w_block w) - w_at w)) b)).
      assert (Hi : (Z.to_nat (w_at w)
                    + length (take (Z.to_nat (len (w_block w) - w_at w)) b)
                    <= s_len (w_block w))%nat)
        by (rewrite length_take; unfold len in *; lia).
      destruct (IH h1 w) as (rs & w' & h' & E & Hb & Hc & Ha & Hs).
      { apply slice_ok_write_heap; auto. }
      { lia. }
      unfold bind. rewrite E.
      exists (Some (len (w_block w) - w_at w, Some ErrShortWrite) :: rs), w', h'.
      split; [reflexivity|]. split; [exact Hb|]. split; [exact Hc|].
      split; [exact Ha|].
      eapply handles_step_trans; [|exact Hs].
      apply write_heap_handles_step; auto.
  - pose proof (slice_ok_len _ _ Hok) as Hlen. simpl.
    destruct (IH h (Writer_Reset w)) as (rs & w' & h' & E & Hb & Hc & Ha & Hs);
      [exact Hok | simpl; lia |].
    unfold bind. rewrite E. exists (None :: rs), w', h'.
    split; [reflexivity|]. split; [exact Hb|]. split; [exact Hc|].
    split; [exact Ha | exact Hs].
Qed.

(** X3: over any sequence of Write and Reset calls on a handle, no call
    panics, the cursor stays between 0 and the capacity, Len() is the
    capacity minus the cursor, the cursor is exactly the number of bytes
    accepted without error since the last Reset (so these never exceed the
    capacity), and in the heap only bytes change. *)
Theorem writer_ops_within_capacity ops h w :
  slice_ok h (w_block w) -> 0 <= w_at w <= len (w_block w) ->
  exists rs w' h',
    writer_ops ops w h = Ret ((rs, w'), h') /\
    0 <= w_at w' <= Writer_Cap w' /\
    Writer_Len w' = Writer_Cap w' - w_at w' /\
    accepted (w_at w) rs = w_at w' /\
    Writer_Cap w' = Writer_Cap w /\
    handles_step h h'.
Proof.
  intros Hok Hat. pose proof (slice_ok_len _ _ Hok) as Hlen.
  destruct (writer_ops_cursor ops h w Hok Hat)
    as (rs & w' & h' & E & Hb & Hc & Ha & Hs).
  exists rs, w', h'. unfold Writer_Cap. rewrite Hb.
  split; [exact E|]. split; [exact Hc|]. split; [|auto].
  rewrite <- Hb. apply Writer_Len_Cap; rewrite Hb; lia.
Qed.

Lemma writer_ops_within_capacity_witness :
  exists rs w' h',
    writer_ops [WWrite [x01; x02]; WWrite [x03; x04; x05]; WWrite [x06];
                WReset; WWrite [x07]]
               (mkWriter (Slice 0 0 4 4) 0 false None)
               (Heap [[x00; x00; x00; x00]] []) = Ret ((rs, w'), h') /\
    accepted 0 rs = 1 /\ w_at w' = 1.
Proof.
  destruct (writer_ops_within_capacity
              [WWrite [x01; x02]; WWrite [x03; x04; x05]; WWrite [x06];
               WReset; WWrite [x07]]
              (Heap [[x00; x00; x00; x00]] [])
              (mkWriter (Slice 0 0 4 4) 0 false None))
    as (rs & w' & h' & E & _ & _ & Ha & _).
  - concrete_slice_ok.
  - unfold len; simpl; lia.
  - exists rs, w', h'. split; [exact E|].
    vm_compute in E. injection E as <- <- <-. split; reflexivity.
Defined.

(** ** Reading through a handle *)

Lemma slice_bytes_sub h s (i n c : nat) :
  (i + n <= s_len s)%nat ->
  slice_bytes h (Slice (s_arr s) (s_off s + i) n c)
  = take n (drop i (slice_bytes h s)).
Proof.
  intros Hi. unfold slice_bytes. simpl.
  rewrite <- drop_drop.
  rewrite (take_drop_commute (take _ _)), take_take, take_drop_commute.
  do 2 f_equal. lia.
Qed.

(** The unread bytes of a Reader. *)
Lemma Reader_Bytes_unread {S} h r (st : S) :
  slice_ok h (r_block r) -> 0 <= r_at r <= len (r_block r) ->
  exists s,
    Reader_Bytes r st = Ret (s, st) /\
    slice_bytes h s = drop (Z.to_nat (r_at r)) (slice_bytes h (r_block r)) /\
    len s = len (r_block r) - r_at r.
Proof.
  intros Hok Hat.
  assert (Hcap : (s_len (r_block r) <= s_cap (r_block r))%nat)
    by (destruct Hok as (? & ? & ? & ? & ?); lia).
  eexists. unfold Reader_Bytes. rewrite reslice_tail by auto.
  split; [reflexivity|]. split.
  - apply slice_bytes_tail.
  - unfold len in *. simpl. lia.
Qed.

(** X4: one round of TestPool never trips one of the test's panics: on a
    fresh arena-backed handle whose capacity is the length of the content,
    the first Write takes the whole content without error, the second Write
    is refused with 0 bytes and io.ErrShortWrite, the bytes the consumer
    gets from Bytes() are the content, and after the consumer's Release the
    counter of the arena is one less than before the round. *)
Theorem test_round_passes h w content i a :
  slice_ok h (w_block w) ->
  w_at w = 0 -> w_once w = false -> w_wg w = Some i ->
  arenas h !! i = Some a -> 1 <= a_wg a ->
  (0 < length content)%nat -> length content = s_len (w_block w) ->
  exists h',
    test_round content w h =
      Ret (((Z.of_nat (length content), None), (0, Some ErrShortWrite), content), h') /\
    arenas h' !! i =
      Some (Arena (a_wg a - 1) (a_block a) (a_reasonable a) (a_next a)).
Proof.
  intros Hok Hat Honce Hwg Ha Hc Hpos Hlen.
  set (h1 := write_heap h (w_block w) 0 content).
  assert (Hok1 : slice_ok h1 (w_block w))
    by (apply slice_ok_write_heap; auto; simpl; lia).
  unfold test_round, bind.
  rewrite Writer_Write_fits by (rewrite ?Hat; unfold len; auto; lia).
  rewrite Hat. simpl Z.to_nat. fold h1.
  rewrite Writer_Write_full by (simpl; unfold len; lia).
  rewrite (Writer_Reader_leased h1 _ i a) by (auto; simpl; auto; lia).
  destruct (Reader_Bytes_unread h1 (mkReader (w_block w) 0 false (Some i)) h1)
    as (s & Es & Hs & _); [exact Hok1 | simpl; unfold len; lia |].
  simpl in Es. unfold Writer_set_at in *. simpl. rewrite Es.
  unfold Reader_Release, WaitGroup_Done, WaitGroup_Add, bind, ret. simpl.
  replace (arenas h1) with (arenas h) by reflexivity. rewrite Ha.
  replace (a_wg a + -1 <? 0) with false by (symmetry; apply Z.ltb_ge; lia).
  eexists. split.
  - do 3 f_equal. rewrite Hs. simpl. rewrite drop_0. unfold h1.
    rewrite slice_bytes_write_heap by (auto; simpl; lia).
    simpl. rewrite drop_ge by (rewrite length_slice_bytes by auto; lia).
    apply app_nil_r.
  - simpl. rewrite list_lookup_insert_eq by (eapply lookup_lt_Some; eauto).
    do 2 f_equal; lia.
Qed.

Lemma test_round_passes_witness :
  exists h',
    test_round [x01; x02; x03]
               (mkWriter (Slice 0 1 3 3) 0 false (Some 0%nat))
               (Heap [[x09; x09; x09; x09]] [Arena 1 (Slice 0 0 4 4) 0 4]) =
      Ret (((3, None), (0, Some ErrShortWrite), [x01; x02; x03]), h').
Proof.
  destruct (test_round_passes
              (Heap [[x09; x09; x09; x09]] [Arena 1 (Slice 0 0 4 4) 0 4])
              (mkWriter (Slice 0 1 3 3) 0 false (Some 0%nat))
              [x01; x02; x03] 0 (Arena 1 (Slice 0 0 4 4) 0 4))
    as (h' & E & _); simpl; try reflexivity; try lia.
  - concrete_slice_ok.
  - exists h'. exact E.
Defined.

(** One call of Read: it hands out the first bytes of the unread part, as
    many as the buffer takes, moves the cursor past them and leaves the heap
    alone; it reports end-of-data exactly when nothing is left unread. *)
Lemma Reader_Read_unread h r b :
  slice_ok h (r_block r) -> 0 <= r_at r <= len (r_block r) ->
  let unread := drop (Z.to_nat (r_at r)) (slice_bytes h (r_block r)) in
  let n := Nat.min (length b) (length unread) in
  Reader_Read r b h =
    Ret ((Z.of_nat n,
          (if r_at r + Z.of_nat n =? len (r_block r) then Some EOF else None),
          take n unread ++ drop n b,
          Reader_set_at r (r_at r + Z.of_nat n)), h).
Proof.
  intros Hok Hat unread n. pose proof (slice_ok_len _ _ Hok) as Hlen.
  pose proof (length_slice_bytes _ _ Hok) as Hbytes. pose proof int_bounds.
  assert (Hcap : (s_len (r_block r) <= s_cap (r_block r))%nat)
    by (destruct Hok as (? & ? & ? & ? & ?); lia).
  assert (Hun : length unread = (s_len (r_block r) - Z.to_nat (r_at r))%nat)
    by (unfold unread; rewrite length_drop; lia).
  unfold Reader_Read.
  destruct (len (r_block r) <=? r_at r) eqn:E.
  - apply Z.leb_le in E.
    assert (Hn : n = 0%nat) by (unfold n, len in *; lia). rewrite Hn.
    change (Z.of_nat 0) with 0. rewrite Z.add_0_r.
    replace (r_at r =? len (r_block r)) with true
      by (symmetry; apply Z.eqb_eq; lia).
    replace (Reader_set_at r (r_at r)) with r by (destruct r; reflexivity).
    reflexivity.
  - apply Z.leb_gt in E. unfold bind. rewrite reslice_tail by lia.
    rewrite slice_bytes_tail. fold unread. unfold copy_out. fold n.
    rewrite wrap_int_small by (unfold n, len in *; lia).
    simpl. destruct (_ =? _); reflexivity.
Qed.

(** X5: Peek(n) on a Reader with [k] unread bytes.  For 0 <= n <= k it
    returns, without moving the cursor or touching the heap, a view of
    exactly the bytes that the next Read into a buffer of n bytes returns.
    For k < n, as long as cursor + n still is an int, it returns the error
    and a nil slice.  For a negative n, and for an n so large that
    cursor + n wraps around, it panics on the slice bounds. *)
Theorem Reader_Peek_cases h r n :
  slice_ok h (r_block r) -> 0 <= r_at r <= len (r_block r) ->
  min_int <= n <= max_int ->
  let k := len (r_block r) - r_at r in
  (0 <= n <= k ->
   exists s e r',
     Reader_Peek r n h = Ret ((s, None), h) /\
     slice_bytes h s
       = take (Z.to_nat n) (drop (Z.to_nat (r_at r)) (slice_bytes h (r_block r))) /\
     len s = n /\
     Reader_Read r (replicate (Z.to_nat n) x00) h
       = Ret ((n, e, slice_bytes h s, r'), h)) /\
  (k < n <= max_int - r_at r ->
   Reader_Peek r n h = Ret ((nil_slice, Some errPeek), h)) /\
  (n < 0 \/ max_int - r_at r < n -> Reader_Peek r n h = Panic OutOfRange).
Proof.
  intros Hok Hat Hn k. pose proof (slice_ok_len _ _ Hok) as Hlen.
  pose proof (length_slice_bytes _ _ Hok) as Hbytes. pose proof int_bounds as Hb.
  assert (Hcap : (s_len (r_block r) <= s_cap (r_block r))%nat)
    by (destruct Hok as (? & ? & ? & ? & ?); lia).
  unfold Reader_Peek, k. split; [|split].
  - intros Hin. rewrite wrap_int_small by lia.
    replace (len (r_block r) <? r_at r + n) with false
      by (symmetry; apply Z.ltb_ge; lia).
    unfold bind, reslice.
    replace (0 <=? r_at r) with true by (symmetry; apply Z.leb_le; lia).
    replace (r_at r <=? r_at r + n) with true by (symmetry; apply Z.leb_le; lia).
    replace (r_at r + n <=? Z.of_nat (s_cap (r_block r))) with true
      by (symmetry; apply Z.leb_le; unfold len in *; lia).
    simpl. unfold ret.
    replace (r_at r + n - r_at r) with n by lia.
    assert (Hs : slice_bytes h {| s_arr := s_arr (r_block r);
                                  s_off := s_off (r_block r) + Z.to_nat (r_at r);
                                  s_len := Z.to_nat n;
                                  s_cap := s_cap (r_block r) - Z.to_nat (r_at r) |}
                 = take (Z.to_nat n)
                        (drop (Z.to_nat (r_at r)) (slice_bytes h (r_block r))))
      by (apply slice_bytes_sub; unfold len in *; lia).
    do 3 eexists. split; [reflexivity|]. split; [exact Hs|].
    split; [unfold len; simpl; lia|].
    rewrite Reader_Read_unread by auto.
    rewrite length_replicate, length_drop, Hbytes.
    replace (Z.to_nat n `min` (s_len (r_block r) - Z.to_nat (r_at r)))%nat
      with (Z.to_nat n) by (unfold len in *; lia).
    rewrite drop_replicate, Nat.sub_diag. simpl. rewrite app_nil_r, Hs.
    rewrite Z2Nat.id by lia. reflexivity.
  - intros Hin. rewrite wrap_int_small by lia.
    replace (len (r_block r) <? r_at r + n) with true
      by (symmetry; apply Z.ltb_lt; lia).
    reflexivity.
  - intros [Hneg|Hbig].
    + rewrite wrap_int_small by lia.
      replace (len (r_block r) <? r_at r + n) with false
        by (symmetry; apply Z.ltb_ge; lia).
      unfold bind, reslice.
      replace (r_at r <=? r_at r + n) with false by (symmetry; apply Z.leb_gt; lia).
      rewrite andb_false_r. reflexivity.
    + assert (Hw : wrap_int (r_at r + n) = r_at r + n - 2 ^ 64).
      { unfold wrap_int, max_int, min_int, maxAlloc in *.
        replace (r_at r + n + 2 ^ 63) with ((r_at r + n - 2 ^ 63) + 1 * 2 ^ 64) by lia.
        rewrite Z.mod_add by lia. rewrite Z.mod_small by lia. lia. }
      rewrite Hw.
      replace (len (r_block r) <? r_at r + n - 2 ^ 64) with false
        by (symmetry; apply Z.ltb_ge; unfold max_int, maxAlloc in *; lia).
      unfold bind, reslice.
      replace (r_at r <=? r_at r + n - 2 ^ 64) with false
        by (symmetry; apply Z.leb_gt; unfold max_int in *; lia).
      rewrite andb_false_r. reflexivity.
Qed.

Lemma Reader_Peek_cases_witness :
  let h := Heap [[x01; x02; x03; x04]] [] in
  let r := mkReader (Slice 0 0 4 4) 1 false None in
  (exists s, Reader_Peek r 2 h = Ret ((s, None), h) /\
             slice_bytes h s = [x02; x03]) /\
  Reader_Peek r 4 h = Ret ((nil_slice, Some errPeek), h) /\
  Reader_Peek r (-1) h = Panic OutOfRange /\
  Reader_Peek r max_int h = Panic OutOfRange.
Proof.
  intros h r.
  assert (Hok : slice_ok h (r_block r)) by concrete_slice_ok.
  assert (Hat : 0 <= r_at r <= len (r_block r)) by (unfold len; simpl; lia).
  split; [|split; [|split]].
  - destruct (Reader_Peek_cases h r 2 Hok Hat ltac:(unfold min_int, max_int; lia))
      as [H _].
    destruct H as (s & e & r' & E & Hs & _); [unfold len; simpl; lia|].
    exists s. split; [exact E | exact Hs].
  - apply (Reader_Peek_cases h r 4 Hok Hat ltac:(unfold min_int, max_int; lia)).
    unfold len, max_int. simpl. lia.
  - apply (Reader_Peek_cases h r (-1) Hok Hat ltac:(unfold min_int, max_int; lia)).
    left. lia.
  - apply (Reader_Peek_cases h r max_int Hok Hat ltac:(unfold min_int, max_int; lia)).
    right. simpl. lia.
Defined.

Lemma Reader_Len_unread r :
  0 <= r_at r <= len (r_block r) -> len (r_block r) <= maxAlloc ->
  Reader_Len r = len (r_block r) - r_at r.
Proof.
  intros Hat Hm. pose proof int_bounds. unfold Reader_Len.
  apply wrap_int_small. lia.
Qed.

(** X6: Read consumes a prefix of Bytes().  Bytes() is a view of Len()
    bytes; a Read into a buffer [b] copies the first min(len(b), Len()) of
    them to the front of [b], leaves the rest of [b] and the heap as they
    were, and afterwards Bytes() is what was left over.  The call reports
    end-of-data exactly when it leaves nothing unread, so also when it is
    the one that returns the last bytes. *)
Theorem Reader_Read_consumes_Bytes h r b :
  slice_ok h (r_block r) -> 0 <= r_at r <= len (r_block r) ->
  exists s n e r' s',
    Reader_Bytes r h = Ret (s, h) /\
    Z.of_nat (length (slice_bytes h s)) = Reader_Len r /\
    Reader_Read r b h =
      Ret ((Z.of_nat n, e, take n (slice_bytes h s) ++ drop n b, r'), h) /\
    n = Nat.min (length b) (Z.to_nat (Reader_Len r)) /\
    Reader_Len r' = Reader_Len r - Z.of_nat n /\
    (e = Some EOF <-> Reader_Len r' = 0) /\
    (e = None \/ e = Some EOF) /\
    Reader_Bytes r' h = Ret (s', h) /\
    slice_bytes h s' = drop n (slice_bytes h s).
Proof.
  intros Hok Hat. pose proof (slice_ok_len _ _ Hok) as Hlen.
  pose proof (length_slice_bytes _ _ Hok) as Hbytes.
  destruct (Reader_Bytes_unread h r h Hok Hat) as (s & Es & Hs & Hls).
  pose proof (Reader_Read_unread h r b Hok Hat) as ER. simpl in ER.
  rewrite <- Hs in ER.
  assert (HL : Reader_Len r = len (r_block r) - r_at r)
    by (apply Reader_Len_unread; lia).
  assert (Hsl : length (slice_bytes h s)
                = (s_len (r_block r) - Z.to_nat (r_at r))%nat)
    by (rewrite Hs, length_drop; lia).
  set (n := Nat.min (length b) (length (slice_bytes h s))) in *.
  set (r' := Reader_set_at r (r_at r + Z.of_nat n)) in *.
  assert (Hn : (n <= s_len (r_block r) - Z.to_nat (r_at r))%nat) by (unfold n; lia).
  assert (Hat' : 0 <= r_at r' <= len (r_block r'))
    by (unfold r', len in *; simpl; lia).
  assert (HL' : Reader_Len r' = len (r_block r) - r_at r - Z.of_nat n).
  { rewrite Reader_Len_unread by (auto; simpl; lia). unfold r'. simpl. lia. }
  destruct (Reader_Bytes_unread h r' h Hok Hat') as (s' & Es' & Hs' & _).
  exists s, n, (if r_at r + Z.of_nat n =? len (r_block r) then Some EOF else None),
         r', s'.
  split; [exact Es|]. split; [unfold len in *; lia|]. split; [exact ER|].
  split; [unfold n, len in *; lia|]. split; [lia|]. split; [|split; [|split]].
  - destruct (r_at r + Z.of_nat n =? len (r_block r)) eqn:E.
    + apply Z.eqb_eq in E. split; [lia | reflexivity].
    + apply Z.eqb_neq in E. split; [discriminate | lia].
  - destruct (_ =? _); auto.
  - exact Es'.
  - rewrite Hs', Hs. unfold r'. simpl. rewrite drop_drop. f_equal.
    unfold len in *. lia.
Qed.

Lemma Reader_Read_consumes_Bytes_witness :
  exists n e bs r',
    Reader_Read (mkReader (Slice 0 0 4 4) 1 false None) [x00; x00; x00; x00; x00]
                (Heap [[x01; x02; x03; x04]] [])
      = Ret ((Z.of_nat n, e, bs, r'), Heap [[x01; x02; x03; x04]] []) /\
    n = 3%nat /\ (e = Some EOF <-> Reader_Len r' = 0).
Proof.
  destruct (Reader_Read_consumes_Bytes (Heap [[x01; x02; x03; x04]] [])
              (mkReader (Slice 0 0 4 4) 1 false None) [x00; x00; x00; x00; x00])
    as (s & n & e & r' & s' & Es & _ & ER & Hn & _ & He & _).
  - concrete_slice_ok.
  - unfold len; simpl; lia.
  - exists n, e. do 2 eexists. split; [exact ER|]. split; [|exact He].
    rewrite Hn. vm_compute. reflexivity.
Defined.

(** X7: Read never makes progress with an empty buffer: while bytes are
    unread it returns (0, nil) and changes nothing, so a loop that reads
    until end-of-data with such a buffer does not reach it, however long it
    runs. *)
Theorem read_to_EOF_empty_buffer h r fuel acc :
  slice_ok h (r_block r) -> 0 <= r_at r < len (r_block r) ->
  Reader_Read r [] h = Ret ((0, None, [], r), h) /\
  read_to_EOF fuel 0 r acc h = Ret ((None, r), h).
Proof.
  intros Hok Hat.
  assert (E : Reader_Read r [] h = Ret ((0, None, [], r), h)).
  { rewrite Reader_Read_unread by (auto; lia). simpl.
    rewrite Z.add_0_r.
    replace (r_at r =? len (r_block r)) with false
      by (symmetry; apply Z.eqb_neq; lia).
    replace (Reader_set_at r (r_at r)) with r by (destruct r; reflexivity).
    reflexivity. }
  split; [exact E|].
  revert acc. induction fuel as [|fuel IH]; intros acc; [reflexivity|].
  simpl. unfold bind. rewrite E. simpl. rewrite app_nil_r. apply IH.
Qed.

Lemma read_to_EOF_empty_buffer_witness :
  read_to_EOF 50 0 (mkReader (Slice 0 0 4 4) 3 false None) []
              (Heap [[x01; x02; x03; x04]] [])
  = Ret ((None, mkReader (Slice 0 0 4 4) 3 false None),
         Heap [[x01; x02; x03; x04]] []).
Proof.
  apply (read_to_EOF_empty_buffer (Heap [[x01; x02; x03; x04]] [])
           (mkReader (Slice 0 0 4 4) 3 false None) 50 []).
  - concrete_slice_ok.
  - unfold len; simpl; lia.
Defined.

(** X8: the two handles of a lease disagree on Cap().  For a lease of [n]
    bytes granted at the cursor of an arena, Writer.Cap() is n, the length
    of the lease, while Cap() of the Reader made from the Writer is the
    capacity of the slice, which runs from the cursor to the end of the
    block of the arena, beyond the lease unless the lease ends the block;
    Len() of the Reader is n. *)
Theorem lease_Cap_differs h a x n :
  arenas h !! a = Some x -> arena_wf h x ->
  1 <= n <= a_reasonable x -> a_next x + n <= len (a_block x) ->
  exists w h1 r w' h2,
    arena_GetWriter a n h = Ret ((w, None), h1) /\
    Writer_Reader w h1 = Ret ((r, w'), h2) /\
    Writer_Cap w = n /\ Reader_Len r = n /\
    Reader_Cap r = Z.of_nat (s_cap (a_block x)) - a_next x /\
    (a_next x + n < Z.of_nat (s_cap (a_block x)) -> Writer_Cap w < Reader_Cap r).
Proof.
  intros Ha Hwf Hn Hfit. pose proof Hwf as (Hok & Hnx & Hr0 & Hr & Hc).
  pose proof (slice_ok_len _ _ Hok) as Hlen. pose proof int_bounds.
  set (h1 := set_arenas h (<[a := granted x n]> (arenas h))).
  assert (Ha1 : arenas h1 !! a = Some (granted x n)).
  { simpl. apply list_lookup_insert_eq. eapply lookup_lt_Some; eauto. }
  exists (lease a x n), h1. do 3 eexists.
  split; [apply GetWriter_granted; auto|].
  split; [apply (Writer_Reader_leased h1 _ a (granted x n)); auto; simpl; lia|].
  assert (Hcap : Writer_Cap (lease a x n) = n) by (unfold Writer_Cap, len; simpl; lia).
  assert (Hrc : Reader_Cap (mkReader (w_block (lease a x n)) 0 false (Some a))
                = Z.of_nat (s_cap (a_block x)) - a_next x).
  { unfold Reader_Cap. simpl. destruct Hok as (? & ? & ? & ? & ?).
    unfold len in *. lia. }
  split; [exact Hcap|]. split; [|split; [exact Hrc|]].
  - unfold Reader_Len, len. simpl. rewrite wrap_int_small by lia. lia.
  - intros Hlt. rewrite Hcap, Hrc. lia.
Qed.

Lemma lease_Cap_differs_witness :
  exists w h1 r w' h2,
    arena_GetWriter 0 4 (Heap [replicate 40 x00] [Arena 0 (Slice 0 0 40 40) 4 8])
      = Ret ((w, None), h1) /\
    Writer_Reader w h1 = Ret ((r, w'), h2) /\
    Writer_Cap w = 4 /\ Reader_Cap r = 32.
Proof.
  destruct (lease_Cap_differs
              (Heap [replicate 40 x00] [Arena 0 (Slice 0 0 40 40) 4 8])
              0 (Arena 0 (Slice 0 0 40 40) 4 8) 4)
    as (w & h1 & r & w' & h2 & E1 & E2 & Hc & _ & Hr & _).
  - reflexivity.
  - unfold arena_wf, len. simpl. repeat split; try lia. concrete_slice_ok.
  - simpl; lia.
  - unfold len; simpl; lia.
  - exists w, h1, r, w', h2. repeat split; auto.
Defined.

(** ** Making arenas and pools *)

(** X9: newArena(size, reasonable) on unsigned arguments.  The check is on
    reasonable*10 reduced modulo 2^64: when that exceeds size the call
    returns the error and changes nothing; otherwise it allocates (and
    panics if the runtime refuses the size) and returns a new arena whose
    block is a new array of size zero bytes, with cursor 0, counter 0 and the
    limit converted to int, all older arenas and arrays being kept. *)
Theorem newArena_cases sz r h :
  0 <= sz < 2 ^ 64 -> 0 <= r < 2 ^ 64 ->
  (sz < (r * 10) mod 2 ^ 64 ->
   newArena sz r h = Ret ((None, Some errReasonable), h)) /\
  ((r * 10) mod 2 ^ 64 <= sz -> maxAlloc < sz ->
   newArena sz r h = Panic LenOutOfRange) /\
  ((r * 10) mod 2 ^ 64 <= sz -> sz <= maxAlloc ->
   let blk := Slice (length (arrays h)) 0 (Z.to_nat sz) (Z.to_nat sz) in
   let h' := Heap (arrays h ++ [replicate (Z.to_nat sz) x00])
                  (arenas h ++ [Arena 0 blk (wrap_int r) 0]) in
   newArena sz r h = Ret ((Some (length (arenas h)), None), h') /\
   arenas h' !! length (arenas h) = Some (Arena 0 blk (wrap_int r) 0) /\
   slice_bytes h' blk = replicate (Z.to_nat sz) x00 /\
   len blk = sz).
Proof.
  intros Hsz Hr. unfold newArena, wrap_uint, bind, make_bytes.
  split; [|split].
  - intros H. replace (sz <? (r * 10) mod 2 ^ 64) with true
      by (symmetry; apply Z.ltb_lt; lia). reflexivity.
  - intros H Hm. replace (sz <? (r * 10) mod 2 ^ 64) with false
      by (symmetry; apply Z.ltb_ge; lia).
    replace (maxAlloc <? sz) with true by (symmetry; apply Z.ltb_lt; lia).
    rewrite orb_true_r. reflexivity.
  - intros H Hm. replace (sz <? (r * 10) mod 2 ^ 64) with false
      by (symmetry; apply Z.ltb_ge; lia).
    replace (sz <? 0) with false by (symmetry; apply Z.ltb_ge; lia).
    replace (maxAlloc <? sz) with false by (symmetry; apply Z.ltb_ge; lia).
    simpl. split; [reflexivity|]. split; [|split].
    + apply list_lookup_middle. reflexivity.
    + unfold slice_bytes. simpl.
      rewrite list_lookup_middle by reflexivity. simpl.
      rewrite drop_0. apply take_ge. rewrite length_replicate. lia.
    + unfold len. simpl. lia.
Qed.

Lemma newArena_cases_witness :
  newArena 4 1844674407370955162 (Heap [] []) =
    Ret ((Some 0%nat, None),
         Heap [[x00; x00; x00; x00]]
              [Arena 0 (Slice 0 0 4 4) 1844674407370955162 0]) /\
  newArena 39 4 (Heap [] []) = Ret ((None, Some errReasonable), Heap [] []).
Proof.
  split.
  - apply (newArena_cases 4 1844674407370955162 (Heap [] [])); concrete_arith.
  - apply (newArena_cases 39 4 (Heap [] [])); concrete_arith.
Defined.

Lemma GetWriter_full_at_start a x n h :
  arenas h !! a = Some x -> a_next x = 0 ->
  1 <= n <= a_reasonable x -> n <= max_int -> len (a_block x) < n ->
  arena_GetWriter a n h = Ret ((Writer_zero, Some arenaFullErr), h).
Proof.
  intros Ha Hnx Hn Hmax Hfull. pose proof int_bounds.
  unfold arena_GetWriter, bind, get_arena.
  replace (n <? 1) with false by (symmetry; apply Z.ltb_ge; lia).
  rewrite Ha.
  replace (a_reasonable x <? n) with false by (symmetry; apply Z.ltb_ge; lia).
  rewrite Hnx, wrap_int_small by lia.
  replace (len (a_block x) <? 0 + n) with true by (symmetry; apply Z.ltb_lt; lia).
  reflexivity.
Qed.

Lemma New_returns sz r buf h0 q h :
  New sz r buf h0 = Ret ((Some q, None), h) ->
  (sz <? wrap_uint (r * 10)) = false /\ 0 <= sz <= maxAlloc /\
  q = mkPool sz r (length (arenas h0)) (mempool.NewPool buf) /\
  h = Heap (arrays h0 ++ [replicate (Z.to_nat sz) x00])
           (arenas h0 ++ [Arena 0 (Slice (length (arrays h0)) 0 (Z.to_nat sz)
                                         (Z.to_nat sz)) (wrap_int r) 0]).
Proof.
  unfold New, newArena, bind, make_bytes.
  destruct (sz <? wrap_uint (r * 10)) eqn:E0; [discriminate|].
  destruct (sz <? 0) eqn:E1; [discriminate|].
  destruct (maxAlloc <? sz) eqn:E2; [discriminate|].
  apply Z.ltb_ge in E1, E2. simpl. intros [= <- <-]. auto.
Qed.

(** X10: the check of New does not keep the full signal from the caller
    when reasonable*10 wraps around.  If New accepted a limit (below 2^63)
    larger than the size of the arenas, every request of more bytes than an
    arena has, but within the limit, comes back from Pool.GetWriter with the
    arena-full error: the current arena is full for it, and so is the arena
    swapped in. *)
Theorem Pool_GetWriter_surfaces_arena_full sz r buf h0 q h n pick :
  New sz r buf h0 = Ret ((Some q, None), h) ->
  0 <= r <= max_int -> sz < n -> 1 <= n <= r ->
  exists s',
    Pool_GetWriter n pick (Sys h q []) =
      Ret ((Writer_zero, Some arenaFullErr), s') /\
    current (sys_pool s') <> current q /\
    goroutines s' = [current q].
Proof.
  intros HNew Hr Hbig Hn. pose proof int_bounds as Hb.
  apply New_returns in HNew as (Echeck & Hsz & -> & ->).
  assert (Hwr : wrap_int r = r) by (apply wrap_int_small; lia).
  rewrite Hwr.
  set (blk0 := Slice (length (arrays h0)) 0 (Z.to_nat sz) (Z.to_nat sz)).
  set (h := Heap (arrays h0 ++ [replicate (Z.to_nat sz) x00])
                 (arenas h0 ++ [Arena 0 blk0 r 0])).
  set (c := length (arenas h0)).
  assert (Hc : arenas h !! c = Some (Arena 0 blk0 r 0))
    by (apply list_lookup_middle; reflexivity).
  assert (E1 : arena_GetWriter c n h = Ret ((Writer_zero, Some arenaFullErr), h)).
  { apply (GetWriter_full_at_start c (Arena 0 blk0 r 0)); auto; simpl; try lia.
    unfold len. simpl. lia. }
  set (blk1 := Slice (length (arrays h)) 0 (Z.to_nat sz) (Z.to_nat sz)).
  set (h1 := Heap (arrays h ++ [replicate (Z.to_nat sz) x00])
                  (arenas h ++ [Arena 0 blk1 r 0])).
  assert (EN : newArena sz r h = Ret ((Some (length (arenas h)), None), h1)).
  { unfold newArena, bind, make_bytes. rewrite Echeck.
    replace (sz <? 0) with false by (symmetry; apply Z.ltb_ge; lia).
    replace (maxAlloc <? sz) with false by (symmetry; apply Z.ltb_ge; lia).
    simpl. rewrite Hwr. reflexivity. }
  assert (Hc1 : arenas h1 !! length (arenas h) = Some (Arena 0 blk1 r 0))
    by (apply list_lookup_middle; reflexivity).
  assert (E2 : arena_GetWriter (length (arenas h)) n h1
               = Ret ((Writer_zero, Some arenaFullErr), h1)).
  { apply (GetWriter_full_at_start _ (Arena 0 blk1 r 0)); auto; simpl; try lia.
    unfold len. simpl. lia. }
  assert (EG : forall gs,
    mempool.Get (factory sz r) pick (mempool.NewPool buf)
                (Sys h (mkPool sz r c (mempool.NewPool buf)) gs)
    = Ret ((length (arenas h), mempool.NewPool buf),
           Sys h1 (mkPool sz r c (mempool.NewPool buf)) gs)).
  { intros gs. unfold mempool.Get, mempool.sync_Pool_Get, mempool.NewPool.
    assert (EF : forall (q0 : Pool) (m : mempool.Pool nat),
      bind (factory sz r) (fun v => ret (v, m)) (Sys h q0 gs)
      = Ret ((length (arenas h), m), Sys h1 q0 gs)).
    { intros q0 m. unfold bind, factory, lift, bind. simpl. rewrite EN. reflexivity. }
    destruct (0 <? buf); simpl; destruct pick as [i|]; simpl; apply EF. }
  unfold Pool_GetWriter, Pool_getWriter, bind, get_pool, lift. simpl.
  fold c. fold blk0. fold h. rewrite E1. simpl.
  unfold Pool_handleDepleted, spawn. simpl. rewrite EG.
  cbn [sys_heap sys_pool goroutines size reasonable current pool].
  rewrite E2. eexists. split; [reflexivity|]. simpl.
  split; [|reflexivity].
  unfold h, c. simpl. rewrite length_app. simpl. lia.
Qed.

Lemma Pool_GetWriter_surfaces_arena_full_witness :
  exists q h s',
    New 4 1844674407370955162 1 (Heap [] []) = Ret ((Some q, None), h) /\
    Pool_GetWriter 5 None (Sys h q []) =
      Ret ((Writer_zero, Some arenaFullErr), s').
Proof.
  destruct (Pool_GetWriter_surfaces_arena_full 4 1844674407370955162 1 (Heap [] [])
              (mkPool 4 1844674407370955162 0 (mempool.NewPool 1))
              (Heap [[x00; x00; x00; x00]]
                    [Arena 0 (Slice 0 0 4 4) 1844674407370955162 0])
              5 None)
    as (s' & E & _).
  - vm_compute. reflexivity.
  - concrete_arith.
  - lia.
  - concrete_arith.
  - do 3 eexists. split; [|exact E]. vm_compute. reflexivity.
Defined.

(** ** How much an arena holds, and when it is recycled *)

Lemma requests_equal_sizes a n (k : nat) :
  forall h x,
    arenas h !! a = Some x -> arena_wf h x ->
    1 <= n <= a_reasonable x ->
    a_next x + Z.of_nat k * n <= len (a_block x) ->
    exists rs h',
      requests a (replicate k n) h = Ret (rs, h') /\
      length rs = k /\
      (forall i w e, rs !! i = Some (w, e) ->
         e = None /\ w_at w = 0 /\ w_wg w = Some a /\
         w_block w =
           Slice (s_arr (a_block x))
                 (s_off (a_block x) + Z.to_nat (a_next x + Z.of_nat i * n))
                 (Z.to_nat n)
                 (s_cap (a_block x) - Z.to_nat (a_next x + Z.of_nat i * n))) /\
      arrays h' = arrays h /\
      arenas h' !! a =
        Some (Arena (a_wg x + Z.of_nat k) (a_block x) (a_reasonable x)
                    (a_next x + Z.of_nat k * n)) /\
      arena_wf h' (Arena (a_wg x + Z.of_nat k) (a_block x) (a_reasonable x)
                         (a_next x + Z.of_nat k * n)).
Proof.
  induction k as [|k IH]; intros h x Ha Hwf Hn Hfit.
  - exists [], h. simpl. rewrite !Z.add_0_r, arena_eta.
    split; [reflexivity|]. split; [reflexivity|].
    split; [intros i w e Hi; discriminate|]. auto.
  - pose proof Hwf as (Hok & Hnx & Hr0 & Hr & Hc).
    rewrite Nat2Z.inj_succ in *.
    set (h1 := set_arenas h (<[a := granted x n]> (arenas h))).
    assert (Ha1 : arenas h1 !! a = Some (granted x n)).
    { simpl. apply list_lookup_insert_eq. eapply lookup_lt_Some; eauto. }
    assert (Hwf1 : arena_wf h1 (granted x n))
      by (apply arena_wf_granted; auto; lia).
    destruct (IH h1 (granted x n) Ha1 Hwf1) as (rs & h' & E & Hl & Hrs & Harr & Ha' & Hwf');
      [unfold granted; cbn [a_reasonable]; lia
      |unfold granted; cbn [a_next a_block]; lia |].
    unfold granted in Hrs, Ha', Hwf'.
    cbn [a_next a_block a_wg a_reasonable] in Hrs, Ha', Hwf'.
    exists ((lease a x n, None) :: rs), h'. split; [|split; [|split; [|split; [|split]]]].
    + cbn [replicate requests]. unfold bind.
      rewrite (GetWriter_granted a x) by (auto; lia).
      fold h1. rewrite E. reflexivity.
    + cbn [length]. lia.
    + intros [|i] w e Hi; cbn [lookup list_lookup] in Hi.
      * injection Hi as <- <-. unfold lease. cbn [w_at w_wg w_block].
        change (Z.of_nat 0) with 0. rewrite Z.mul_0_l, Z.add_0_r. auto.
      * destruct (Hrs i w e Hi) as (-> & Hat & Hwg & Hb).
        rewrite Nat2Z.inj_succ.
        repeat split; auto. rewrite Hb. f_equal; f_equal; lia.
    + exact Harr.
    + rewrite Ha'. do 2 f_equal; lia.
    + replace (a_wg x + Z.succ (Z.of_nat k)) with (a_wg x + 1 + Z.of_nat k) by lia.
      replace (a_next x + Z.succ (Z.of_nat k) * n)
        with (a_next x + n + Z.of_nat k * n) by lia.
      exact Hwf'.
Qed.

(** X11: an arena serves equal requests back to back.  From a cursor
    [c], [k] requests of [n] bytes each (n within the limit) that fit
    together are all granted, the i-th at offset c + i*n of the block with
    exactly n bytes; the counter goes up by k and the cursor to c + k*n; and
    as soon as one more does not fit, the next request gets the arena-full
    signal.  So a block of L bytes past the cursor holds exactly L/n
    such leases. *)
Theorem arena_holds_equal_leases h a x n (k : nat) :
  arenas h !! a = Some x -> arena_wf h x ->
  1 <= n <= a_reasonable x ->
  a_next x + Z.of_nat k * n <= len (a_block x) ->
  exists rs h',
    requests a (replicate k n) h = Ret (rs, h') /\
    length rs = k /\
    (forall i w e, rs !! i = Some (w, e) ->
       e = None /\ len (w_block w) = n /\ w_wg w = Some a /\
       Z.of_nat (s_off (w_block w))
         = Z.of_nat (s_off (a_block x)) + a_next x + Z.of_nat i * n) /\
    arenas h' !! a =
      Some (Arena (a_wg x + Z.of_nat k) (a_block x) (a_reasonable x)
                  (a_next x + Z.of_nat k * n)) /\
    (len (a_block x) < a_next x + (Z.of_nat k + 1) * n ->
     arena_GetWriter a n h' = Ret ((Writer_zero, Some arenaFullErr), h')).
Proof.
  intros Ha Hwf Hn Hfit. pose proof Hwf as (Hok & Hnx & Hr0 & Hr & Hc).
  destruct (requests_equal_sizes a n k h x Ha Hwf Hn Hfit)
    as (rs & h' & E & Hl & Hrs & Harr & Ha' & Hwf').
  exists rs, h'. split; [exact E|]. split; [exact Hl|]. split; [|split; [exact Ha'|]].
  - intros i w e Hi. destruct (Hrs i w e Hi) as (-> & Hat & Hwg & Hb).
    rewrite Hb. unfold len. simpl.
    assert (0 <= Z.of_nat i * n) by nia.
    repeat split; auto; lia.
  - intros Hfull. apply (GetWriter_full a _ n h' Ha' Hwf'); simpl; lia.
Qed.

Lemma arena_holds_equal_leases_witness :
  exists rs h',
    requests 0 (replicate 10 4)
             (Heap [replicate 40 x00] [Arena 0 (Slice 0 0 40 40) 4 0])
      = Ret (rs, h') /\
    length rs = 10%nat /\
    arena_GetWriter 0 4 h' = Ret ((Writer_zero, Some arenaFullErr), h').
Proof.
  destruct (arena_holds_equal_leases
              (Heap [replicate 40 x00] [Arena 0 (Slice 0 0 40 40) 4 0])
              0 (Arena 0 (Slice 0 0 40 40) 4 0) 4 10)
    as (rs & h' & E & Hl & _ & _ & Hfull).
  - reflexivity.
  - unfold arena_wf, len. simpl. repeat split; try lia. concrete_slice_ok.
  - simpl; lia.
  - unfold len; simpl; lia.
  - exists rs, h'. split; [exact E|]. split; [exact Hl|].
    apply Hfull. unfold len; simpl; lia.
Defined.

Lemma reclaim_blocks a x s :
  arenas (sys_heap s) !! a = Some x -> a_wg x <> 0 -> reclaim a s = Block.
Proof.
  intros Ha Hc. unfold reclaim, bind, lift, arena_Wait, WaitGroup_Wait.
  rewrite Ha. replace (a_wg x =? 0) with false by (symmetry; apply Z.eqb_neq; lia).
  reflexivity.
Qed.

Lemma reclaim_drained a x h q gs :
  arenas h !! a = Some x -> a_wg x = 0 ->
  reclaim a (Sys h q gs) =
    Ret (tt, Sys (set_arenas h (alter (fun y => Arena (a_wg y) (a_block y)
                                                  (a_reasonable y) 0) a (arenas h)))
                 (mkPool (size q) (reasonable q) (current q) (stored a (pool q)))
                 gs).
Proof.
  intros Ha Hc.
  unfold reclaim, bind, lift, arena_Wait, WaitGroup_Wait. simpl.
  rewrite Ha, Hc. simpl.
  unfold mempool.Put, arena_Resetter, bind, lift, arena_Reset, get_arena, set_next.
  simpl. unfold bind. rewrite Ha. simpl. unfold stored.
  destruct (mempool.buffer (pool q)) as [[c k]|];
    [destruct (length k <? c)%nat|]; reflexivity.
Qed.

Lemma Release_leased a y h (once : bool) :
  arenas h !! a = Some y -> 1 <= a_wg y ->
  WaitGroup_Done (Some a) h =
    Ret (tt, set_arenas h (<[a := Arena (a_wg y - 1) (a_block y)
                                        (a_reasonable y) (a_next y)]> (arenas h))).
Proof.
  intros Ha Hc. unfold WaitGroup_Done, WaitGroup_Add. rewrite Ha.
  replace (a_wg y + -1 <? 0) with false by (symmetry; apply Z.ltb_ge; lia).
  reflexivity.
Qed.

(** X12: a depleted arena is not recycled while a lease on it is out.  The
    reclamation goroutine of an arena blocks as long as the counter of the
    arena is not zero.  For an arena with no lease out: once a lease is
    granted the goroutine blocks; it still blocks after the Writer has been
    converted to a Reader; and after the Reader has been released it runs
    through, leaving the arena rewound and in the recycler. *)
Theorem reclaim_waits_for_leases h a x n :
  arenas h !! a = Some x -> arena_wf h x -> a_wg x = 0 ->
  1 <= n <= a_reasonable x -> a_next x + n <= len (a_block x) ->
  (forall s y, arenas (sys_heap s) !! a = Some y -> a_wg y <> 0 ->
               reclaim a s = Block) /\
  exists w h1 r w' h2 r' h3,
    arena_GetWriter a n h = Ret ((w, None), h1) /\
    (forall q gs, reclaim a (Sys h1 q gs) = Block) /\
    Writer_Reader w h1 = Ret ((r, w'), h2) /\
    (forall q gs, reclaim a (Sys h2 q gs) = Block) /\
    Reader_Release r h2 = Ret (r', h3) /\
    (forall q gs, exists s',
        reclaim a (Sys h3 q gs) = Ret (tt, s') /\
        rewound (sys_heap s') a /\ a ∈ pooled (pool (sys_pool s')) /\
        arrays (sys_heap s') = arrays h).
Proof.
  intros Ha Hwf Hc Hn Hfit. split; [intros s y; apply reclaim_blocks|].
  set (h1 := set_arenas h (<[a := granted x n]> (arenas h))).
  assert (Hlt : (a < length (arenas h))%nat) by (eapply lookup_lt_Some; eauto).
  assert (Ha1 : arenas h1 !! a = Some (granted x n))
    by (simpl; apply list_lookup_insert_eq; auto).
  assert (Hc1 : a_wg (granted x n) = 1) by (simpl; lia).
  set (h3 := set_arenas h1 (<[a := Arena (a_wg (granted x n) - 1) (a_block x)
                                         (a_reasonable x) (a_next x + n)]> (arenas h1))).
  exists (lease a x n), h1, (mkReader (w_block (lease a x n)) 0 false (Some a)),
         (Writer_set_once (lease a x n)), h1,
         (Reader_set_once (mkReader (w_block (lease a x n)) 0 false (Some a))), h3.
  split; [apply GetWriter_granted; auto|].
  split; [intros q gs; apply (reclaim_blocks a (granted x n)); auto; lia|].
  split; [apply (Writer_Reader_leased h1 _ a (granted x n)); auto; lia|].
  split; [intros q gs; apply (reclaim_blocks a (granted x n)); auto; lia|].
  split.
  - unfold Reader_Release, bind, ret. cbn [r_wg r_once].
    rewrite (Release_leased a (granted x n) h1 false) by (auto; lia). reflexivity.
  - intros q gs.
    assert (Ha3 : arenas h3 !! a = Some (Arena 0 (a_block x) (a_reasonable x)
                                               (a_next x + n))).
    { unfold h3. simpl. rewrite list_lookup_insert_eq by (rewrite length_insert; auto).
      do 2 f_equal. lia. }
    eexists. split; [apply (reclaim_drained a _ h3 q gs Ha3); reflexivity|].
    simpl. split; [|split].
    + eexists. split.
      * cbn [arenas set_arenas]. rewrite list_lookup_alter_eq.
        rewrite list_lookup_insert_eq by (rewrite length_insert; auto).
        reflexivity.
      * reflexivity.
    + rewrite pooled_stored. apply elem_of_cons. auto.
    + reflexivity.
Qed.

Lemma reclaim_waits_for_leases_witness :
  exists w h1,
    arena_GetWriter 0 4 (Heap [replicate 40 x00] [Arena 0 (Slice 0 0 40 40) 4 36])
      = Ret ((w, None), h1) /\
    reclaim 0 (Sys h1 (mkPool 40 4 1 (mempool.NewPool 1)) [0%nat]) = Block.
Proof.
  destruct (reclaim_waits_for_leases
              (Heap [replicate 40 x00] [Arena 0 (Slice 0 0 40 40) 4 36])
              0 (Arena 0 (Slice 0 0 40 40) 4 36) 4)
    as (_ & w & h1 & r & w' & h2 & r' & h3 & E & Hb & _).
  - reflexivity.
  - unfold arena_wf, len. simpl. repeat split; try lia. concrete_slice_ok.
  - reflexivity.
  - simpl; lia.
  - unfold len; simpl; lia.
  - exists w, h1. split; [exact E | apply Hb].
Defined.

Lemma slice_ok_lease h a x n :
  slice_ok h (a_block x) -> 0 <= a_next x -> 0 <= n ->
  a_next x + n <= len (a_block x) ->
  slice_ok h (w_block (lease a x n)).
Proof.
  intros (l & Hl & Ho & Hc & Hm) Hnx Hn Hfit. exists l. unfold lease, len in *.
  simpl. repeat split; auto; lia.
Qed.

Lemma slice_ok_arrays h h' s : arrays h' = arrays h -> slice_ok h s -> slice_ok h' s.
Proof. intros E (l & Hl & H). exists l. rewrite E. auto. Qed.

Lemma slice_bytes_arrays h h' s : arrays h' = arrays h -> slice_bytes h' s = slice_bytes h s.
Proof. intros E. unfold slice_bytes. now rewrite E. Qed.

(** X13: a recycled arena hands out the bytes of its previous generation.
    On an arena with no lease out and its cursor at 0: when a lease of [n]
    bytes is granted, written with [b] and released, and the arena is then
    drained and reset, the next lease of [n] bytes is the same byte range,
    and reading it to the end, without writing it first, returns [b]
    followed by what was behind [b] before. *)
Theorem recycled_lease_reads_previous h a x n b k fuel :
  arenas h !! a = Some x -> arena_wf h x ->
  a_wg x = 0 -> a_next x = 0 ->
  1 <= n <= a_reasonable x -> n <= len (a_block x) ->
  Z.of_nat (length b) <= n -> (0 < k)%nat -> (Z.to_nat n < fuel)%nat ->
  exists h',
    recycle_and_read a n b k fuel h =
      Ret (Some (b ++ drop (length b) (slice_bytes h (w_block (lease a x n)))), h') /\
    arrays h' = arrays (write_heap h (w_block (lease a x n)) 0 b).
Proof.
  intros Ha Hwf Hc Hnx Hn Hfit Hb Hk Hfuel.
  pose proof Hwf as (Hok & Hnx' & Hr0 & Hr & Hc').
  assert (Hlt : (a < length (arenas h))%nat) by (eapply lookup_lt_Some; eauto).
  set (L := lease a x n).
  assert (HokL : slice_ok h (w_block L)) by (apply slice_ok_lease; auto; lia).
  assert (HlenL : s_len (w_block L) = Z.to_nat n) by reflexivity.
  set (h1 := set_arenas h (<[a := granted x n]> (arenas h))).
  set (h2 := write_heap h1 (w_block L) 0 b).
  set (h3 := set_arenas h2 (<[a := Arena (a_wg (granted x n) - 1) (a_block x)
                                         (a_reasonable x) (a_next x + n)]> (arenas h2))).
  set (h4 := write_heap h (w_block L) 0 b).
  assert (Ha1 : arenas h1 !! a = Some (granted x n))
    by (simpl; apply list_lookup_insert_eq; auto).
  assert (E4 : set_arenas h3 (alter (fun y => Arena (a_wg y) (a_block y)
                                               (a_reasonable y) 0) a (arenas h3)) = h4).
  { unfold h4, h3, h2, h1, write_heap, set_arenas, set_arrays. simpl. f_equal.
    rewrite list_alter_insert_eq, list_insert_insert_eq. simpl.
    replace (Arena (a_wg x + 1 - 1) (a_block x) (a_reasonable x) 0) with x
      by (destruct x; simpl in *; f_equal; lia).
    apply list_insert_id. exact Ha. }
  assert (Ha4 : arenas h4 !! a = Some x) by exact Ha.
  assert (Hwf4 : arena_wf h4 x).
  { unfold arena_wf. split; [|auto].
    apply slice_ok_write_heap; auto. simpl. lia. }
  set (h5 := set_arenas h4 (<[a := granted x n]> (arenas h4))).
  assert (Ha5 : arenas h5 !! a = Some (granted x n))
    by (simpl; apply list_lookup_insert_eq; auto).
  assert (HokL5 : slice_ok h5 (w_block L)).
  { apply (slice_ok_arrays h4); [reflexivity|].
    apply slice_ok_write_heap; auto. simpl. lia. }
  exists h5. split; [|reflexivity].
  unfold recycle_and_read, bind.
  rewrite (GetWriter_granted a x) by (auto; lia). fold h1. fold L.
  rewrite Writer_Write_fits
    by (try (apply (slice_ok_arrays h); [reflexivity | exact HokL]);
        unfold len; simpl; lia).
  change (Z.to_nat (w_at L)) with 0%nat. fold h2.
  unfold Writer_Release. cbn [w_wg w_once Writer_set_at L lease]. unfold bind.
  rewrite (Release_leased a (granted x n) h2 false) by (auto; simpl; lia).
  cbn [granted a_block a_reasonable a_next]. fold h3.
  unfold ret at 1.
  assert (EW : arena_Wait a h3 = Ret (tt, h3)).
  { unfold arena_Wait, WaitGroup_Wait, h3. simpl.
    rewrite list_lookup_insert_eq by (rewrite length_insert; auto). simpl.
    replace (a_wg x + 1 - 1 =? 0) with true by (symmetry; apply Z.eqb_eq; lia).
    reflexivity. }
  rewrite EW.
  assert (ER : arena_Reset a h3 = Ret (tt, h4)).
  { rewrite <- E4. unfold arena_Reset, bind, get_arena, set_next, h3. simpl.
    rewrite list_lookup_insert_eq by (rewrite length_insert; auto). reflexivity. }
  rewrite ER.
  rewrite (GetWriter_granted a x) by (auto; lia). fold h5. fold L.
  rewrite (Writer_Reader_leased h5 L a (granted x n)) by (auto; simpl; lia).
  rewrite read_to_EOF_block
    by (auto; cbn [r_block r_at]; try (unfold len; rewrite HlenL); lia).
  unfold ret. cbn [r_at r_block]. simpl Z.to_nat. rewrite drop_0.
  do 3 f_equal.
  rewrite (slice_bytes_arrays h4 h5) by reflexivity.
  unfold h4. rewrite slice_bytes_write_heap by (auto; rewrite HlenL; simpl; lia).
  reflexivity.
Qed.

Lemma recycled_lease_reads_previous_witness :
  exists h',
    recycle_and_read 0 4 [x01; x02; x03; x04] 3 5
      (Heap [replicate 40 x00] [Arena 0 (Slice 0 0 40 40) 4 0])
    = Ret (Some [x01; x02; x03; x04], h').
Proof.
  destruct (recycled_lease_reads_previous
              (Heap [replicate 40 x00] [Arena 0 (Slice 0 0 40 40) 4 0])
              0 (Arena 0 (Slice 0 0 40 40) 4 0) 4 [x01; x02; x03; x04] 3 5)
    as (h' & E & _); try reflexivity; try (simpl; lia).
  - unfold arena_wf, len. simpl. repeat split; try lia. concrete_slice_ok.
  - unfold len; simpl; lia.
  - exists h'. exact E.
Defined.

(** ** When the pool swaps its arena *)

Lemma Pool_GetWriter_pass s n pick w e h1 :
  arena_GetWriter (current (sys_pool s)) n (sys_heap s) = Ret ((w, e), h1) ->
  e <> Some arenaFullErr ->
  Pool_GetWriter n pick s = Ret ((w, e), Sys h1 (sys_pool s) (goroutines s)).
Proof.
  intros E He. unfold Pool_GetWriter, Pool_getWriter, bind, get_pool, lift.
  rewrite E. destruct e as [[]|]; try reflexivity. contradiction.
Qed.

(** X14: what a returning call of Pool.GetWriter does to the pool, with
    whatever runs beside it.  Unless the size is between 1 and the limit
    and does not fit behind the cursor of the current arena, the call
    leaves the current arena, the recycler and the reclamation goroutines
    as they are, and a request within the limit is served at the cursor of
    the current arena.  Otherwise the request is served from the start of
    the arena that is current afterwards, an arena the recycler or the
    factory handed out; it is another arena than the depleted one when
    nothing runs between handleDepleted and Get, and it can be the depleted
    arena itself, reclaimed in between, when its goroutine runs there. *)
Theorem Pool_GetWriter_swap_cases sz r buf s n pick ms1 ms2 ms3 res s' :
  0 <= r -> r * 10 <= sz -> reachable sz r buf s ->
  Pool_GetWriter_among ms1 ms2 ms3 n pick s = Ret (res, s') ->
  exists x,
    arenas (sys_heap s) !! current (sys_pool s) = Some x /\
    (~ (1 <= n <= r /\ sz < a_next x + n) ->
       sys_pool s' = sys_pool s /\ goroutines s' = goroutines s /\
       (1 <= n <= r ->
        arenas (sys_heap s') !! current (sys_pool s) = Some (granted x n))) /\
    (1 <= n <= r /\ sz < a_next x + n ->
       exists x',
         arenas (sys_heap s') !! current (sys_pool s') = Some x' /\
         a_next x' = n /\
         (ms2 = [] -> current (sys_pool s') <> current (sys_pool s))).
Proof.
  intros Hr0 Hr Hreach E.
  pose proof (reachable_inv sz r buf s Hr0 Hr Hreach) as Hinv.
  pose proof Hinv as (Esz & Er & Hnd & Hsh & Hrw).
  apply Forall_cons in Hsh as [Hc _].
  pose proof Hc as (x & Ha & Hok & Hlen & Hrx & Hnx & Hwg).
  pose proof (shaped_arena_wf sz r _ _ x Hr0 Hr Hc Ha) as Hwf.
  exists x. split; [exact Ha|]. split.
  - intros Hno.
    rewrite Pool_GetWriter_among_pass in E
      by (intros w h1 E1; apply Hno; eapply GetWriter_full_inv; eauto).
    assert (Hsame : forall w e h1,
      arena_GetWriter (current (sys_pool s)) n (sys_heap s) = Ret ((w, e), h1) ->
      e <> Some arenaFullErr ->
      sys_pool s' = sys_pool s /\ goroutines s' = goroutines s /\
      arenas (sys_heap s') = arenas h1).
    { intros w e h1 E1 He.
      rewrite (Pool_GetWriter_pass s n pick w e h1 E1 He) in E.
      injection E as <- <-. auto. }
    destruct (Z_lt_le_dec n 1) as [Hn|Hn].
    { destruct (Hsame _ _ _ (GetWriter_invalid _ n _ Hn) ltac:(discriminate))
        as (Hq & Hg & _).
      split; [exact Hq|]. split; [exact Hg | lia]. }
    destruct (Z_lt_le_dec r n) as [Hbig|Hsmall].
    { destruct (Z_lt_le_dec maxAlloc n) as [Hm|Hm].
      - unfold Pool_GetWriter, Pool_getWriter, bind, get_pool, lift in E.
        rewrite (GetWriter_too_large _ x) in E by (auto; lia). discriminate.
      - assert (E1 : arena_GetWriter (current (sys_pool s)) n (sys_heap s)
                     = Ret ((mkWriter (Slice (length (arrays (sys_heap s))) 0
                                             (Z.to_nat n) (Z.to_nat n)) 0 false None,
                             None),
                            set_arrays (sys_heap s)
                              (arrays (sys_heap s) ++ [replicate (Z.to_nat n) x00])))
          by (apply (GetWriter_oversize _ x); auto; lia).
        destruct (Hsame _ _ _ E1 ltac:(discriminate)) as (Hq & Hg & _).
        split; [exact Hq|]. split; [exact Hg | lia]. }
    assert (E1 : arena_GetWriter (current (sys_pool s)) n (sys_heap s)
                 = Ret ((lease (current (sys_pool s)) x n, None),
                        set_arenas (sys_heap s)
                          (<[current (sys_pool s) := granted x n]>
                             (arenas (sys_heap s)))))
      by (apply GetWriter_granted; auto; lia).
    destruct (Hsame _ _ _ E1 ltac:(discriminate)) as (Hq & Hg & Har).
    split; [exact Hq|]. split; [exact Hg|]. intros _.
    rewrite Har. simpl. apply list_lookup_insert_eq.
    eapply lookup_lt_Some; eauto.
  - intros [Hn Hfull].
    destruct (Pool_GetWriter_among_full sz r s n pick ms1 ms2 ms3 x
                Hr0 Hr Hinv Ha Hn Hfull)
      as (w & s1 & x' & E' & _ & _ & _ & Hx' & Hn' & Hne).
    rewrite E' in E. injection E as _ <-. eauto.
Qed.

Lemma Pool_GetWriter_swap_cases_witness :
  let s := Sys (Heap [replicate 40 x00] [Arena 0 (Slice 0 0 40 40) 4 40])
               (mkPool 40 4 0 (mempool.NewPool 1)) [] in
  exists res s' x',
    Pool_GetWriter_among [] [m_goroutine 0] [] 4 None s = Ret (res, s') /\
    current (sys_pool s') = current (sys_pool s) /\
    arenas (sys_heap s') !! current (sys_pool s') = Some x' /\
    a_next x' = 4.
Proof.
  intros s.
  assert (R : reachable 40 4 1
                (Sys (Heap [replicate 40 x00] [Arena 0 (Slice 0 0 40 40) 4 0])
                     (mkPool 40 4 0 (mempool.NewPool 1)) []))
    by (apply (reachable_New 40 4 1 (Heap [] [])); vm_compute; reflexivity).
  do 10 (advance R 4).
  released R (Heap [replicate 40 x00] [Arena 0 (Slice 0 0 40 40) 4 40]).
  assert (E : exists res s',
             Pool_GetWriter_among [] [m_goroutine 0] [] 4 None s = Ret (res, s'))
    by (do 2 eexists; vm_compute; reflexivity).
  destruct E as (res & s' & E).
  destruct (Pool_GetWriter_swap_cases 40 4 1 s 4 None [] [m_goroutine 0] [] res s'
              ltac:(lia) ltac:(lia) R E)
    as (x & Hx & _ & Hfull).
  vm_compute in Hx. injection Hx as <-.
  destruct Hfull as (x' & Hx' & Hn' & _); [simpl; lia|].
  exists res, s', x'. split; [exact E|]. split; [|split; [exact Hx' | exact Hn']].
  vm_compute in E. injection E as <- <-. reflexivity.
Defined.

(** ** Package mempool *)

(** X15: Put stores the value it is given exactly once and never drops or
    duplicates one.  When the Reset of the value (if it has one) returns,
    Put returns in the state Reset left, with the value at the back of the
    buffer if the buffer exists and has room, and in the sync.Pool
    otherwise; the values held are those held before plus the new one, the
    buffer keeps its capacity and stays within it.  When Reset panics, Put
    panics and returns no pool. *)
Theorem mempool_Put_stores {S T} (Resetter : T -> option (M S unit))
    (v : T) (pl : mempool.Pool T) (s s1 : S) :
  match Resetter v with
  | Some Reset => Reset s = Ret (tt, s1)
  | None => s1 = s
  end ->
  exists pl',
    mempool.Put Resetter v pl s = Ret (pl', s1) /\
    mempool_contents pl' ≡ₚ v :: mempool_contents pl /\
    buffer_cap pl' = buffer_cap pl /\
    (buffer_bounded pl -> buffer_bounded pl') /\
    match mempool.buffer pl with
    | Some (c, q) =>
        if (length q <? c)%nat
        then mempool.buffer pl' = Some (c, q ++ [v]) /\ mempool.p pl' = mempool.p pl
        else mempool.buffer pl' = mempool.buffer pl /\ mempool.p pl' = v :: mempool.p pl
    | None => mempool.buffer pl' = None /\ mempool.p pl' = v :: mempool.p pl
    end.
Proof.
  intros HR.
  assert (E : (match Resetter v with Some Reset => Reset | None => ret tt end) s
              = Ret (tt, s1)).
  { destruct (Resetter v); [exact HR | subst; reflexivity]. }
  unfold mempool.Put, bind. rewrite E.
  unfold mempool_contents, buffer_cap, buffer_bounded.
  destruct (mempool.buffer pl) as [[c q]|] eqn:Hb.
  - destruct (length q <? c)%nat eqn:Hroom.
    + eexists. split; [reflexivity|]. simpl. apply Nat.ltb_lt in Hroom.
      split; [|split; [reflexivity|split; [|auto]]].
      * rewrite <- app_assoc. simpl. symmetry. apply Permutation_middle.
      * intros _. rewrite length_app. simpl. lia.
    + eexists. split; [reflexivity|]. simpl. rewrite ?Hb.
      split; [|split; [reflexivity|split; auto]].
      symmetry. apply Permutation_middle.
  - eexists. split; [reflexivity|]. simpl. rewrite ?Hb. simpl.
    split; [reflexivity|]. split; [reflexivity|]. split; auto.
Qed.

Lemma mempool_Put_stores_witness :
  exists pl',
    mempool.Put (fun _ : nat => @None (M unit unit)) 7%nat
                (mempool.mkPool [1%nat] (Some (2%nat, [5%nat]))) tt = Ret (pl', tt) /\
    mempool.buffer pl' = Some (2%nat, [5%nat; 7%nat]).
Proof.
  destruct (mempool_Put_stores (fun _ : nat => @None (M unit unit)) 7%nat
              (mempool.mkPool [1%nat] (Some (2%nat, [5%nat]))) tt tt eq_refl)
    as (pl' & E & _ & _ & _ & Hb).
  exists pl'. split; [exact E|]. simpl in Hb. apply Hb.
Defined.

(** X16: Get takes a value out of the pool or makes a new one, and never
    both.  If the buffer holds values, Get returns the oldest of them,
    whatever the sync.Pool holds, without calling the factory.  Otherwise it
    returns what the sync.Pool hands back, or calls the factory when the
    sync.Pool hands back nothing, and then the pool is left as it is.  In
    the first two cases the state is untouched and the value is removed
    from the values held; in all cases the buffer keeps its capacity and
    stays within it. *)
Theorem mempool_Get_takes {S T} (n : M S T) (pick : option nat)
    (pl : mempool.Pool T) (s : S) v pl' s' :
  mempool.Get n pick pl s = Ret ((v, pl'), s') ->
  ((s' = s /\ mempool_contents pl ≡ₚ v :: mempool_contents pl') \/
   (pl' = pl /\ n s = Ret (v, s'))) /\
  (forall c x q, mempool.buffer pl = Some (c, x :: q) ->
     v = x /\ s' = s /\ mempool.buffer pl' = Some (c, q) /\
     mempool.p pl' = mempool.p pl) /\
  buffer_cap pl' = buffer_cap pl /\
  (buffer_bounded pl -> buffer_bounded pl').
Proof.
  assert (Hsync :
    mempool.sync_Pool_Get n pick pl s = Ret ((v, pl'), s') ->
    ((s' = s /\ mempool.p pl ≡ₚ v :: mempool.p pl') \/
     (pl' = pl /\ n s = Ret (v, s'))) /\
    mempool.buffer pl' = mempool.buffer pl).
  { unfold mempool.sync_Pool_Get.
    assert (Hnew : bind n (fun v0 => ret (v0, pl)) s = Ret ((v, pl'), s') ->
      ((s' = s /\ mempool.p pl ≡ₚ v :: mempool.p pl') \/
       (pl' = pl /\ n s = Ret (v, s'))) /\
      mempool.buffer pl' = mempool.buffer pl).
    { unfold bind, ret. destruct (n s) as [[v0 s0]| |]; try discriminate.
      intros [= <- <- <-]. auto. }
    destruct pick as [i|]; [|exact Hnew].
    destruct (mempool.p pl !! i) as [x|] eqn:Hi; [|exact Hnew].
    intros [= <- <- <-]. simpl. split; [left; split; [reflexivity|]|reflexivity].
    apply delete_Permutation. exact Hi. }
  assert (Hfrom_sync :
    (forall c x q, mempool.buffer pl <> Some (c, x :: q)) ->
    mempool.sync_Pool_Get n pick pl s = Ret ((v, pl'), s') ->
    ((s' = s /\ mempool_contents pl ≡ₚ v :: mempool_contents pl') \/
     (pl' = pl /\ n s = Ret (v, s'))) /\
    (forall c x q, mempool.buffer pl = Some (c, x :: q) ->
       v = x /\ s' = s /\ mempool.buffer pl' = Some (c, q) /\
       mempool.p pl' = mempool.p pl) /\
    buffer_cap pl' = buffer_cap pl /\
    (buffer_bounded pl -> buffer_bounded pl')).
  { intros Hempty E. destruct (Hsync E) as [H1 H2].
    unfold mempool_contents, buffer_cap, buffer_bounded. rewrite H2.
    split; [|split; [|auto]].
    - destruct H1 as [[-> Hp]|[-> Hn]]; [left|right; auto].
      split; [reflexivity|]. rewrite Hp. symmetry. apply Permutation_middle.
    - intros c x q Hb. destruct (Hempty c x q Hb). }
  unfold mempool.Get.
  destruct (mempool.buffer pl) as [[c [|x q]]|] eqn:Hb.
  - apply Hfrom_sync. intros ? ? ? [=].
  - intros [= <- <- <-].
    unfold mempool_contents, buffer_cap, buffer_bounded. simpl. rewrite Hb.
    split; [left; auto|].
    split; [intros ? ? ? [= <- <- <-]; auto|]. split; [reflexivity|].
    simpl. lia.
  - apply Hfrom_sync. intros ? ? ? [=].
Qed.

Lemma mempool_Get_takes_witness :
  mempool.Get (ret 0%nat : M unit nat) (Some 0%nat)
              (mempool.mkPool [1%nat] (Some (2%nat, [5%nat; 7%nat]))) tt
  = Ret ((5%nat, mempool.mkPool [1%nat] (Some (2%nat, [7%nat]))), tt).
Proof.
  assert (E : exists v pl' s',
    mempool.Get (ret 0%nat : M unit nat) (Some 0%nat)
                (mempool.mkPool [1%nat] (Some (2%nat, [5%nat; 7%nat]))) tt
    = Ret ((v, pl'), s')) by (do 3 eexists; reflexivity).
  destruct E as (v & pl' & s' & E).
  destruct (mempool_Get_takes _ _ _ _ _ _ _ E) as (_ & Hfifo & _).
  destruct (Hfifo 2%nat 5%nat [7%nat] eq_refl) as (-> & -> & Hb & Hp).
  rewrite E. destruct pl' as [p' b']. simpl in Hb, Hp. subst. reflexivity.
Defined.

Lemma Put_all_buffered {S T} (Resetter : T -> option (M S unit)) (vs : list T) :
  (forall v Reset s, Resetter v = Some Reset -> exists s', Reset s = Ret (tt, s')) ->
  forall p c q s,
    (length q + length vs <= c)%nat ->
    exists s1,
      Put_all Resetter vs (mempool.mkPool p (Some (c, q))) s
        = Ret (mempool.mkPool p (Some (c, q ++ vs)), s1).
Proof.
  intros HR. induction vs as [|v vs IH]; intros p c q s Hroom.
  - exists s. simpl. rewrite app_nil_r. reflexivity.
  - simpl in Hroom.
    assert (Hs1 : exists s1,
      match Resetter v with Some Reset => Reset s = Ret (tt, s1) | None => s1 = s end).
    { destruct (Resetter v) as [Reset|] eqn:E; [eapply HR; eauto | eauto]. }
    destruct Hs1 as (s1 & Hs1).
    destruct (mempool_Put_stores Resetter v (mempool.mkPool p (Some (c, q))) s s1 Hs1)
      as (pl' & E & _ & _ & _ & Hst).
    simpl in Hst.
    replace (length q <? c)%nat with true in Hst by (symmetry; apply Nat.ltb_lt; lia).
    destruct Hst as [Hb Hp]. destruct pl' as [p' b']. simpl in Hb, Hp. subst p' b'.
    destruct (IH p c (q ++ [v]) s1) as (s2 & E2);
      [rewrite length_app; simpl; lia|].
    exists s2. simpl. unfold bind. rewrite E.
    rewrite E2, <- app_assoc. reflexivity.
Qed.

Lemma Get_all_buffered {S T} (n : M S T) (q : list T) :
  forall picks p c (s : S),
    length picks = length q ->
    Get_all n picks (mempool.mkPool p (Some (c, q))) s
      = Ret ((q, mempool.mkPool p (Some (c, []))), s).
Proof.
  induction q as [|x q IH]; intros [|pk picks] p c s Hl; try discriminate.
  - reflexivity.
  - simpl. unfold bind. unfold mempool.Get at 1. simpl. unfold ret at 1.
    rewrite IH by (simpl in Hl; lia). reflexivity.
Qed.

(** X17: the buffer is a queue.  On a pool whose buffer has room for them,
    values put one after the other (each Reset returning) all go to the
    buffer, and as many Gets as the buffer then holds return its values in
    the order they were put, oldest first, whatever the sync.Pool would hand
    back, without calling the factory and without changing the state,
    leaving the buffer empty and the sync.Pool as it was. *)
Theorem mempool_buffer_fifo {S T} (Resetter : T -> option (M S unit)) (n : M S T)
    (vs : list T) p c q (s : S) picks :
  (forall v Reset s0, Resetter v = Some Reset -> exists s', Reset s0 = Ret (tt, s')) ->
  (length q + length vs <= c)%nat ->
  length picks = (length q + length vs)%nat ->
  exists s1,
    (let! pl := Put_all Resetter vs (mempool.mkPool p (Some (c, q))) in
     Get_all n picks pl) s
    = Ret ((q ++ vs, mempool.mkPool p (Some (c, []))), s1).
Proof.
  intros HR Hroom Hl.
  destruct (Put_all_buffered Resetter vs HR p c q s Hroom) as (s1 & E).
  exists s1. unfold bind. rewrite E.
  apply Get_all_buffered. rewrite length_app. exact Hl.
Qed.

Lemma mempool_buffer_fifo_witness :
  exists s1,
    (let! pl := Put_all (fun _ : nat => @None (M unit unit)) [3%nat; 4%nat]
                        (mempool.mkPool [9%nat] (Some (3%nat, [2%nat]))) in
     Get_all (ret 0%nat) [Some 0%nat; None; Some 0%nat] pl) tt
    = Ret (([2%nat; 3%nat; 4%nat], mempool.mkPool [9%nat] (Some (3%nat, []))), s1).
Proof.
  apply (mempool_buffer_fifo (fun _ : nat => @None (M unit unit)) (ret 0%nat)
           [3%nat; 4%nat] [9%nat] 3%nat [2%nat] tt [Some 0%nat; None; Some 0%nat]).
  - intros v Reset s0 E. discriminate.
  - simpl; lia.
  - reflexivity.
Defined.

Lemma Put_all_unbuffered {S T} (Resetter : T -> option (M S unit)) (vs : list T) :
  (forall v Reset s, Resetter v = Some Reset -> exists s', Reset s = Ret (tt, s')) ->
  forall p b s,
    match b with Some (c, q) => (c <= length q)%nat | None => True end ->
    exists s1,
      Put_all Resetter vs (mempool.mkPool p b) s
        = Ret (mempool.mkPool (rev vs ++ p) b, s1).
Proof.
  intros HR. induction vs as [|v vs IH]; intros p b s Hfull.
  - exists s. reflexivity.
  - assert (Hs1 : exists s1,
      match Resetter v with Some Reset => Reset s = Ret (tt, s1) | None => s1 = s end).
    { destruct (Resetter v) as [Reset|] eqn:E; [eapply HR; eauto | eauto]. }
    destruct Hs1 as (s1 & Hs1).
    destruct (mempool_Put_stores Resetter v (mempool.mkPool p b) s s1 Hs1)
      as (pl' & E & _ & _ & _ & Hst).
    simpl in Hst.
    assert (Hpl : pl' = mempool.mkPool (v :: p) b).
    { destruct pl' as [p' b']. simpl in Hst. destruct b as [[c q]|].
      - replace (length q <? c)%nat with false in Hst
          by (symmetry; apply Nat.ltb_ge; lia).
        destruct Hst as [-> ->]. reflexivity.
      - destruct Hst as [-> ->]. reflexivity. }
    subst pl'. destruct (IH (v :: p) b s1 Hfull) as (s2 & E2).
    exists s2. simpl. unfold bind. rewrite E, E2.
    rewrite <- app_assoc. reflexivity.
Qed.

(** X18: where a run of Puts ends up.  With a buffer of capacity [c] that
    holds [q], the first c - len(q) values go to the back of the buffer in
    the order they were put, and all later ones go to the sync.Pool, the
    latest in front; without a buffer (NewPool with a buffer size of 0 or
    less) every value goes to the sync.Pool. *)
Theorem mempool_Put_all_overflow {S T} (Resetter : T -> option (M S unit))
    (vs : list T) p (s : S) :
  (forall v Reset s0, Resetter v = Some Reset -> exists s', Reset s0 = Ret (tt, s')) ->
  (forall c q, (length q <= c)%nat ->
     exists s1,
       Put_all Resetter vs (mempool.mkPool p (Some (c, q))) s
       = Ret (mempool.mkPool (rev (drop (c - length q) vs) ++ p)
                             (Some (c, q ++ take (c - length q) vs)), s1)) /\
  (forall bufferSize, bufferSize <= 0 ->
     exists s1,
       Put_all Resetter vs (@mempool.NewPool T bufferSize) s
       = Ret (mempool.mkPool (rev vs) None, s1)).
Proof.
  intros HR. split.
  - intros c q Hq.
    assert (Hsplit : forall (u w : list T) s0,
      (length q + length u <= c)%nat ->
      (c <= length (q ++ u))%nat \/ w = [] ->
      exists s1,
        Put_all Resetter (u ++ w) (mempool.mkPool p (Some (c, q))) s0
        = Ret (mempool.mkPool (rev w ++ p) (Some (c, q ++ u)), s1)).
    { intros u w s0 Hu Hw.
      assert (Happ : forall (l1 l2 : list T) pl s2,
        Put_all Resetter (l1 ++ l2) pl s2
        = bind (Put_all Resetter l1 pl) (Put_all Resetter l2) s2).
      { induction l1 as [|y l1 IH1]; intros l2 pl s2; [reflexivity|].
        cbn [app Put_all]. unfold bind at 1 2 3.
        destruct (mempool.Put Resetter y pl s2) as [[pl1 s3]| |];
          [rewrite IH1; reflexivity | reflexivity | reflexivity]. }
      rewrite Happ. unfold bind.
      destruct (Put_all_buffered Resetter u HR p c q s0 Hu) as (s1 & E1).
      rewrite E1. destruct Hw as [Hw| ->].
      - apply Put_all_unbuffered; auto.
      - exists s1. reflexivity. }
    destruct (Hsplit (take (c - length q) vs) (drop (c - length q) vs) s)
      as (s1 & E).
    + rewrite length_take. lia.
    + destruct (decide (c - length q <= length vs)%nat) as [Hle|Hgt].
      * left. rewrite length_app, length_take. lia.
      * right. apply drop_ge. lia.
    + rewrite take_drop in E. exists s1. exact E.
  - intros b Hb. unfold mempool.NewPool.
    replace (0 <? b) with false by (symmetry; apply Z.ltb_ge; lia).
    destruct (Put_all_unbuffered Resetter vs HR [] None s I) as (s1 & E).
    exists s1. rewrite E, app_nil_r. reflexivity.
Qed.

Lemma mempool_Put_all_overflow_witness :
  exists s1,
    Put_all (fun _ : nat => @None (M unit unit)) [3%nat; 4%nat; 5%nat; 6%nat]
            (mempool.mkPool [9%nat] (Some (3%nat, [2%nat]))) tt
    = Ret (mempool.mkPool [6%nat; 5%nat; 9%nat] (Some (3%nat, [2%nat; 3%nat; 4%nat])), s1).
Proof.
  destruct (mempool_Put_all_overflow (fun _ : nat => @None (M unit unit))
              [3%nat; 4%nat; 5%nat; 6%nat] [9%nat] tt) as [H _].
  - intros v Reset s0 E. discriminate.
  - apply (H 3%nat [2%nat]). simpl. lia.
Defined.

(** ** The loop of the benchmark *)

(** A lease is granted, written and released. *)
Lemma lease_cycle h a x n b :
  arenas h !! a = Some x -> arena_wf h x -> a_wg x = 0 ->
  1 <= n <= a_reasonable x -> a_next x + n <= len (a_block x) ->
  (0 < length b)%nat -> Z.of_nat (length b) <= n ->
  exists h1 w1 h2 h3,
    arena_GetWriter a n h = Ret ((lease a x n, None), h1) /\
    Writer_Write (lease a x n) b h1 = Ret ((Z.of_nat (length b), None, w1), h2) /\
    Writer_Release w1 h2 = Ret (Writer_set_once w1, h3) /\
    handles_step h1 h3 /\
    arenas h3 = <[a := Arena 0 (a_block x) (a_reasonable x) (a_next x + n)]> (arenas h) /\
    length (arrays h3) = length (arrays h).
Proof.
  intros Ha Hwf Hc Hn Hfit Hb0 Hb. pose proof Hwf as (Hok & Hnx & Hr0 & Hr & Hc').
  assert (Hlt : (a < length (arenas h))%nat) by (eapply lookup_lt_Some; eauto).
  set (L := lease a x n).
  assert (HokL : slice_ok h (w_block L)) by (apply slice_ok_lease; auto; lia).
  set (h1 := set_arenas h (<[a := granted x n]> (arenas h))).
  set (h2 := write_heap h1 (w_block L) 0 b).
  set (w1 := Writer_set_at L (0 + Z.of_nat (length b))).
  set (h3 := set_arenas h2 (<[a := Arena (a_wg (granted x n) - 1) (a_block x)
                                         (a_reasonable x) (a_next x + n)]> (arenas h2))).
  assert (Ha1 : arenas h1 !! a = Some (granted x n))
    by (simpl; apply list_lookup_insert_eq; auto).
  assert (HokL1 : slice_ok h1 (w_block L))
    by (apply (slice_ok_arrays h); [reflexivity | exact HokL]).
  assert (E2 : Writer_Write L b h1 = Ret ((Z.of_nat (length b), None, w1), h2)).
  { rewrite Writer_Write_fits by (auto; unfold len; simpl; lia). reflexivity. }
  assert (E3 : Writer_Release w1 h2 = Ret (Writer_set_once w1, h3)).
  { unfold Writer_Release. cbn [w_wg w_once w1 Writer_set_at L lease]. unfold bind.
    rewrite (Release_leased a (granted x n) h2 false) by (auto; simpl; lia).
    reflexivity. }
  exists h1, w1, h2, h3.
  split; [apply GetWriter_granted; auto|]. split; [exact E2|]. split; [exact E3|].
  split; [|split].
  - eapply handles_step_trans.
    + eapply Writer_Write_handles_step; [exact HokL1 | simpl; lia | exact E2].
    + eapply Writer_Release_handles_step. exact E3.
  - unfold h3, h2, h1. simpl. rewrite list_insert_insert_eq.
    do 2 f_equal. simpl. lia.
  - unfold h3, h2, h1, write_heap. simpl. apply length_alter.
Qed.

Lemma Pool_GetWriter_swapped s n pick w0 v m' hv gs' w e hv1 :
  arena_GetWriter (current (sys_pool s)) n (sys_heap s)
    = Ret ((w0, Some arenaFullErr), sys_heap s) ->
  mempool.Get (factory (size (sys_pool s)) (reasonable (sys_pool s))) pick
              (pool (sys_pool s))
              (Sys (sys_heap s) (sys_pool s) (goroutines s ++ [current (sys_pool s)]))
    = Ret ((v, m'), Sys hv (sys_pool s) gs') ->
  arena_GetWriter v n hv = Ret ((w, e), hv1) ->
  Pool_GetWriter n pick s =
    Ret ((w, e), Sys hv1 (mkPool (size (sys_pool s)) (reasonable (sys_pool s)) v m') gs').
Proof.
  intros E1 EG E2.
  unfold Pool_GetWriter, Pool_getWriter, bind, get_pool, lift.
  rewrite E1. unfold Pool_handleDepleted, spawn.
  cbn [sys_heap sys_pool goroutines]. rewrite EG.
  unfold set_pool, set_current.
  cbn [sys_heap sys_pool goroutines size reasonable current pool].
  rewrite E2. reflexivity.
Qed.

Lemma factory_fresh sz r h q gs :
  0 <= r -> r * 10 <= sz -> sz <= maxAlloc ->
  let xv := Arena 0 (Slice (length (arrays h)) 0 (Z.to_nat sz) (Z.to_nat sz)) r 0 in
  let hN := Heap (arrays h ++ [replicate (Z.to_nat sz) x00]) (arenas h ++ [xv]) in
  factory sz r (Sys h q gs) = Ret (length (arenas h), Sys hN q gs) /\
  shaped sz r hN (length (arenas h)).
Proof.
  intros Hr0 Hr Hm xv hN. pose proof int_bounds as Hb.
  destruct (newArena_shaped sz r h Hr0 Hr Hm) as (h' & E & _ & _ & Hs & _).
  assert (E' : newArena sz r h = Ret ((Some (length (arenas h)), None), hN)).
  { unfold newArena, bind, make_bytes.
    rewrite wrap_uint_small by (unfold maxAlloc in *; lia).
    replace (sz <? r * 10) with false by (symmetry; apply Z.ltb_ge; lia).
    replace (sz <? 0) with false by (symmetry; apply Z.ltb_ge; lia).
    replace (maxAlloc <? sz) with false by (symmetry; apply Z.ltb_ge; lia).
    simpl. rewrite wrap_int_small by lia. reflexivity. }
  rewrite E' in E. injection E as <-. split; [|exact Hs].
  unfold factory, bind, lift. cbn [sys_heap sys_pool goroutines]. rewrite E'. reflexivity.
Qed.

(** A pass whose three calls return: its result, and the invariant. *)
Lemma arena_iteration_run sz r s n b pick w h1 q' gs' k w1 h2 w2 h3 :
  0 <= r -> r * 10 <= sz -> pool_inv sz r s ->
  Pool_GetWriter n pick s = Ret ((w, None), Sys h1 q' gs') ->
  Writer_Write w b h1 = Ret ((k, None, w1), h2) ->
  Writer_Release w1 h2 = Ret (w2, h3) ->
  handles_step h1 h3 ->
  arena_iteration n b pick s = Ret (tt, Sys h3 q' gs') /\
  pool_inv sz r (Sys h3 q' gs').
Proof.
  intros Hr0 Hr Hinv EG EW ER Hst. split.
  - unfold arena_iteration, bind. rewrite EG. unfold lift.
    cbn [sys_heap sys_pool goroutines]. rewrite EW.
    cbn [sys_heap sys_pool goroutines]. rewrite ER. reflexivity.
  - pose proof (Pool_GetWriter_inv sz r s n pick Hr0 Hr Hinv) as H.
    rewrite EG in H. destruct H as (H & _).
    apply (handles_step_inv sz r _ h3 H). exact Hst.
Qed.

(** A pass on a full current arena, up to the end of the goroutine it
    starts: the arena that Get hands out becomes current and serves the
    lease, and the old one goes rewound into the buffer. *)
Lemma steady_swap sz r n b pick h c m x v xv hv m' cap :
  0 <= r -> r * 10 <= sz -> 1 <= n <= r ->
  (0 < length b)%nat -> Z.of_nat (length b) <= n ->
  pool_inv sz r (Sys h (mkPool sz r c m) []) ->
  arenas h !! c = Some x -> arena_wf h x -> len (a_block x) < a_next x + n ->
  mempool.Get (factory sz r) pick m (Sys h (mkPool sz r c m) [c])
    = Ret ((v, m'), Sys hv (mkPool sz r c m) [c]) ->
  arenas hv !! v = Some xv -> arena_wf hv xv -> a_wg xv = 0 ->
  a_reasonable xv = r -> a_next xv + n <= len (a_block xv) ->
  arenas hv !! c = Some x -> a_wg x = 0 -> v <> c ->
  mempool.buffer m' = Some (cap, []) -> (1 <= cap)%nat ->
  exists hf,
    let s' := Sys hf (mkPool sz r v (mempool.mkPool (mempool.p m') (Some (cap, [c])))) [] in
    (run! arena_iteration n b pick in run_goroutine 0) (Sys h (mkPool sz r c m) [])
      = Ret (tt, s') /\
    pool_inv sz r s' /\
    arenas hf = alter (fun y => Arena (a_wg y) (a_block y) (a_reasonable y) 0) c
                  (<[v := Arena 0 (a_block xv) (a_reasonable xv) (a_next xv + n)]>
                     (arenas hv)) /\
    length (arrays hf) = length (arrays hv).
Proof.
  intros Hr0 Hr Hn Hb0 Hb Hinv Hx Hwf Hfull EGet Hxv Hwfv Hcv Hrv Hfit Hxc Hc0 Hne Hbuf Hcap.
  pose proof Hwf as (_ & _ & _ & _ & _).
  assert (Hxr : a_reasonable x = r).
  { destruct Hinv as (_ & _ & _ & Hsh & _). cbn [sys_pool sys_heap current] in Hsh.
    apply Forall_cons in Hsh as [(x' & Hx' & _ & _ & Hr' & _) _].
    rewrite Hx in Hx'. injection Hx' as <-. exact Hr'. }
  pose proof (GetWriter_full c x n h Hx Hwf ltac:(lia) Hfull) as E1.
  destruct (lease_cycle hv v xv n b Hxv Hwfv Hcv ltac:(lia) Hfit Hb0 Hb)
    as (h1 & w1 & h2 & h3 & EG & EW & ER & Hst & Har & Hay).
  pose proof (Pool_GetWriter_swapped (Sys h (mkPool sz r c m) []) n pick
                Writer_zero v m' hv [c] _ _ h1 E1 EGet EG) as EP.
  cbn [sys_pool sys_heap size reasonable] in EP.
  destruct (arena_iteration_run sz r _ n b pick _ h1 _ _ _ w1 h2 _ h3
              Hr0 Hr Hinv EP EW ER Hst) as (EI & Hinv3).
  assert (Hc3 : arenas h3 !! c = Some x).
  { rewrite Har. rewrite list_lookup_insert_ne by auto. exact Hxc. }
  pose proof (reclaim_drained c x h3 (mkPool sz r v m') [c] Hc3 Hc0) as ER'.
  assert (Est : stored c m' = mempool.mkPool (mempool.p m') (Some (cap, [c]))).
  { unfold stored. rewrite Hbuf. simpl.
    replace (0 <? cap)%nat with true by (symmetry; apply Nat.ltb_lt; lia).
    reflexivity. }
  cbn [size reasonable current pool] in ER'. rewrite Est in ER'.
  eexists. cbn zeta.
  assert (ERun : (run! arena_iteration n b pick in run_goroutine 0)
                   (Sys h (mkPool sz r c m) [])
                 = Ret (tt, Sys (set_arenas h3
                     (alter (fun y => Arena (a_wg y) (a_block y) (a_reasonable y) 0)
                            c (arenas h3)))
                    (mkPool sz r v (mempool.mkPool (mempool.p m') (Some (cap, [c])))) [])).
  { unfold bind. rewrite EI. unfold run_goroutine.
    cbn [goroutines lookup list_lookup]. rewrite ER'. reflexivity. }
  split; [exact ERun|]. split; [|split].
  - apply (run_goroutine_inv sz r 0 _ _ Hinv3).
    unfold run_goroutine. cbn [goroutines lookup list_lookup]. rewrite ER'. reflexivity.
  - simpl. rewrite Har. reflexivity.
  - simpl. exact Hay.
Qed.

(** A pass and the goroutine it starts keep the pool steady. *)
Lemma steady_pass sz r A0 R0 n b pick s :
  0 <= r -> r * 10 <= sz -> 1 <= n <= r ->
  (0 < length b)%nat -> Z.of_nat (length b) <= n ->
  steady sz r A0 R0 s ->
  exists s',
    (run! arena_iteration n b pick in run_goroutine 0) s = Ret (tt, s') /\
    steady sz r A0 R0 s'.
Proof.
  intros Hr0 Hr Hn Hb0 Hb (Hinv & Hgs & Hp & Hidle & cap & Hcap & Hbuf).
  destruct s as [h [sz' r' c m] gs].
  cbn [sys_heap sys_pool goroutines current pool] in *. subst gs.
  pose proof (pool_inv_bounds _ _ _ Hinv) as Hbd.
  pose proof Hinv as (Hsz & Hrr & Hnd & Hsh & Hrw).
  cbn [sys_heap sys_pool goroutines current pool size reasonable] in *.
  rewrite Hsz, Hrr in *. clear Hsz Hrr sz' r'.
  rewrite app_nil_r in Hnd, Hsh.
  apply NoDup_cons in Hnd as [Hcm Hndm].
  apply Forall_cons in Hsh as [Hc Hshm].
  apply Forall_cons in Hidle as [(x & Hx & Hc0) Hidm].
  assert (Hwf : arena_wf h x) by (eapply shaped_arena_wf; eauto).
  assert (Hclt : (c < length (arenas h))%nat) by (eapply lookup_lt_Some; eauto).
  destruct Hc as (x' & Hx' & Hok & Hlen & Hxr & Hnx & Hwg).
  rewrite Hx in Hx'. injection Hx' as <-.
  destruct (Z_le_gt_dec (a_next x + n) sz) as [Hfit | Hfull].
  - (* the current arena serves the lease *)
    destruct (lease_cycle h c x n b Hx Hwf Hc0 ltac:(lia) ltac:(lia) Hb0 Hb)
      as (h1 & w1 & h2 & h3 & EG & EW & ER & Hst & Har & Hay).
    destruct (arena_iteration_run sz r (Sys h (mkPool sz r c m) []) n b pick
                _ h1 (mkPool sz r c m) [] _ w1 h2 _ h3 Hr0 Hr Hinv
                (Pool_GetWriter_pass (Sys h (mkPool sz r c m) []) n pick _ _ _ EG
                   ltac:(discriminate)) EW ER Hst) as (EI & Hinv3).
    exists (Sys h3 (mkPool sz r c m) []). split.
    { unfold bind. rewrite EI. reflexivity. }
    split; [exact Hinv3|]. split; [reflexivity|]. split; [exact Hp|].
    cbn [sys_heap sys_pool goroutines current pool]. split.
    + apply Forall_cons. split.
      * eexists. rewrite Har. split; [apply list_lookup_insert_eq; exact Hclt|].
        reflexivity.
      * apply Forall_forall. intros a Ha.
        destruct (proj1 (Forall_forall _ _) Hidm a Ha) as (y & Hy & Hy0).
        exists y. split; [|exact Hy0]. rewrite Har.
        rewrite list_lookup_insert_ne by (intros ->; contradiction). exact Hy.
    + exists cap. split; [exact Hcap|].
      rewrite Har, length_insert, Hay. exact Hbuf.
  - (* the current arena is full *)
    destruct Hbuf as [(Hbf & HA & HR) | (o & Hbf & HA & HR)].
    + (* the recycler is empty: a new arena *)
      destruct (factory_fresh sz r h (mkPool sz r c m) [c] Hr0 Hr ltac:(lia))
        as (EF & Hsv).
      set (xv := Arena 0 (Slice (length (arrays h)) 0 (Z.to_nat sz) (Z.to_nat sz)) r 0) in *.
      set (hN := Heap (arrays h ++ [replicate (Z.to_nat sz) x00]) (arenas h ++ [xv])) in *.
      assert (EGet : mempool.Get (factory sz r) pick m (Sys h (mkPool sz r c m) [c])
                     = Ret ((length (arenas h), m), Sys hN (mkPool sz r c m) [c])).
      { unfold mempool.Get, mempool.sync_Pool_Get. rewrite Hbf, Hp.
        destruct pick as [i|]; [rewrite lookup_nil|]; unfold bind; rewrite EF;
          reflexivity. }
      assert (Hxv : arenas hN !! length (arenas h) = Some xv)
        by (apply list_lookup_middle; reflexivity).
      assert (Hlenv : len (a_block xv) = sz) by (unfold len; simpl; lia).
      assert (Hwfv : arena_wf hN xv)
        by (apply (shaped_arena_wf sz r hN (length (arenas h))); auto).
      assert (Hfitv : a_next xv + n <= len (a_block xv))
        by (rewrite Hlenv; simpl; lia).
      assert (HxN : arenas hN !! c = Some x)
        by (simpl; rewrite lookup_app_l by exact Hclt; exact Hx).
      assert (Hfull' : len (a_block x) < a_next x + n) by lia.
      assert (Hvc : length (arenas h) <> c) by lia.
      destruct (steady_swap sz r n b pick h c m x (length (arenas h)) xv hN m cap
                  Hr0 Hr Hn Hb0 Hb Hinv Hx Hwf Hfull' EGet Hxv
                  Hwfv eq_refl eq_refl Hfitv HxN Hc0 Hvc Hbf Hcap)
        as (hf & ERun & Hinvf & Harf & Hayf).
      eexists. split; [exact ERun|].
      split; [exact Hinvf|]. split; [reflexivity|]. split; [exact Hp|].
      cbn [sys_heap sys_pool goroutines current pool]. split.
      * unfold pooled. cbn [mempool.buffer mempool.p]. rewrite Hp.
        apply Forall_cons; split; [|apply Forall_cons; split; [|constructor]].
        -- eexists. rewrite Harf. split.
           ++ rewrite list_lookup_alter_ne by lia.
              apply list_lookup_insert_eq. simpl. rewrite length_app. simpl. lia.
           ++ reflexivity.
        -- eexists. rewrite Harf. split.
           ++ rewrite list_lookup_alter_eq, list_lookup_insert_ne by lia.
              simpl. rewrite lookup_app_l by exact Hclt. rewrite Hx. reflexivity.
           ++ exact Hc0.
      * exists cap. split; [exact Hcap|]. right. exists c.
        split; [reflexivity|]. rewrite Harf, length_alter, length_insert, Hayf.
        simpl. rewrite !length_app. simpl. lia.
    + (* the buffer holds a rewound arena *)
      assert (Hpm : pooled m = [o]) by (unfold pooled; rewrite Hbf, Hp; reflexivity).
      rewrite Hpm in *.
      apply Forall_cons in Hshm as [Hso _].
      apply Forall_cons in Hrw as [(xo & Hxo & Hno) _].
      apply Forall_cons in Hidm as [(xo' & Hxo' & Ho0) _].
      rewrite Hxo in Hxo'. injection Hxo' as <-.
      assert (Hoc : o <> c) by (intros ->; apply Hcm; apply list_elem_of_singleton; reflexivity).
      assert (Hwfo : arena_wf h xo) by (apply (shaped_arena_wf sz r h o); auto).
      destruct Hso as (y & Hy & _ & Hleno & Hro & _).
      rewrite Hxo in Hy. injection Hy as <-.
      assert (EGet : mempool.Get (factory sz r) pick m (Sys h (mkPool sz r c m) [c])
                     = Ret ((o, mempool.mkPool (mempool.p m) (Some (cap, []))),
                            Sys h (mkPool sz r c m) [c])).
      { unfold mempool.Get. rewrite Hbf. reflexivity. }
      assert (Hfull' : len (a_block x) < a_next x + n) by lia.
      assert (Hfito : a_next xo + n <= len (a_block xo)) by lia.
      destruct (steady_swap sz r n b pick h c m x o xo h _ cap
                  Hr0 Hr Hn Hb0 Hb Hinv Hx Hwf Hfull' EGet Hxo Hwfo Ho0 Hro
                  Hfito Hx Hc0 Hoc eq_refl Hcap)
        as (hf & ERun & Hinvf & Harf & Hayf).
      eexists. split; [exact ERun|].
      split; [exact Hinvf|]. split; [reflexivity|]. split; [exact Hp|].
      cbn [sys_heap sys_pool goroutines current pool]. split.
      * unfold pooled. cbn [mempool.buffer mempool.p]. rewrite Hp.
        apply Forall_cons; split; [|apply Forall_cons; split; [|constructor]].
        -- eexists. rewrite Harf. split.
           ++ rewrite list_lookup_alter_ne by auto.
              apply list_lookup_insert_eq. eapply lookup_lt_Some; eauto.
           ++ reflexivity.
        -- eexists. rewrite Harf. split.
           ++ rewrite list_lookup_alter_eq, list_lookup_insert_ne by auto.
              rewrite Hx. reflexivity.
           ++ exact Hc0.
      * exists cap. split; [exact Hcap|]. right. exists c.
        split; [reflexivity|]. rewrite Harf, length_alter, length_insert, Hayf.
        auto.
Qed.

(** X19: the loop of the benchmark runs on two arenas.  On a pool that New
    made with a buffer of at least one place, any number of passes of
    allocateMemoryArena that ask for leases within the limit and write at
    least one byte and no more than the lease holds, each followed by the
    goroutine it starts, all return without a panic; no goroutine is left
    pending, and the pool has allocated at most one arena and one array
    beyond the one New made, whatever the sync.Pool does: from the second
    swap on, every full arena is replaced by the one reclaimed before. *)
Theorem allocateMemoryArena_two_arenas sz r buf h0 q h n b picks (k : nat) :
  New sz r buf h0 = Ret ((Some q, None), h) ->
  0 <= r -> r * 10 <= sz -> 1 <= buf -> 1 <= n <= r ->
  (forall x, (0 < length (b x))%nat /\ Z.of_nat (length (b x)) <= n) ->
  exists s',
    allocateMemoryArena k n b picks (Sys h q []) = Ret (tt, s') /\
    goroutines s' = [] /\
    (length (arenas (sys_heap s')) <= length (arenas h0) + 2)%nat /\
    (length (arrays (sys_heap s')) <= length (arrays h0) + 2)%nat.
Proof.
  intros EN Hr0 Hr Hbuf Hn Hb.
  pose proof (New_inv sz r buf h0 q h Hr0 Hr EN) as Hinv.
  destruct (New_returns sz r buf h0 q h EN) as (_ & _ & -> & ->).
  assert (H0 : steady sz r (length (arenas h0)) (length (arrays h0))
                 (Sys (Heap (arrays h0 ++ [replicate (Z.to_nat sz) x00])
                            (arenas h0 ++ [Arena 0 (Slice (length (arrays h0)) 0
                               (Z.to_nat sz) (Z.to_nat sz)) (wrap_int r) 0]))
                      (mkPool sz r (length (arenas h0)) (mempool.NewPool buf)) [])).
  { split; [exact Hinv|]. split; [reflexivity|]. split; [reflexivity|].
    unfold mempool.NewPool.
    replace (0 <? buf) with true by (symmetry; apply Z.ltb_lt; lia).
    cbn [sys_heap sys_pool goroutines current pool mempool.buffer mempool.p arenas arrays].
    split.
    - unfold pooled. simpl. apply Forall_cons. split; [|constructor].
      eexists. split; [apply list_lookup_middle; reflexivity | reflexivity].
    - exists (Z.to_nat buf). split; [lia|]. left.
      split; [reflexivity|]. rewrite !length_app. simpl. lia. }
  assert (HS : exists s',
    allocateMemoryArena k n b picks
      (Sys (Heap (arrays h0 ++ [replicate (Z.to_nat sz) x00])
                 (arenas h0 ++ [Arena 0 (Slice (length (arrays h0)) 0
                    (Z.to_nat sz) (Z.to_nat sz)) (wrap_int r) 0]))
           (mkPool sz r (length (arenas h0)) (mempool.NewPool buf)) [])
      = Ret (tt, s') /\
    steady sz r (length (arenas h0)) (length (arrays h0)) s').
  { induction k as [|k IH].
    - eexists. split; [reflexivity | exact H0].
    - destruct IH as (s1 & E1 & H1).
      destruct (Hb k) as (Hb0 & Hb1).
      destruct (steady_pass sz r _ _ n (b k) (picks k) s1 Hr0 Hr Hn Hb0 Hb1 H1)
        as (s2 & E2 & H2).
      exists s2. split; [|exact H2].
      cbn [allocateMemoryArena]. unfold bind at 1. rewrite E1. exact E2. }
  destruct HS as (s' & E & _ & Hgs & _ & _ & c & _ & Hcount).
  exists s'. split; [exact E|]. split; [exact Hgs|].
  destruct Hcount as [(_ & -> & ->) | (o & _ & -> & ->)]; lia.
Qed.

Lemma allocateMemoryArena_two_arenas_witness :
  exists s',
    allocateMemoryArena 25 4 (fun x => [Byte.x01]) (fun _ => None)
      (Sys (Heap [replicate 40 x00] [Arena 0 (Slice 0 0 40 40) 4 0])
           (mkPool 40 4 0 (mempool.NewPool 1)) []) = Ret (tt, s') /\
    goroutines s' = [] /\
    (length (arenas (sys_heap s')) <= 2)%nat /\
    (length (arrays (sys_heap s')) <= 2)%nat.
Proof.
  apply (allocateMemoryArena_two_arenas 40 4 1 (Heap [] [])
           (mkPool 40 4 0 (mempool.NewPool 1))
           (Heap [replicate 40 x00] [Arena 0 (Slice 0 0 40 40) 4 0])
           4 (fun x => [Byte.x01]) (fun _ => None) 25).
  - vm_compute. reflexivity.
  - lia.
  - lia.
  - lia.
  - lia.
  - intros x. simpl. split; lia.
Defined.
